(** * Candidate discovery engine of the HR network app, shallow embedding.

    Models [backend/app/services/contact_generation.py],
    [backend/app/services/title_parser.py],
    [backend/app/services/search_client.py], [backend/app/services/domains.py]
    and the route of [backend/app/routers/contacts.py] that runs the engine.

    Python strings are modelled as Rocq [string]s over ASCII characters; the
    string methods used by the code ([strip], [lower], [split], [replace],
    [join], [endswith]) are written out below with their Python semantics
    restricted to ASCII. *)

From Stdlib Require Import String Ascii ZArith List Lia Bool Permutation SpecFloat.
Import ListNotations.
Open Scope string_scope.

(* ------------------------------------------------------------------ *)
(** ** Python string primitives (ASCII) *)

Module PyStr.

(** [str.isspace] on an ASCII character: \t \n \v \f \r, \x1c-\x1f and space. *)
Definition is_space (c : ascii) : bool :=
  let n := nat_of_ascii c in
  ((9 <=? n) && (n <=? 13))%nat || ((28 <=? n) && (n <=? 32))%nat.

(** [str.lower] on one ASCII character. *)
Definition lower_char (c : ascii) : ascii :=
  let n := nat_of_ascii c in
  if ((65 <=? n) && (n <=? 90))%nat then ascii_of_nat (n + 32) else c.

Fixpoint lower (s : string) : string :=
  match s with
  | EmptyString => EmptyString
  | String c s' => String (lower_char c) (lower s')
  end.

(** [str.lstrip] / [str.rstrip] / [str.strip] with a character predicate. *)
Fixpoint lstrip_by (p : ascii -> bool) (s : string) : string :=
  match s with
  | EmptyString => EmptyString
  | String c s' => if p c then lstrip_by p s' else s
  end.

Fixpoint rstrip_by (p : ascii -> bool) (s : string) : string :=
  match s with
  | EmptyString => EmptyString
  | String c s' =>
      let r := rstrip_by p s' in
      if (r =? EmptyString) && p c then EmptyString else String c r
  end.

Definition strip_by (p : ascii -> bool) (s : string) : string :=
  rstrip_by p (lstrip_by p s).

(** [s.strip()] *)
Definition strip (s : string) : string := strip_by is_space s.

(** [s.endswith(suf)] *)
Definition ends_with (suf s : string) : bool :=
  let n := String.length s in
  let m := String.length suf in
  (m <=? n)%nat && (substring (n - m) m s =? suf).

(** [sub in s] *)
Fixpoint contains (sub s : string) : bool :=
  match s with
  | EmptyString => sub =? EmptyString
  | String _ s' => prefix sub s || contains sub s'
  end.

(** [s.replace(pat, rep)] for a non-empty [pat]: left-to-right,
    non-overlapping. [skip] counts the characters of a match still to drop. *)
Fixpoint replace_aux (pat rep : string) (skip : nat) (s : string) : string :=
  match s with
  | EmptyString => EmptyString
  | String c s' =>
      match skip with
      | S k => replace_aux pat rep k s'
      | O => if prefix pat s
             then rep ++ replace_aux pat rep (pred (String.length pat)) s'
             else String c (replace_aux pat rep O s')
      end
  end.

Definition replace (pat rep s : string) : string := replace_aux pat rep O s.

(** [s.split(sep)] for a non-empty [sep]. *)
Fixpoint split_aux (sep : string) (skip : nat) (cur s : string) : list string :=
  match s with
  | EmptyString => [cur]
  | String c s' =>
      match skip with
      | S k => split_aux sep k cur s'
      | O => if prefix sep s
             then cur :: split_aux sep (pred (String.length sep)) EmptyString s'
             else split_aux sep O (cur ++ String c EmptyString) s'
      end
  end.

Definition split (sep s : string) : list string := split_aux sep O EmptyString s.

(** [sep.join(l)] *)
Fixpoint join (sep : string) (l : list string) : string :=
  match l with
  | [] => EmptyString
  | [x] => x
  | x :: l' => x ++ sep ++ join sep l'
  end.

(** A one-character string; used for the double quote, which a Rocq string
    literal cannot hold on its own. *)
Definition chr (n : nat) : string := String (ascii_of_nat n) EmptyString.
Definition dq : string := chr 34.

End PyStr.

Import PyStr.

(* ------------------------------------------------------------------ *)
(** ** [clean_email_part] and [generate_email] *)

Module Email.

(** The characters kept by the regular-expression substitution that deletes
    everything outside [a-zA-Z0-9\-']. *)
Definition email_char_kept (c : ascii) : bool :=
  let n := nat_of_ascii c in
  ((65 <=? n) && (n <=? 90))%nat || ((97 <=? n) && (n <=? 122))%nat
  || ((48 <=? n) && (n <=? 57))%nat || (n =? 45)%nat || (n =? 39)%nat.

Fixpoint filter_chars (p : ascii -> bool) (s : string) : string :=
  match s with
  | EmptyString => EmptyString
  | String c s' => if p c then String c (filter_chars p s') else filter_chars p s'
  end.

Definition is_apostrophe (c : ascii) : bool := (nat_of_ascii c =? 39)%nat.
Definition is_hyphen (c : ascii) : bool := (nat_of_ascii c =? 45)%nat.

(** [clean_email_part]: the replacement of U+2019 by an apostrophe is
    invisible on ASCII input (both characters are removed in the end). *)
Definition clean_email_part (raw_part : string) : string :=
  let cleaned := filter_chars email_char_kept raw_part in
  let cleaned := filter_chars (fun c => negb (is_apostrophe c)) cleaned in
  lower (strip_by is_hyphen cleaned).

(** [domain: str | None]; [not domain] holds for [None] and for the empty
    string. *)
Definition domain_missing (domain : option string) : bool :=
  match domain with
  | None => true
  | Some d => d =? EmptyString
  end.

Definition generate_email (first last : string) (domain : option string) : string :=
  match domain with
  | None => "N/A"
  | Some d =>
      if d =? EmptyString then "N/A"
      else
        let first_clean := clean_email_part first in
        let last_clean := clean_email_part last in
        if (first_clean =? EmptyString) || (last_clean =? EmptyString) then "N/A"
        else first_clean ++ "." ++ last_clean ++ "@" ++ lower d
  end.

End Email.

(* ------------------------------------------------------------------ *)
(** ** [normalize_company_name] *)

Module Company.

(** [DIVISION_PATTERNS]: every pattern is a literal followed by [$]. *)
Definition DIVISION_PATTERNS : list string :=
  [ "investment management"; "asset management"; "global advisors";
    "wealth management"; "private wealth"; "investors"; "capital management";
    "capital"; "corporation"; "management"; "associates"; "financial";
    "global investor"; "strategic advisors"; "investment corporation";
    "investment group"; "investments"; "technology"; "technologies";
    "company"; "&"; "strategy"; "etfs"; "markets"; "investment"; "global";
    "inc"; "llc"; "ltd"; "co"; "corp"; "plc" ].

Definition COMPANY_WHITELIST : list string :=
  [ "neuberger berman"; "t. rowe price"; "lord abbett"; "janus henderson";
    "fidelity investments"; "capital group"; "vanguard"; "pimco";
    "jennison associates" ].

(** Deleting the match of the pattern [p$] from [name] (case-insensitive)
    once the search of [p$] in [name.lower()] has succeeded: the match is the
    last [len(p)] characters of [name]. *)
Definition drop_suffix (p name : string) : string :=
  substring 0 (String.length name - String.length p) name.

Definition normalize_company_name (raw : string) : string :=
  let name := strip raw in
  if name =? EmptyString then EmptyString
  else
    let name_lower := lower name in
    if existsb (String.eqb name_lower) COMPANY_WHITELIST then name
    else
      match find (fun p => ends_with p name_lower) DIVISION_PATTERNS with
      | Some p => strip (drop_suffix p name)
      | None => name
      end.

(** Reading of the spec: among the matching patterns the longest one is
    stripped (the first of the longest ones in list order). *)
Fixpoint longest_match (name_lower : string) (ps : list string) : option string :=
  match ps with
  | [] => None
  | p :: ps' =>
      let rest := longest_match name_lower ps' in
      if ends_with p name_lower then
        match rest with
        | Some q => if (String.length p <? String.length q)%nat then Some q else Some p
        | None => Some p
        end
      else rest
  end.

Definition normalize_company_name_longest_first (raw : string) : string :=
  let name := strip raw in
  if name =? EmptyString then EmptyString
  else
    let name_lower := lower name in
    if existsb (String.eqb name_lower) COMPANY_WHITELIST then name
    else
      match longest_match name_lower DIVISION_PATTERNS with
      | Some p => strip (drop_suffix p name)
      | None => name
      end.

End Company.

(* ------------------------------------------------------------------ *)
(** ** [title_parser.parse_title] *)

Module TitleParser.

Definition nonempty (s : string) : bool := negb (s =? EmptyString).

(** [parse_title(text)] returns [(name, role_company)]. *)
Definition parse_title (text : string) : string * string :=
  if text =? EmptyString then (EmptyString, EmptyString)
  else
    let text := strip (replace "| LinkedIn" EmptyString text) in
    let parts := filter nonempty (map strip (split " - " text)) in
    let name := match parts with p :: _ => p | [] => EmptyString end in
    let role_company :=
      if (2 <=? List.length parts)%nat then join " - " (tl parts) else EmptyString in
    (name, role_company).

(** Shape of a well-formed title segment, used to state what [parse_title]
    does on titles built as [seg1 - seg2 - ... | LinkedIn]. *)
Fixpoint no_char (ch : ascii) (s : string) : bool :=
  match s with
  | EmptyString => true
  | String c s' => negb (Ascii.eqb c ch) && no_char ch s'
  end.

Definition first_nonspace (s : string) : bool :=
  match s with
  | EmptyString => false
  | String c _ => negb (is_space c)
  end.

Fixpoint last_nonspace (s : string) : bool :=
  match s with
  | EmptyString => false
  | String c EmptyString => negb (is_space c)
  | String _ s' => last_nonspace s'
  end.

Definition clean_segment (s : string) : bool :=
  no_char "-" s && no_char "|" s && first_nonspace s && last_nonspace s.

End TitleParser.

(* ------------------------------------------------------------------ *)
(** ** Stable sorting by a key ([list.sort] / [sorted]) *)

Module Sorting.

Section SortBy.
Context {A : Type}.
(** [le x y]: the key of [x] is at most the key of [y]. *)
Variable le : A -> A -> bool.

Fixpoint insert_by (x : A) (l : list A) : list A :=
  match l with
  | [] => [x]
  | y :: l' => if le x y then x :: y :: l' else y :: insert_by x l'
  end.

(** Insertion from the back: an element is placed before the elements of
    equal key that follow it, so the sort is stable like Python's. *)
Definition sort_by (l : list A) : list A := fold_right insert_by [] l.

End SortBy.

End Sorting.

Import Sorting.

(* ------------------------------------------------------------------ *)
(** ** Exceptions *)

Module Errors.

(** The exceptions the modelled code can raise: [ValueError] and
    [OverflowError] with their message, [requests.HTTPError] with the status
    code of the response, FastAPI's [HTTPException] with its status code and
    detail. *)
Inductive Exc :=
| ValueError (msg : string)
| HTTPError (code : Z)
| OverflowError (msg : string)
| HTTPException (status_code : Z) (detail : string).

(** Computations that may raise. *)
Definition M (A : Type) : Type := (Exc + A)%type.
Definition ret {A} (a : A) : M A := inr a.
Definition bind {A B} (m : M A) (k : A -> M B) : M B :=
  match m with inl e => inl e | inr a => k a end.
Notation "x <- m ;; k" := (bind m (fun x => k)) (at level 61, m at next level, right associativity).

(** A list comprehension [[f(x) for x in l]] whose body may raise. *)
Fixpoint mapM {A B} (f : A -> M B) (l : list A) : M (list B) :=
  match l with
  | [] => ret []
  | x :: l' => y <- f x ;; ys <- mapM f l' ;; ret (y :: ys)
  end.

End Errors.

Import Errors.

(* ------------------------------------------------------------------ *)
(** ** Python floats (IEEE 754 binary64)

    [spec_float] with precision 53 and maximal exponent 1024 is the binary64
    format of Python's [float]; [SFmul], [SFsub], [SFdiv] and [SFcompare]
    are its correctly rounded operations (round half to even). *)

Module PyFloat.

Local Open Scope Z_scope.

Definition float := spec_float.

Definition fmul (x y : float) : float := SFmul 53 1024 x y.
Definition fsub (x y : float) : float := SFsub 53 1024 x y.
Definition fdiv (x y : float) : float := SFdiv 53 1024 x y.
Definition flt (x y : float) : bool := SFltb x y.
Definition feq (x y : float) : bool := SFeqb x y.

(** [float(n)] for an [int] ([PyLong_AsDouble]): rounded to nearest, ties
    to even; a result out of range raises. *)
Definition float_of_int (n : Z) : M float :=
  match binary_normalize 53 1024 n 0 false with
  | S754_infinity _ => inl (OverflowError "int too large to convert to float")
  | f => ret f
  end.

(** [a / b] for two [int]s with [0 <= a <= 2^53] and [0 < b <= 2^53] (true
    division): both are exact floats and the quotient is the correctly
    rounded one. *)
Definition int_true_div (a b : Z) : float :=
  fdiv (binary_normalize 53 1024 a 0 false) (binary_normalize 53 1024 b 0 false).

(** [int(x)] for a float: truncation toward zero. *)
Definition int_of_float (x : float) : M Z :=
  match x with
  | S754_zero _ => ret 0
  | S754_finite s m e =>
      let n := if 0 <=? e then Z.shiftl (Zpos m) e else Z.shiftr (Zpos m) (- e) in
      ret (if s then - n else n)
  | S754_infinity _ => inl (OverflowError "cannot convert float infinity to integer")
  | S754_nan => inl (ValueError "cannot convert float NaN to integer")
  end.

End PyFloat.

(* ------------------------------------------------------------------ *)
(** ** Seniority levels and [allocate_seniority_quotas] *)

Module Seniority.

Import PyFloat.

Local Open Scope Z_scope.

Definition mem (x : string) (l : list string) : bool := existsb (String.eqb x) l.

Definition SENIORITY_UI_ORDER : list string :=
  ["Analyst"; "Associate"; "VP"; "Director"; "Executive Director"; "Managing Director"].

Definition SENIORITY_DISTRIBUTION_WEIGHTS : list (string * Z) :=
  [("Analyst", 6%Z); ("Associate", 3%Z); ("VP", 2%Z); ("Director", 1%Z);
   ("Executive Director", 1%Z); ("Managing Director", 1%Z)].

(** [d.get(k, default)] on an association list. *)
Fixpoint assoc_get {V : Type} (k : string) (d : list (string * V)) (default : V) : V :=
  match d with
  | [] => default
  | (k', v) :: d' => if String.eqb k k' then v else assoc_get k d' default
  end.

(** One iteration of the two loops of [ordered_selected_seniority_levels]:
    [(unique, seen)] is the pair of accumulators. *)
Definition add_level (levels : list string) (from_ui : bool)
    (acc : list string * list string) (level : string) : list string * list string :=
  let '(unique, seen) := acc in
  if (if from_ui then mem level levels else true) && negb (mem level seen)
  then ((unique ++ [level])%list, (seen ++ [level])%list)
  else (unique, seen).

Definition ordered_selected_seniority_levels (levels : list string) : list string :=
  let acc := fold_left (add_level levels true) SENIORITY_UI_ORDER ([], []) in
  fst (fold_left (add_level levels false) levels acc).

(** [SENIORITY_ORDER_INDEX.get(level, 999)], 999 for a falsy level. *)
Fixpoint index_of (x : string) (l : list string) (i : Z) : option Z :=
  match l with
  | [] => None
  | y :: l' => if String.eqb x y then Some i else index_of x l' (i + 1)
  end.

Definition seniority_priority_key (level : string) : Z :=
  if String.eqb level EmptyString then 999
  else match index_of level SENIORITY_UI_ORDER 0 with Some i => i | None => 999 end.

Fixpoint sumZ (l : list Z) : Z :=
  match l with [] => 0 | x :: l' => x + sumZ l' end.

(** [quotas[idx] += 1]; the index is always in range here. *)
Fixpoint incr_at (idx : nat) (l : list Z) : list Z :=
  match l, idx with
  | [], _ => []
  | x :: l', O => (x + 1) :: l'
  | x :: l', S i => x :: incr_at i l'
  end.

(** The loop [for _, idx in remainders: if assigned >= total_slots: break ...]. *)
Fixpoint distribute (total_slots : Z) (order : list nat) (quotas : list Z)
    (assigned : Z) : list Z :=
  match order with
  | [] => quotas
  | idx :: rest =>
      if total_slots <=? assigned then quotas
      else distribute total_slots rest (incr_at idx quotas) (assigned + 1)
  end.

(** Sort key [(remainder, -idx)] with [reverse=True]: larger remainder first,
    then smaller index first (the keys are pairwise distinct). *)
Definition remainder_before (a b : float * nat) : bool :=
  flt (fst b) (fst a) || (feq (fst a) (fst b) && (snd a <=? snd b)%nat).

(** [total_slots * (w / weight_sum)]: the true division of two [int]s, then
    the product of [total_slots], converted to float, and that quotient. *)
Definition exact_share (total_slots w weight_sum : Z) : M float :=
  t <- float_of_int total_slots ;; ret (fmul t (int_true_div w weight_sum)).

(** [allocate_seniority_quotas(target_levels, total_slots)]: the shares
    [exacts[idx] = total_slots * (w / weight_sum)] are floats ([w /
    weight_sum] is a true division, [total_slots] is converted to float for
    the product), [quotas] truncates them with [int], and the remainders
    [exacts[idx] - quotas[idx]] are float subtractions. *)
Definition allocate_seniority_quotas (target_levels : list string) (total_slots : Z)
    : M (list (string * Z)) :=
  let selected := ordered_selected_seniority_levels target_levels in
  if (total_slots <=? 0) || (List.length selected =? 0)%nat then ret []
  else
    let weights := map (fun level => assoc_get level SENIORITY_DISTRIBUTION_WEIGHTS 1) selected in
    let weight_sum :=
      let s := sumZ weights in if s =? 0 then Z.of_nat (List.length selected) else s in
    exacts <- mapM (fun w => exact_share total_slots w weight_sum) weights ;;
    quotas <- mapM int_of_float exacts ;;
    let assigned := sumZ quotas in
    rems <- mapM (fun '(v, q) => fq <- float_of_int q ;; ret (fsub v fq))
                 (combine exacts quotas) ;;
    let remainders :=
      sort_by remainder_before (combine rems (seq 0 (List.length selected))) in
    let quotas := distribute total_slots (map snd remainders) quotas assigned in
    ret (combine selected quotas).

End Seniority.

(* ------------------------------------------------------------------ *)
(** ** Candidate rows, [candidate_row_identity], [prioritize_company_rows] *)

Module Rows.

Import Seniority.

(** A candidate row: the dict built in [generate_contacts] with the keys the
    engine reads back (those of [raw_data] flattened).  A [None] value is the
    empty string: every reader of these keys maps a missing value to the
    empty string first. *)
Record Row := mkRow {
  full_name : string;
  first_name : string;
  last_name : string;
  title : string;
  company : string;
  city : string;
  school : string;
  linkedin_url : string;
  email : string;
  source_tag : string;
  fit_score : Z;
  fit_reasons : list string;
  query : string;
  detected_level : string
}.

Definition candidate_row_identity (row : Row) : string :=
  let email := lower (strip (email row)) in
  if negb (String.eqb email EmptyString) && negb (String.eqb email "n/a")
  then "email:" ++ email
  else
    let url := lower (strip (linkedin_url row)) in
    if negb (String.eqb url EmptyString) then "url:" ++ url
    else "name:" ++ join "|" [lower (strip (full_name row)); lower (strip (company row));
                               lower (strip (title row))].

(** [fit_score_from_row] *)
Definition fit_score_from_row (row : Row) : Z := fit_score row.

(** Key [(-fit_score, full_name)]. *)
Definition by_fit_then_name (a b : Row) : bool :=
  (fit_score_from_row b <? fit_score_from_row a)%Z
  || ((fit_score_from_row a =? fit_score_from_row b)%Z
      && String.leb (full_name a) (full_name b)).

(** Key [(seniority_priority_key(level), -fit_score, full_name)]. *)
Definition by_level_fit_name (a b : Row) : bool :=
  let ka := seniority_priority_key (detected_level a) in
  let kb := seniority_priority_key (detected_level b) in
  (ka <? kb)%Z || ((ka =? kb)%Z && by_fit_then_name a b).

(** [str(raw_data.get("detected_level") or "Unknown")] *)
Definition detected_of (row : Row) : string :=
  if String.eqb (detected_level row) EmptyString then "Unknown" else detected_level row.

(** The accumulators [picked] and [picked_ids] of [prioritize_company_rows]. *)
Definition Picked := (list Row * list string)%type.

(** Quota pass: [for row in grouped[level]: if len(picked) >= max or quota <= 0: break ...] *)
Fixpoint take_with_quota (max_per_company quota : Z) (rows : list Row) (st : Picked) : Picked :=
  match rows with
  | [] => st
  | row :: rows' =>
      let '(picked, ids) := st in
      if (max_per_company <=? Z.of_nat (List.length picked))%Z || (quota <=? 0)%Z then st
      else
        let row_key := candidate_row_identity row in
        if mem row_key ids then take_with_quota max_per_company quota rows' st
        else take_with_quota max_per_company (quota - 1) rows'
               ((picked ++ [row])%list, (ids ++ [row_key])%list)
  end.

(** Backfill pass: [for row in ...: if len(picked) >= max: break ...] *)
Fixpoint backfill (max_per_company : Z) (rows : list Row) (st : Picked) : Picked :=
  match rows with
  | [] => st
  | row :: rows' =>
      let '(picked, ids) := st in
      if (max_per_company <=? Z.of_nat (List.length picked))%Z then st
      else
        let row_key := candidate_row_identity row in
        if mem row_key ids then backfill max_per_company rows' st
        else backfill max_per_company rows'
               ((picked ++ [row])%list, (ids ++ [row_key])%list)
  end.

Definition is_full (max_per_company : Z) (st : Picked) : bool :=
  (max_per_company <=? Z.of_nat (List.length (fst st)))%Z.

Section Prioritize.
Variable max_per_company : Z.
Variable selected_levels : list string.
(** [grouped[level]] once sorted. *)
Variable grouped : string -> list Row.
Variable quotas : list (string * Z).

(** First loop over [selected_levels]. *)
Fixpoint quota_pass (levels : list string) (st : Picked) : Picked :=
  match levels with
  | [] => st
  | level :: levels' =>
      let quota := assoc_get level quotas 0%Z in
      if (quota <=? 0)%Z then quota_pass levels' st
      else quota_pass levels' (take_with_quota max_per_company quota (grouped level) st)
  end.

(** Second loop over [selected_levels], with its outer [break]. *)
Fixpoint backfill_pass (levels : list string) (st : Picked) : Picked :=
  match levels with
  | [] => st
  | level :: levels' =>
      let st' := backfill max_per_company (grouped level) st in
      if is_full max_per_company st' then st' else backfill_pass levels' st'
  end.

End Prioritize.

Definition prioritize_company_rows (rows : list Row) (target_levels : list string)
    (max_per_company : Z) : M (list Row) :=
  if (max_per_company <=? 0)%Z || (List.length rows =? 0)%nat then ret []
  else
    let selected_levels := ordered_selected_seniority_levels target_levels in
    match selected_levels with
    | [] => ret (firstn (Z.to_nat max_per_company) (sort_by by_fit_then_name rows))
    | _ =>
      let grouped level :=
        sort_by by_fit_then_name
          (filter (fun r => String.eqb (detected_of r) level) rows) in
      let unknown_rows :=
        sort_by by_fit_then_name
          (filter (fun r => negb (mem (detected_of r) selected_levels)
                            && String.eqb (detected_of r) "Unknown") rows) in
      let extra_rows :=
        sort_by by_fit_then_name
          (filter (fun r => negb (mem (detected_of r) selected_levels)
                            && negb (String.eqb (detected_of r) "Unknown")) rows) in
      quotas <- allocate_seniority_quotas selected_levels max_per_company ;;
      let st := quota_pass max_per_company grouped quotas selected_levels ([], []) in
      let st := if is_full max_per_company st then st
                else backfill_pass max_per_company grouped selected_levels st in
      let st := if is_full max_per_company st then st
                else backfill max_per_company (unknown_rows ++ extra_rows)%list st in
      ret (firstn (Z.to_nat max_per_company) (sort_by by_level_fit_name (fst st)))
    end.

End Rows.

(* ------------------------------------------------------------------ *)
(** ** Inputs of the engine and its collaborators *)

Module Engine.

Import Seniority Rows Email.

Local Open Scope Z_scope.

Definition push (rs : list string) (r : string) : list string := (rs ++ [r])%list.

(** [JobContextLike]; [None] fields are empty strings / lists. *)
Record JobContext := mkJobContext {
  job_name : string;
  job_company : string;
  job_city : string;
  jd_text : string;
  extracted_keywords : list string
}.

(** The [filters] dict; [None] stands for a missing key.  Python's
    [filters.get(k) or default] takes the default for a missing key and for
    a falsy value (empty list, 0). *)
Record Filters := mkFilters {
  f_companies : option (list string);
  f_selected_cities : option (list string);
  f_selected_schools : option (list string);
  f_seniority_levels : option (list string);
  f_custom_keywords : option (list string);
  f_max_per_company : option Z;
  f_front_office_keywords : option (list string);
  f_hr_keywords : option (list string)
}.

(** One organic result of the search API response. *)
Record Item := mkItem { item_link : string; item_title : string; item_snippet : string }.

(** The HTTP response of the search API: status code and organic results. *)
Record Response := mkResponse { status : Z; organic_results : list Item }.

(** A result of [google_search]: [{"title", "url", "raw"}]; the snippet is
    the only part of [raw] the engine reads. *)
Record RawResult := mkRawResult { r_title : string; r_url : string; r_snippet : string }.

(** The helpers of [contact_generation.py] the claims do not depend on
    (regular-expression classifiers, fuzzy company matching, keyword
    expansion, the domain directory) and the HTTP transport of the search
    API.  The engine is defined for every choice of them. *)
Record Env := mkEnv {
  companies_likely_match : string -> string -> bool;
  (** [text_tokens(value, min_len=...)] as a list *)
  text_tokens : string -> nat -> list string;
  title_has_intern_or_nonfulltime_markers : string -> bool;
  clean_full_name : string -> string * string * string;
  detect_seniority_level : string -> string;
  (** [looks_like_current_role_at_target(role_company_text, target_company,
      snippet, precision_mode="search")]; [None] company is the empty string *)
  looks_like_current_role_at_target : string -> string -> string -> bool * string * list string;
  (** [seniority_match_for_mode(detected_level, target_levels, title_text, "search")] *)
  seniority_match_for_mode : string -> list string -> string -> bool * string;
  best_keyword_match : list string -> string -> option string * Z;
  resolve_domain : string -> string -> string -> string -> option string;
  extract_city : string -> string;
  normalize_lookup_text : string -> string;
  format_display_company : string -> string -> string -> string;
  canonicalize_search_keyword : string -> string;
  final_keywords : Filters -> JobContext -> list string;
  (** [requests.get(SERPAPI_URL, params={q, num, api_key})] *)
  http_get : string -> string -> Z -> Response
}.

Section WithEnv.
Variable env : Env.

(** [search_client.google_search] *)
Definition google_search (q api_key : string) (num : Z) : M (list RawResult) :=
  if String.eqb api_key EmptyString then inl (ValueError "SERPAPI_KEY is not configured")
  else
    let response := http_get env q api_key num in
    if (400 <=? status response)%Z && (status response <? 600)%Z
    then inl (HTTPError (status response))
    else
      ret (map (fun it => mkRawResult (item_title it) (item_link it) (item_snippet it))
             (filter (fun it => contains "linkedin.com/in" (item_link it))
                     (organic_results response))).

(* ------------------------------------------------------------------ *)
(** *** [compute_fit_score] *)

Record FitInput := mkFitInput {
  fi_job_context : JobContext;
  fi_target_company : string;
  fi_result_company : string;
  fi_result_title : string;
  fi_result_city : string;
  fi_detected_level : string;
  fi_target_levels : list string;
  fi_keyword_hit : option string;
  fi_custom_keyword_hit : option string;
  fi_custom_keyword_score : Z;
  fi_school_target : option string;
  fi_email : option string;
  fi_current_company_confirmed : bool
}.

Definition truthy (o : option string) : bool :=
  match o with Some s => negb (String.eqb s EmptyString) | None => false end.

Definition opt_eqb (a b : option string) : bool :=
  match a, b with
  | Some x, Some y => String.eqb x y
  | None, None => true
  | _, _ => false
  end.

Definition opt_str (o : option string) : string :=
  match o with Some s => s | None => EmptyString end.

(** [str(x).split(",")[0].strip().lower()] *)
Definition city_head (c : string) : string :=
  lower (strip (match split "," c with x :: _ => x | [] => EmptyString end)).

Fixpoint dedup (l : list string) : list string :=
  match l with
  | [] => []
  | x :: l' => if mem x l' then dedup l' else x :: dedup l'
  end.

(** [len(a & b)] for sets given as lists. *)
Definition inter_size (a b : list string) : Z :=
  Z.of_nat (List.length (filter (fun t => mem t b) (dedup a))).

(** The score and reasons as the source accumulates them, before the clamp. *)
Definition fit_steps (fi : FitInput) : Z * list string :=
  let job := fi_job_context fi in
  let s := 18%Z in
  let rs : list string := [] in
  let '(s, rs) :=
    if companies_likely_match env (fi_result_company fi) (fi_target_company fi)
    then (s + 30, push rs ("Company match with target employer (" ++ fi_target_company fi ++ ")."))
    else (s, rs) in
  let '(s, rs) :=
    if fi_current_company_confirmed fi
    then (s + 22, push rs ("LinkedIn title indicates current role at target company."))
    else (s, rs) in
  let '(s, rs) :=
    if negb (String.eqb (job_city job) EmptyString)
       && negb (String.eqb (fi_result_city fi) EmptyString) then
      let jc := city_head (job_city job) in
      let cc := city_head (fi_result_city fi) in
      if negb (String.eqb jc EmptyString) && negb (String.eqb cc EmptyString)
         && (String.eqb jc cc || contains jc cc || contains cc jc)
      then (s + 20, push rs ("Location alignment (" ++ fi_result_city fi ++ ")."))
      else (s, rs)
    else (s, rs) in
  let lvl := fi_detected_level fi in
  let '(s, rs) :=
    if negb (String.eqb lvl EmptyString) && negb (String.eqb lvl "Unknown") then
      if mem lvl (fi_target_levels fi)
      then (s + 5, push rs ("Detected seniority matches your target (" ++ lvl ++ ")."))
      else (s - 35, push rs ("Detected seniority (" ++ lvl ++ ") is outside your selected levels."))
    else (s - 10, rs) in
  let '(s, rs) :=
    if truthy (fi_keyword_hit fi) && negb (opt_eqb (fi_keyword_hit fi) (fi_custom_keyword_hit fi))
    then (s + 8, push rs ("Matched search keyword: " ++ opt_str (fi_keyword_hit fi) ++ "."))
    else (s, rs) in
  let ck := fi_custom_keyword_score fi in
  let ckh := opt_str (fi_custom_keyword_hit fi) in
  let '(s, rs) :=
    if truthy (fi_custom_keyword_hit fi) && (50 <=? ck)%Z then
      let s := s + Z.min 40 (18 + ck / 4) in
      let rs := push rs ("Title overlaps strongly with job title keyword: " ++ ckh ++ ".") in
      if (100 <=? ck)%Z
      then (s + 12, push rs ("Strong exact phrase match on job title keyword."))
      else (s, rs)
    else if truthy (fi_custom_keyword_hit fi) && (20 <=? ck)%Z
    then (s + Z.min 16 (6 + ck / 4),
          push rs ("Partial title overlap with job title keyword: " ++ ckh ++ "."))
    else (s - 24, push rs ("Weak title overlap with requested job title keywords.")) in
  let title_tokens := text_tokens env (fi_result_title fi) 3 in
  let job_tokens := text_tokens env (job_name job) 3 in
  let jd_tokens := flat_map (fun kw => text_tokens env kw 2) (extracted_keywords job) in
  let job_overlap := inter_size title_tokens job_tokens in
  let jd_overlap := inter_size title_tokens jd_tokens in
  let '(s, rs) :=
    if negb (job_overlap =? 0)%Z
    then (s + Z.min 18 (8 + job_overlap * 3), push rs ("Title overlaps with the target job title."))
    else if negb (jd_overlap =? 0)%Z
    then (s + Z.min 10 (4 + jd_overlap * 2), push rs ("Title overlaps with extracted JD keywords."))
    else (s, rs) in
  let '(s, rs) :=
    if truthy (fi_school_target fi)
    then (s + 7, push rs ("Matched school filter (" ++ opt_str (fi_school_target fi) ++ ")."))
    else (s, rs) in
  let '(s, rs) :=
    if truthy (fi_email fi) && negb (opt_eqb (fi_email fi) (Some "N/A"))
    then (s + 4, push rs ("Predicted corporate email available."))
    else (s, rs) in
  let title_lower := lower (fi_result_title fi) in
  let '(s, rs) :=
    if title_has_intern_or_nonfulltime_markers env title_lower
    then (s - 35, push rs ("Intern/non-full-time title (de-prioritized)."))
    else (s, rs) in
  let '(s, rs) :=
    if existsb (fun term => contains term title_lower)
         ["recruit"; "talent acquisition"; "early careers"; "campus"]
    then (s + 5, push rs ("Recruiting-facing title may be high leverage for outreach."))
    else (s, rs) in
  (s, rs).

Definition compute_fit_score (fi : FitInput) : Z * list string :=
  let '(s, rs) := fit_steps fi in
  (Z.max 0 (Z.min 100 s), firstn 4 (rev (dedup (rev rs)))).

End WithEnv.

(* ------------------------------------------------------------------ *)
(** *** [generate_contacts] *)

(** [SENIORITY_QUERY_MAP.get(level, level)] *)
Definition SENIORITY_QUERY_MAP (level : string) : string :=
  if String.eqb level "VP" then "(" ++ dq ++ "Vice President" ++ dq ++ " OR VP)"
  else if String.eqb level "Executive Director" then "(" ++ dq ++ "Executive Director" ++ dq ++ " OR ED)"
  else if String.eqb level "Managing Director" then "(" ++ dq ++ "Managing Director" ++ dq ++ " OR MD)"
  else level.

Definition level_clause (level_filter : string) : string :=
  if String.eqb level_filter EmptyString then EmptyString
  else " " ++ SENIORITY_QUERY_MAP level_filter.

(** [str(city).split(",")[0].strip()] *)
Definition city_short (city : string) : string :=
  strip (match split "," city with x :: _ => x | [] => EmptyString end).

(** The search query of one (company, city, keyword, level) combination. *)
Definition query_for (env : Env) (raw_company city keyword level_filter : string) : string :=
  "site:linkedin.com/in " ++ canonicalize_search_keyword env keyword ++ level_clause level_filter
  ++ " " ++ raw_company ++ " " ++ dq ++ city_short city ++ dq.

(** The values [generate_contacts] derives from its arguments before the loops. *)
Definition companies_of (f : Filters) (job : JobContext) : list string :=
  let src := match f_companies f with
             | Some ((_ :: _) as l) => l
             | _ => [job_company job]
             end in
  let cs := filter (fun c => negb (String.eqb (strip c) EmptyString)) src in
  match map strip cs with [] => [job_company job] | l => l end.

Definition cities_of (f : Filters) (job : JobContext) : list string :=
  let src := match f_selected_cities f with
             | Some ((_ :: _) as l) => l
             | _ => if String.eqb (job_city job) EmptyString then [] else [job_city job]
             end in
  match filter (fun c => negb (String.eqb c EmptyString)) src with
  | [] => if String.eqb (job_city job) EmptyString then ["New York, NY"] else [job_city job]
  | l => l
  end.

Definition schools_of (f : Filters) : list string :=
  filter (fun s => negb (String.eqb (strip s) EmptyString))
         (match f_selected_schools f with Some l => l | None => [] end).

Definition max_per_company_of (f : Filters) : Z :=
  match f_max_per_company f with
  | None => 10
  | Some z => if z =? 0 then 10 else z
  end.

Definition levels_of (f : Filters) : list string :=
  match f_seniority_levels f with
  | Some ((_ :: _) as l) => l
  | _ => ["Analyst"; "Associate"]
  end.

(** [level_filters = levels if levels else [""]] *)
Definition level_filters_of (f : Filters) : list string :=
  match levels_of f with [] => [EmptyString] | l => l end.

Definition keywords_of (env : Env) (f : Filters) (job : JobContext) : list string :=
  firstn 8 (match final_keywords env f job with
            | [] => ["Analyst"; "Associate"; "Research Analyst"]
            | l => l
            end).

(** [[lvl for lvl in levels if lvl]] *)
Definition target_levels_of (f : Filters) : list string :=
  filter (fun l => negb (String.eqb l EmptyString)) (levels_of f).

(** Loop state: [gathered_count], [company_candidates], [seen_people],
    [query_count]. *)
Record LoopState := mkLoopState {
  gathered_count : Z;
  company_candidates : list Row;
  seen_people : list string;
  query_count : Z
}.

Section Orchestrator.
Variable env : Env.
Variable job : JobContext.
Variable filters : Filters.
Variable serpapi_key : string.

Let keywords := keywords_of env filters job.
Let selected_schools := schools_of filters.
Let gather_limit := max_per_company_of filters * 6.

(** The body of the innermost loop for one search result: [None] when the
    result is skipped by a [continue] before the [seen_people] test,
    otherwise the row and its [unique_key]. *)
Definition process_result (raw_company base_company keyword level_filter q city : string)
    (result : RawResult) : option (Row * string) :=
  let '(raw_name, role_company_text) := TitleParser.parse_title (r_title result) in
  let snippet := r_snippet result in
  let '(full_name_first, last) := clean_full_name env raw_name in
  let '(full_name, first) := full_name_first in
  let detected := detect_seniority_level env role_company_text in
  let '(cur, current_filter_reasons) :=
    looks_like_current_role_at_target env role_company_text raw_company snippet in
  let '(is_current, parsed_current_company) := cur in
  if negb is_current then None else
  let '(seniority_ok, seniority_reason) :=
    seniority_match_for_mode env detected (target_levels_of filters) role_company_text in
  if negb seniority_ok then None else
  let title_plus_context := strip (role_company_text ++ " " ++ snippet) in
  let '(best_hit, best_score) := best_keyword_match env keywords title_plus_context in
  let effective_keyword_hit := if (20 <=? best_score) then best_hit else Some keyword in
  let domain := resolve_domain env raw_company base_company role_company_text (r_title result) in
  let email := generate_email first last domain in
  let actual_city :=
    let c := extract_city env snippet in if String.eqb c EmptyString then city else c in
  let matched_school :=
    match selected_schools with
    | [] => None
    | _ =>
      let blob_norm := normalize_lookup_text env (role_company_text ++ " " ++ snippet) in
      find (fun school =>
              let school_norm := normalize_lookup_text env school in
              negb (String.eqb school_norm EmptyString) && contains school_norm blob_norm)
           selected_schools
    end in
  let result_company :=
    if negb (String.eqb parsed_current_company EmptyString) then parsed_current_company
    else if negb (String.eqb (strip raw_company) EmptyString) then strip raw_company
    else base_company in
  let '(fit, fit_reasons) :=
    compute_fit_score env
      (mkFitInput job
         (if String.eqb (job_company job) EmptyString then raw_company else job_company job)
         result_company role_company_text actual_city detected (target_levels_of filters)
         effective_keyword_hit None 0 matched_school (Some email) true) in
  let unique_key :=
    if negb (String.eqb email "N/A") then lower email
    else lower (first ++ "|" ++ last ++ "|" ++ raw_company ++ "|" ++ r_url result) in
  let display_company :=
    format_display_company env parsed_current_company (strip raw_company) base_company in
  Some (mkRow full_name first last role_company_text display_company actual_city
              (opt_str matched_school) (r_url result) email keyword fit fit_reasons q detected,
        unique_key).

(** [for result in google_search(...)]: the [break] on the gather limit, then
    the [seen_people] test. *)
Fixpoint run_results (raw_company base_company keyword level_filter q city : string)
    (results : list RawResult) (st : LoopState) : LoopState :=
  match results with
  | [] => st
  | result :: results' =>
      if gather_limit <=? gathered_count st then st
      else
        match process_result raw_company base_company keyword level_filter q city result with
        | None => run_results raw_company base_company keyword level_filter q city results' st
        | Some (row, unique_key) =>
            if mem unique_key (seen_people st)
            then run_results raw_company base_company keyword level_filter q city results' st
            else run_results raw_company base_company keyword level_filter q city results'
                   (mkLoopState (gathered_count st + 1)
                      (company_candidates st ++ [row])%list
                      (seen_people st ++ [unique_key])%list
                      (query_count st))
        end
  end.

Fixpoint run_levels (raw_company base_company city keyword : string)
    (level_filters : list string) (st : LoopState) : M LoopState :=
  match level_filters with
  | [] => ret st
  | level_filter :: rest =>
      if gather_limit <=? gathered_count st then ret st
      else
        let q := query_for env raw_company city keyword level_filter in
        let st := mkLoopState (gathered_count st) (company_candidates st)
                              (seen_people st) (query_count st + 1) in
        results <- google_search env q serpapi_key 8 ;;
        run_levels raw_company base_company city keyword rest
          (run_results raw_company base_company keyword level_filter q city results st)
  end.

Fixpoint run_keywords (raw_company base_company city : string) (kws : list string)
    (st : LoopState) : M LoopState :=
  match kws with
  | [] => ret st
  | keyword :: rest =>
      if gather_limit <=? gathered_count st then ret st
      else
        st' <- run_levels raw_company base_company city keyword (level_filters_of filters) st ;;
        run_keywords raw_company base_company city rest st'
  end.

Fixpoint run_cities (raw_company base_company : string) (cities : list string)
    (st : LoopState) : M LoopState :=
  match cities with
  | [] => ret st
  | city :: rest =>
      if gather_limit <=? gathered_count st then ret st
      else
        st' <- run_keywords raw_company base_company city keywords st ;;
        run_cities raw_company base_company rest st'
  end.

(** The loop over companies; [rows], [seen_people] and [query_count] are
    carried across companies, the gather counter and pool are reset. *)
Fixpoint run_companies (companies : list string) (rows : list Row)
    (seen : list string) (qc : Z) : M (list Row * Z) :=
  match companies with
  | [] => ret (rows, qc)
  | raw_company :: rest =>
      let base_company := Company.normalize_company_name raw_company in
      st <- run_cities raw_company base_company (cities_of filters job)
              (mkLoopState 0 [] seen qc) ;;
      picked <- prioritize_company_rows (company_candidates st)
                  (target_levels_of filters) (max_per_company_of filters) ;;
      run_companies rest (rows ++ picked)%list (seen_people st) (query_count st)
  end.

(** Key [(seniority_priority_key(level), -fit_score, company, full_name)]. *)
Definition final_order (a b : Row) : bool :=
  let ka := seniority_priority_key (detected_level a) in
  let kb := seniority_priority_key (detected_level b) in
  (ka <? kb) || ((ka =? kb) &&
    ((fit_score b <? fit_score a) || ((fit_score a =? fit_score b) &&
      (String.ltb (company a) (company b) ||
       (String.eqb (company a) (company b) && String.leb (full_name a) (full_name b)))))).

Record ContactGenResult := mkContactGenResult { rows : list Row; result_query_count : Z }.

Definition generate_contacts : M ContactGenResult :=
  res <- run_companies (companies_of filters job) [] [] 0 ;;
  let '(rows, qc) := res in
  ret (mkContactGenResult (sort_by final_order rows) qc).

End Orchestrator.

End Engine.

(* ------------------------------------------------------------------ *)
(** ** Regular-expression searches of the form [\b(w1|w2|...)\b]

    On ASCII text, [\w] is [[A-Za-z0-9_]] and [\b] holds between a word
    character and a non-word character (the ends of the text count as
    non-word).  A search for an alternation of literals succeeds exactly
    when one alternative occurs at some position with the required
    boundaries. *)

Module Regex.

Definition is_word_char (c : ascii) : bool :=
  let n := nat_of_ascii c in
  ((48 <=? n) && (n <=? 57))%nat || ((65 <=? n) && (n <=? 90))%nat
  || ((97 <=? n) && (n <=? 122))%nat || (n =? 95)%nat.

Definition word_opt (o : option ascii) : bool :=
  match o with Some c => is_word_char c | None => false end.

(** [\b] between the characters [a] and [b] ([None] for an end). *)
Definition boundary (a b : option ascii) : bool := xorb (word_opt a) (word_opt b).

Definition last_char (s : string) : option ascii := String.get (String.length s - 1) s.

(** One alternative: a literal preceded by [\b], followed by [\b] when the
    flag is set. *)
Definition alt_at (prev : option ascii) (t : string) (a : string * bool) : bool :=
  let '(w, trail) := a in
  prefix w t && boundary prev (String.get 0 t)
  && (negb trail || boundary (last_char w) (String.get (String.length w) t)).

Fixpoint search_from (alts : list (string * bool)) (prev : option ascii) (t : string) : bool :=
  existsb (alt_at prev t) alts
  || match t with
     | EmptyString => false
     | String c t' => search_from alts (Some c) t'
     end.

(** [bool(re.search(pattern, t))] *)
Definition re_search (alts : list (string * bool)) (t : string) : bool := search_from alts None t.

(** [\b(w1|...|wn)\b] *)
Definition words (ws : list string) : list (string * bool) := map (fun w => (w, true)) ws.

End Regex.

(* ------------------------------------------------------------------ *)
(** ** Seniority detection from title text *)

Module SeniorityText.

Import Regex Seniority.

Local Open Scope Z_scope.

Definition detect_seniority_level (title : string) : string :=
  let t := lower title in
  if re_search (words ["managing director"; "md"]) t then "Managing Director"
  else if re_search (words ["executive director"]) t then "Executive Director"
  else if re_search (words ["vice president"; "vp"]) t then "VP"
  else if re_search (words ["principal"]) t then "Director"
  else if re_search (words ["director"]) t then "Director"
  else if re_search (words ["associate"]) t then "Associate"
  else if re_search (words ["analyst"]) t then "Analyst"
  else "Unknown".

Definition title_has_intern_or_nonfulltime_markers (title : string) : bool :=
  re_search (words ["intern"; "internship"; "summer analyst"; "summer associate"; "incoming";
                    "off-cycle"; "off cycle"]) (lower title).

(** [prev(?:ious)?] and [ex[- ]] expanded into their literals. *)
Definition title_has_former_markers (title : string) : bool :=
  re_search (words ["former"; "previously"; "prev"; "previous"; "ex-"; "ex "; "past"]) (lower title).

Definition SENIORITY_LABEL_REGEX (level : string) : option (list (string * bool)) :=
  if String.eqb level "Analyst" then Some (words ["analyst"])
  else if String.eqb level "Associate" then Some (words ["associate"])
  else if String.eqb level "VP" then Some (words ["vice president"; "vp"])
  else if String.eqb level "Director" then Some (words ["director"; "principal"])
  else if String.eqb level "Executive Director" then Some (words ["executive director"])
  else if String.eqb level "Managing Director" then Some (words ["managing director"; "md"])
  else None.

Definition title_mentions_selected_seniority (title : string) (target_levels : list string) : bool :=
  let text := lower title in
  if String.eqb text EmptyString then false
  else existsb (fun level => match SENIORITY_LABEL_REGEX level with
                             | Some p => re_search p text
                             | None => false
                             end)
               (ordered_selected_seniority_levels target_levels).

Definition seniority_match_for_mode (detected_level : string) (target_levels : list string)
    (title_text precision_mode : string) : bool * string :=
  let targets := filter TitleParser.nonempty target_levels in
  match targets with
  | [] => (true, "No seniority filter provided.")
  | _ =>
    if String.eqb detected_level EmptyString || String.eqb detected_level "Unknown" then
      let title_l := lower title_text in
      if re_search (words ["managing director"; "executive director"; "vice president"; "vp";
                           "director"; "principal"; "partner"; "head"]) title_l
      then (false, "Title text indicates higher seniority than selected levels.")
      else if title_mentions_selected_seniority title_text targets
      then (true, "Title text includes selected seniority markers.")
      else if String.eqb precision_mode "strict"
      then (false, "Could not confidently detect seniority from title.")
      else (false, "Could not verify seniority level from title.")
    else if mem detected_level targets
    then (true, "Detected level " ++ detected_level ++ " matches selected seniority.")
    else if forallb (fun t => mem t ["Analyst"; "Associate"]) targets
    then (false, "Detected level " ++ detected_level ++ " is outside selected seniority ("
                 ++ join ", " targets ++ ").")
    else if String.eqb precision_mode "search" && String.eqb detected_level "Unknown"
    then (true, "Unknown detected level allowed in search mode.")
    else (false, "Detected level " ++ detected_level ++ " is outside selected seniority ("
                 ++ join ", " targets ++ ").")
  end.

(** [SENIORITY_QUERY_NEGATIVES_BY_LEVEL.get(level, [])] *)
Definition SENIORITY_QUERY_NEGATIVES_BY_LEVEL (level : string) : list string :=
  if String.eqb level "Associate" then [dq ++ "Associate" ++ dq]
  else if String.eqb level "VP" then [dq ++ "Vice President" ++ dq; "VP"]
  else if String.eqb level "Director" then [dq ++ "Director" ++ dq; dq ++ "Principal" ++ dq]
  else if String.eqb level "Executive Director" then [dq ++ "Executive Director" ++ dq; "ED"]
  else if String.eqb level "Managing Director" then [dq ++ "Managing Director" ++ dq; "MD"]
  else [].

(** [SENIORITY_ORDER_INDEX.get(level, -1)] *)
Definition order_index (level : string) : Z :=
  match index_of level SENIORITY_UI_ORDER 0 with Some i => i | None => -1 end.

(** Order-preserving de-duplication with a [seen] set. *)
Fixpoint unique_first (seen : list string) (l : list string) : list string :=
  match l with
  | [] => []
  | x :: l' => if mem x seen then unique_first seen l' else x :: unique_first (seen ++ [x]) l'
  end.

(** The de-duplicated [negatives] of [build_seniority_exclusion_query], or
    [None] where the function returns early with the empty string.  The
    maximum of the indices (each at least [-1]) is folded from [-1]. *)
Definition exclusion_terms (target_levels : list string) : option (list string) :=
  let levels := ordered_selected_seniority_levels (filter TitleParser.nonempty target_levels) in
  match levels with
  | [] => None
  | _ =>
    let highest_selected_idx := fold_right Z.max (-1) (map order_index levels) in
    if highest_selected_idx <? 0 then None
    else
      let negatives :=
        flat_map SENIORITY_QUERY_NEGATIVES_BY_LEVEL
                 (skipn (Z.to_nat (highest_selected_idx + 1)) SENIORITY_UI_ORDER) in
      let negatives :=
        if existsb (fun level => mem level ["Director"; "Executive Director"; "Managing Director"])
                   levels
        then negatives else app negatives [dq ++ "Principal" ++ dq] in
      Some (unique_first [] negatives)
  end.

Definition build_seniority_exclusion_query (target_levels : list string) : string :=
  match exclusion_terms target_levels with
  | None | Some [] => EmptyString
  | Some negatives => " " ++ join " " (map (fun term => "-" ++ term) negatives)
  end.

End SeniorityText.

(* ------------------------------------------------------------------ *)
(** ** Text normalisation, keyword scoring and company matching

    [normalize_lookup_text] and the set-valued helpers built on it.  Python
    sets are modelled as duplicate-free lists ([Engine.dedup]); [len(a & b)]
    is [Engine.inter_size]. *)

Module Matching.

Import Seniority.

Local Open Scope Z_scope.

(** [[a-z0-9]] *)
Definition is_lower_alnum (c : ascii) : bool :=
  let n := nat_of_ascii c in
  ((97 <=? n) && (n <=? 122))%nat || ((48 <=? n) && (n <=? 57))%nat.

(** [re.sub(r"[^a-z0-9\s]", " ", s)] *)
Fixpoint sub_non_alnum (s : string) : string :=
  match s with
  | EmptyString => EmptyString
  | String c s' =>
      String (if is_lower_alnum c || is_space c then c else " "%char) (sub_non_alnum s')
  end.

(** [re.sub(r"\s+", " ", s)]; [in_run] holds inside a run of whitespace
    already replaced. *)
Fixpoint collapse_ws (in_run : bool) (s : string) : string :=
  match s with
  | EmptyString => EmptyString
  | String c s' =>
      if is_space c then
        if in_run then collapse_ws true s' else String " "%char (collapse_ws true s')
      else String c (collapse_ws false s')
  end.

(** [s.split()]: the maximal runs of non-whitespace characters. *)
Fixpoint split_ws_aux (cur s : string) : list string :=
  match s with
  | EmptyString => if String.eqb cur EmptyString then [] else [cur]
  | String c s' =>
      if is_space c then
        if String.eqb cur EmptyString then split_ws_aux EmptyString s'
        else cur :: split_ws_aux EmptyString s'
      else split_ws_aux (cur ++ String c EmptyString) s'
  end.

Definition split_ws (s : string) : list string := split_ws_aux EmptyString s.

Definition normalize_lookup_text (value : string) : string :=
  let normalized := lower (strip value) in
  let normalized := replace "fixing income" "fixed income" normalized in
  let normalized := replace "m&a" " ma " normalized in
  let normalized := replace "m & a" " ma " normalized in
  let normalized := replace "mergers & acquisitions" " mergers acquisitions ma " normalized in
  let normalized := replace "mergers and acquisitions" " mergers acquisitions ma " normalized in
  let normalized := replace "investment banking division" " investment banking ibd " normalized in
  let normalized := replace "investment banking" " investment banking ibd " normalized in
  let normalized := replace "&" " and " normalized in
  let normalized := sub_non_alnum normalized in
  strip (collapse_ws false normalized).

Definition GENERIC_COMPANY_TOKENS : list string :=
  ["and"; "co"; "company"; "companies"; "inc"; "incorporated"; "corp"; "corporation"; "llc";
   "ltd"; "limited"; "lp"; "llp"; "plc"; "group"; "holdings"; "global"; "international";
   "financial"; "securities"; "capital"; "management"; "asset"; "assets"; "investments";
   "investment"; "banking"; "partners"; "partner"; "advisors"; "advisor"; "associates"; "bank"].

Definition GENERIC_ROLE_TOKENS : list string :=
  ["and"; "the"; "of"; "for"; "with"; "at"; "in"; "to"; "a"; "an"; "team"; "role"; "group";
   "analyst"; "associate"; "vice"; "president"; "director"; "managing"; "executive"; "senior";
   "junior"].

Definition GROUP_MATCH_STOPWORDS : list string :=
  GENERIC_ROLE_TOKENS ++
  ["investment"; "banking"; "global"; "markets"; "capital"; "finance"; "financial"; "services";
   "coverage"; "division"; "industry"; "sector"; "group"; "team"; "institutional"].

Definition meaningful_company_tokens (value : string) : list string :=
  Engine.dedup (filter (fun t => negb (mem t GENERIC_COMPANY_TOKENS) && (2 <=? String.length t)%nat)
                       (split_ws (normalize_lookup_text value))).

(** [token[0]] of a non-empty token *)
Definition first_char (t : string) : string := substring 0 1 t.

Definition company_acronym (value : string) : string :=
  let tokens := filter (fun t => (2 <=? String.length t)%nat) (split_ws (normalize_lookup_text value)) in
  let acronym := String.concat EmptyString (map first_char tokens) in
  match tokens with
  | [] => EmptyString
  | [t] => if (String.length t <=? 6)%nat then t else acronym
  | _ => acronym
  end.

(** [a <= b] on sets *)
Definition subset (a b : list string) : bool := forallb (fun t => mem t b) a.

Definition companies_likely_match (a b : string) : bool :=
  let a_norm := normalize_lookup_text a in
  let b_norm := normalize_lookup_text b in
  if String.eqb a_norm EmptyString || String.eqb b_norm EmptyString then false
  else if String.eqb a_norm b_norm then true
  else if TitleParser.nonempty (company_acronym a)
          && String.eqb (company_acronym a) (company_acronym b) then true
  else
    let a_all_tokens := Engine.dedup (split_ws a_norm) in
    let b_all_tokens := Engine.dedup (split_ws b_norm) in
    let a_tokens := meaningful_company_tokens a in
    let b_tokens := meaningful_company_tokens b in
    match a_tokens, b_tokens with
    | [], _ | _, [] => false
    | _, _ =>
      let overlap := Engine.inter_size a_tokens b_tokens in
      if overlap =? 0 then false
      else
        let la := List.length a_tokens in
        let lb := List.length b_tokens in
        let short_single_blocked :=
          if (Nat.min la lb =? 1)%nat then
            let single := match (if (la =? 1)%nat then a_tokens else b_tokens) with
                          | x :: _ => x
                          | [] => EmptyString
                          end in
            if (String.length single <=? 4)%nat && negb (String.eqb a_norm b_norm) then
              let extra_a := filter (fun t => negb (mem t b_all_tokens)
                                              && negb (mem t GENERIC_COMPANY_TOKENS)) a_all_tokens in
              let extra_b := filter (fun t => negb (mem t a_all_tokens)
                                              && negb (mem t GENERIC_COMPANY_TOKENS)) b_all_tokens in
              match extra_a, extra_b with
              | [], [] => false
              | _, _ => true
              end
            else false
          else false in
        if short_single_blocked then false
        else subset a_tokens b_tokens || subset b_tokens a_tokens
             || (Z.min (Z.of_nat la) (Z.of_nat lb) <=? overlap)
    end.

(** [keyword_phrase_match_score(keyword, title)]: score, overlap count and
    matched tokens. *)
Definition keyword_phrase_match_score (keyword title : string) : Z * Z * list string :=
  let kw_norm := normalize_lookup_text keyword in
  let title_norm := normalize_lookup_text title in
  if String.eqb kw_norm EmptyString || String.eqb title_norm EmptyString then (0, 0, [])
  else if contains kw_norm title_norm then
    let kw_tokens := Engine.dedup (filter (fun t => TitleParser.nonempty t
                                                    && negb (mem t GROUP_MATCH_STOPWORDS))
                                          (split_ws kw_norm)) in
    let n := Z.of_nat (List.length kw_tokens) in
    (100, (if n =? 0 then 1 else n), kw_tokens)
  else
    let kw_tokens := Engine.dedup (filter (fun t => TitleParser.nonempty t
                                                    && negb (mem t GROUP_MATCH_STOPWORDS)
                                                    && (3 <=? String.length t)%nat)
                                          (split_ws kw_norm)) in
    let title_tokens := Engine.dedup (split_ws title_norm) in
    let overlap := filter (fun t => mem t title_tokens) kw_tokens in
    match kw_tokens, overlap with
    | [], _ => (0, 0, [])
    | _, [] => (0, 0, [])
    | _, _ =>
      let k := Z.of_nat (List.length overlap) in
      (50 + Z.min 35 (k * 15), k, overlap)
    end.

Definition kw_score (kw title : string) : Z := fst (fst (keyword_phrase_match_score kw title)).
Definition kw_overlap (kw title : string) : Z := snd (fst (keyword_phrase_match_score kw title)).

(** One iteration of the loop of [best_keyword_match]. *)
Definition best_step (title : string) (st : option string * Z * Z) (kw : string)
    : option string * Z * Z :=
  let '(best_keyword, best_score, best_overlap) := st in
  let '(score, overlap_count, _) := keyword_phrase_match_score kw title in
  if (best_score <? score) || ((score =? best_score) && (best_overlap <? overlap_count))
  then (Some kw, score, overlap_count)
  else st.

Definition best_keyword_match (keywords : list string) (title : string) : option string * Z * Z :=
  fold_left (best_step title) keywords (None, 0, 0).

Definition custom_keyword_precision_match (custom_keywords : list string) (title precision_mode : string)
    : bool * option string * Z :=
  let custom_keywords := filter (fun k => TitleParser.nonempty (strip k)) custom_keywords in
  match custom_keywords with
  | [] => (true, None, 0)
  | _ =>
    let '(best_kw, best_score, overlap_count) := best_keyword_match custom_keywords title in
    match best_kw with
    | None => (false, None, 0)
    | Some bk =>
      if String.eqb bk EmptyString then (false, None, 0)
      else
        let specific_tokens :=
          Engine.dedup (filter (fun t => TitleParser.nonempty t && negb (mem t GROUP_MATCH_STOPWORDS)
                                         && (2 <=? String.length t)%nat)
                               (split_ws (normalize_lookup_text bk))) in
        let n := Z.of_nat (List.length specific_tokens) in
        if String.eqb precision_mode "search" then
          if 50 <=? best_score then (true, best_kw, best_score)
          else if (1 <=? overlap_count) && (20 <=? best_score) then (true, best_kw, best_score)
          else (false, best_kw, best_score)
        else if String.eqb precision_mode "balanced" then
          if 50 <=? best_score then (true, best_kw, best_score)
          else if (2 <=? n) && (1 <=? overlap_count) && (35 <=? best_score) then (true, best_kw, best_score)
          else if (n <=? 1) && (25 <=? best_score) then (true, best_kw, best_score)
          else (false, best_kw, best_score)
        else
          if 100 <=? best_score then (true, best_kw, best_score)
          else if (2 <=? n) && (2 <=? overlap_count) && (65 <=? best_score) then (true, best_kw, best_score)
          else if (n <=? 1) && (50 <=? best_score) then (true, best_kw, best_score)
          else (false, best_kw, best_score)
    end
  end.

(** [domains.COMPANY_DOMAINS], in insertion order. *)
Definition COMPANY_DOMAINS : list (string * string) :=
  [("goldman sachs", "gs.com"); ("blackrock", "blackrock.com");
   ("morgan stanley", "morganstanley.com"); ("jpmorgan", "jpmorgan.com");
   ("jp morgan", "jpmorgan.com"); ("j.p. morgan", "jpmorgan.com");
   ("bank of america", "bankofamerica.com"); ("citigroup", "citi.com"); ("citi", "citi.com");
   ("citadel", "citadel.com"); ("kkr", "kkr.com"); ("blackstone", "blackstone.com");
   ("carlyle", "carlyle.com"); ("apollo", "apollo.com"); ("bain capital", "baincapital.com");
   ("tpg", "tpg.com"); ("bridgewater", "bwater.com"); ("two sigma", "twosigma.com");
   ("renaissance technologies", "rentec.com"); ("de shaw", "deshaw.com");
   ("d.e. shaw", "deshaw.com"); ("point72", "point72.com"); ("millennium", "mlp.com");
   ("balyasny", "bamfunds.com"); ("alliance bernstein", "alliancebernstein.com");
   ("lazard", "lazard.com"); ("evercore", "evercore.com"); ("moelis", "moelis.com");
   ("piper sandler", "pipersandler.com"); ("houlihan lokey", "hl.com");
   ("jefferies", "jefferies.com"); ("raymond james", "raymondjames.com");
   ("wells fargo", "wellsfargo.com"); ("ubs", "ubs.com"); ("credit suisse", "credit-suisse.com");
   ("deutsche bank", "db.com"); ("barclays", "barclays.com"); ("hsbc", "hsbc.com");
   ("nomura", "nomura.com"); ("mizuho", "mizuhogroup.com"); ("macquarie", "macquarie.com");
   ("cowen", "cowen.com"); ("pimco", "pimco.com"); ("vanguard", "vanguard.com");
   ("fidelity", "fidelity.com"); ("t. rowe price", "troweprice.com");
   ("t rowe price", "troweprice.com"); ("wellington", "wellington.com");
   ("neuberger berman", "nb.com"); ("nuveen", "nuveen.com"); ("invesco", "invesco.com");
   ("franklin templeton", "franklintempleton.com"); ("legg mason", "leggmason.com");
   ("harris associates", "harrisassoc.com"); ("advent international", "adventinternational.com");
   ("warburg pincus", "warburgpincus.com"); ("general atlantic", "ga.com");
   ("hellman friedman", "hf.com"); ("silver lake", "silverlake.com");
   ("vista equity", "vistaequitypartners.com"); ("insight partners", "insightpartners.com");
   ("tiger global", "tigerglobal.com"); ("coatue", "coatue.com")].

(** The score [lookup_domain] gives one key that is not an exact match. *)
Definition domain_key_score (company_norm : string) (company_tokens : list string) (key : string) : Z :=
  let key_norm := normalize_lookup_text key in
  let key_tokens := meaningful_company_tokens key in
  let score := 0 in
  let score :=
    if (4 <=? String.length company_norm)%nat && negb (mem company_norm GENERIC_COMPANY_TOKENS)
       && (contains key_norm company_norm || contains company_norm key_norm)
    then Z.max score (300 + Z.of_nat (Nat.min (String.length company_norm) (String.length key_norm)))
    else score in
  match company_tokens, key_tokens with
  | [], _ | _, [] => score
  | _, _ =>
    let overlap := Engine.inter_size company_tokens key_tokens in
    if overlap =? 0 then score
    else
      let subset_bonus := if subset company_tokens key_tokens || subset key_tokens company_tokens
                          then 20 else 0 in
      Z.max score (120 + overlap * 30 + subset_bonus)
  end.

(** The loop of [lookup_domain] over the dictionary: [inl domain] is an
    early [return domain] on an exact match, [inr (best_domain, best_score)]
    the state after the loop. *)
Fixpoint lookup_loop (company_norm : string) (company_tokens : list string)
    (entries : list (string * string)) (best : option string * Z) : option string + (option string * Z) :=
  match entries with
  | [] => inr best
  | (key, domain) :: rest =>
    let key_norm := normalize_lookup_text key in
    if String.eqb key_norm EmptyString then lookup_loop company_norm company_tokens rest best
    else if String.eqb company_norm key_norm then inl (Some domain)
    else
      let score := domain_key_score company_norm company_tokens key in
      let best := if snd best <? score then (Some domain, score) else best in
      lookup_loop company_norm company_tokens rest best
  end.

Definition lookup_domain (company_name : string) : option string :=
  let company_norm := normalize_lookup_text company_name in
  if String.eqb company_norm EmptyString then None
  else
    match lookup_loop company_norm (meaningful_company_tokens company_name) COMPANY_DOMAINS (None, 0) with
    | inl d => d
    | inr (best_match_domain, best_match_score) =>
        if 120 <=? best_match_score then best_match_domain else None
    end.

End Matching.

(* ------------------------------------------------------------------ *)
(** ** The remaining helpers of [contact_generation.py] and [title_parser.py]

    The helpers the engine reaches through [Env]: company extraction from
    the role text, domain resolution, the current-role check, name
    cleaning, title tokens, city extraction, display names and keyword
    expansion.  Texts are taken to be ASCII (a Rocq [string] as the UTF-8
    bytes of a Python [str]); Python's [\s] and [str.strip] then mean
    [PyStr.is_space], and a case-insensitive search is a search in the
    lower-cased text. *)

Module Collaborators.

Import Regex Seniority Engine.

Local Open Scope Z_scope.

Definition newline : ascii := ascii_of_nat 10.

(** [re.split(r"[...]", s)] with a one-character class [p]. *)
Fixpoint split_chars (p : ascii -> bool) (cur s : string) : list string :=
  match s with
  | EmptyString => [cur]
  | String c s' =>
      if p c then cur :: split_chars p EmptyString s'
      else split_chars p (cur ++ String c EmptyString) s'
  end.

Definition one_of (chars : string) (c : ascii) : bool :=
  existsb (Ascii.eqb c) (list_ascii_of_string chars).

(** [re.findall(r"[...]+", s)] for a one-character class [p]: the maximal
    runs of characters in [p]. *)
Fixpoint runs (p : ascii -> bool) (cur s : string) : list string :=
  match s with
  | EmptyString => if String.eqb cur EmptyString then [] else [cur]
  | String c s' =>
      if p c then runs p (cur ++ String c EmptyString) s'
      else if String.eqb cur EmptyString then runs p EmptyString s'
      else cur :: runs p EmptyString s'
  end.

(** [str.upper] on one ASCII character. *)
Definition upper_char (c : ascii) : ascii :=
  let n := nat_of_ascii c in
  if ((97 <=? n) && (n <=? 122))%nat then ascii_of_nat (n - 32) else c.

Fixpoint upper (s : string) : string :=
  match s with
  | EmptyString => EmptyString
  | String c s' => String (upper_char c) (upper s')
  end.

(** [re.sub(pattern, rep, s, flags=re.IGNORECASE)] for a pattern made of
    literal alternatives ([Regex.alt_at]); [skip] counts the characters of
    a match still to drop, [prev] is the character before [s]. *)
Fixpoint sub_alts (alts : list (string * bool)) (rep : string) (prev : option ascii)
    (skip : nat) (s : string) : string :=
  match s with
  | EmptyString => EmptyString
  | String c s' =>
      match skip with
      | S k => sub_alts alts rep (Some c) k s'
      | O =>
          match find (alt_at prev (lower s)) alts with
          | Some (w, _) => rep ++ sub_alts alts rep (Some c) (pred (String.length w)) s'
          | None => String c (sub_alts alts rep (Some c) O s')
          end
      end
  end.

(** *** [extract_company_from_role_text] *)

(** [r"\bat\s+(.+)$"] tried at the start of [t] ([prev] the character
    before): [Some group(1)].  [\s+] is greedy and [(.+)$] must reach the
    end without a newline; the text is stripped, so the group is what
    follows the whole run of whitespace. *)
Definition at_group_here (prev : option ascii) (t : string) : option string :=
  match t with
  | String a (String b (String c rest)) =>
      if Ascii.eqb (lower_char a) "a"%char && Ascii.eqb (lower_char b) "t"%char
         && boundary prev (Some a) && is_space c then
        let g := lstrip_by is_space rest in
        if TitleParser.nonempty g && TitleParser.no_char newline g then Some g else None
      else None
  | _ => None
  end.

(** [re.search(r"\bat\s+(.+)$", t, flags=re.IGNORECASE)]: the leftmost match. *)
Fixpoint at_search (prev : option ascii) (t : string) : option string :=
  match at_group_here prev t with
  | Some g => Some g
  | None =>
      match t with
      | EmptyString => None
      | String c t' => at_search (Some c) t'
      end
  end.

Definition ROLE_WORDS : list (string * bool) :=
  words ["analyst"; "associate"; "vice president"; "vp"; "director"; "managing director";
         "executive director"; "intern"; "researcher"; "trader"; "sales"].

Definition extract_company_from_role_text (role_text : string) : string :=
  let role := strip role_text in
  if String.eqb role EmptyString then EmptyString
  else
    let role :=
      match at_search None role with
      | Some g => strip g
      | None =>
          let hyphen_parts := map strip (filter (fun p => TitleParser.nonempty (strip p))
                                                (split " - " role)) in
          if (2 <=? List.length hyphen_parts)%nat then last hyphen_parts EmptyString else role
      end in
    let role := strip (hd EmptyString (split_chars (one_of "|(,;/") EmptyString role)) in
    if re_search ROLE_WORDS (lower role) then EmptyString else role.

(** *** [resolve_domain] *)

(** The first candidate whose [lookup_domain] is truthy. *)
Fixpoint first_domain (candidates : list string) : option string :=
  match candidates with
  | [] => None
  | c :: rest =>
      match Matching.lookup_domain c with
      | Some d => if TitleParser.nonempty d then Some d else first_domain rest
      | None => first_domain rest
      end
  end.

Definition resolve_domain (raw_company normalized_company parsed_title full_result_title : string)
    : option string :=
  first_domain [raw_company; normalized_company; extract_company_from_role_text parsed_title;
                full_result_title].

(** *** [looks_like_current_role_at_target] *)

(** [parsed_company or None] *)
Definition or_none (s : string) : option string :=
  if TitleParser.nonempty s then Some s else None.

Definition looks_like_current_role_at_target (role_company_text target_company snippet
    precision_mode : string) : bool * option string * list string :=
  let title := strip role_company_text in
  let parsed_company := extract_company_from_role_text title in
  let snippet_text := strip snippet in
  let title_has_at := contains " at " (lower title) in
  let title_company_match :=
    TitleParser.nonempty parsed_company
    && Matching.companies_likely_match parsed_company target_company in
  let loose_title_company_match :=
    if TitleParser.nonempty title then Matching.companies_likely_match title target_company
    else false in
  let snippet_company_match :=
    if TitleParser.nonempty snippet_text
    then Matching.companies_likely_match snippet_text target_company else false in
  let early : option (list string) :=
    if String.eqb precision_mode "strict" then
      if negb (TitleParser.nonempty title) || negb title_has_at
      then Some ["Missing explicit 'at Company' pattern in LinkedIn title."]
      else if negb title_company_match
      then Some ["Current role company does not match target company (" ++ target_company ++ ")."]
      else None
    else if String.eqb precision_mode "balanced" then
      if negb (TitleParser.nonempty title) then Some ["Missing LinkedIn role/company text."]
      else if negb (title_company_match || (title_has_at && loose_title_company_match))
      then Some ["Could not verify current role at target company (" ++ target_company ++ ")."]
      else None
    else
      if negb (TitleParser.nonempty title) then Some ["Missing LinkedIn role/company text."]
      else if negb (title_company_match || loose_title_company_match || snippet_company_match)
      then Some ["Could not verify company match for target (" ++ target_company ++ ")."]
      else None in
  match early with
  | Some reasons => (false, or_none parsed_company, reasons)
  | None =>
    let primary_segment := strip (hd EmptyString (split "|" title)) in
    if SeniorityText.title_has_former_markers primary_segment
    then (false, or_none parsed_company, ["LinkedIn title appears to describe a former role."])
    else if SeniorityText.title_has_intern_or_nonfulltime_markers primary_segment
    then (false, or_none parsed_company, ["LinkedIn title appears to be intern/non-full-time."])
    else
      let snippet_lower := lower snippet_text in
      let reasons :=
        if TitleParser.nonempty snippet_lower
           && re_search [("former", true); ("previously", true); ("ex-", false); ("ex ", false)]
                        snippet_lower
        then ["Google snippet includes prior-role markers (soft warning)."] else [] in
      let resolved_company :=
        if TitleParser.nonempty parsed_company
           && Matching.companies_likely_match parsed_company target_company
        then Some parsed_company
        else if loose_title_company_match || snippet_company_match then Some target_company
        else None in
      (true, resolved_company, reasons)
  end.

(** *** [clean_full_name] *)

(** [re.sub(r"\(.*?\)", "", s)]: [open] holds the text read since an
    unmatched [(]; a newline or the end of the text before a [)] leaves
    that [(] and everything up to there in place. *)
Fixpoint drop_parens (open : option string) (s : string) : string :=
  match s with
  | EmptyString => match open with Some buf => "(" ++ buf | None => EmptyString end
  | String c s' =>
      match open with
      | None =>
          if Ascii.eqb c "("%char then drop_parens (Some EmptyString) s'
          else String c (drop_parens None s')
      | Some buf =>
          if Ascii.eqb c ")"%char then drop_parens None s'
          else if Ascii.eqb c newline then "(" ++ buf ++ String c (drop_parens None s')
          else drop_parens (Some (buf ++ String c EmptyString)) s'
      end
  end.

Definition clean_full_name (raw_name : string) : string * string * string :=
  let full_name := strip raw_name in
  let name := drop_parens None full_name in
  let name := hd EmptyString (split "," name) in
  let name := replace "." EmptyString name in
  let name := strip (Matching.collapse_ws false name) in
  let parts := filter TitleParser.nonempty (split " " name) in
  match parts with
  | [] => (name, EmptyString, EmptyString)
  | [p] => (name, p, EmptyString)
  | p :: _ => (name, p, last parts EmptyString)
  end.

(** *** [text_tokens] *)

(** The set [text_tokens(value, min_len=min_len)] as a duplicate-free list. *)
Definition text_tokens (value : string) (min_len : nat) : list string :=
  dedup (filter (fun token => (min_len <=? String.length token)%nat
                              && negb (mem token Matching.GENERIC_ROLE_TOKENS))
                (runs Matching.is_lower_alnum EmptyString (lower value))).

(** *** [extract_city] *)

Definition is_upper (c : ascii) : bool :=
  let n := nat_of_ascii c in ((65 <=? n) && (n <=? 90))%nat.

(** [[a-zA-Z ]] *)
Definition is_city_char (c : ascii) : bool :=
  is_upper c || ((97 <=? nat_of_ascii c) && (nat_of_ascii c <=? 122))%nat || Ascii.eqb c " "%char.

(** The greedy [[a-zA-Z ]+] followed by the rest of a pattern
    ([suffix_ok]): the largest number [n >= 1] of class characters at the
    start of [t] after which [suffix_ok] holds; [t] is read at offset [n]. *)
Fixpoint last_fit (suffix_ok : string -> bool) (t : string) (n : nat) (acc : option nat)
    : option nat :=
  let acc := if (1 <=? n)%nat && suffix_ok t then Some n else acc in
  match t with
  | String c t' => if is_city_char c then last_fit suffix_ok t' (S n) acc else acc
  | EmptyString => acc
  end.

(** [([A-Z][a-zA-Z ]+)] then the rest of the pattern, at the start of [t]:
    the group. *)
Definition group_at (suffix_ok : string -> bool) (t : string) : option string :=
  match t with
  | String c t' =>
      if is_upper c then
        match last_fit suffix_ok t' 0 None with
        | Some n => Some (String c (substring 0 n t'))
        | None => None
        end
      else None
  | EmptyString => None
  end.

(** [re.search(lit + r"([A-Z][a-zA-Z ]+)" + suffix, s).group(1)]: the
    leftmost match. *)
Fixpoint search_group (lit : string) (suffix_ok : string -> bool) (s : string) : option string :=
  match (if prefix lit s
         then group_at suffix_ok (substring (String.length lit) (String.length s) s)
         else None) with
  | Some g => Some g
  | None =>
      match s with
      | EmptyString => None
      | String _ s' => search_group lit suffix_ok s'
      end
  end.

(** [, [A-Z]{2}] *)
Definition state_suffix (t : string) : bool :=
  match t with
  | String a (String b (String c (String d _))) =>
      Ascii.eqb a ","%char && Ascii.eqb b " "%char && is_upper c && is_upper d
  | _ => false
  end.

Definition extract_city (snippet : string) : string :=
  if String.eqb snippet EmptyString then EmptyString
  else
    match search_group EmptyString (prefix ", United States") snippet with
    | Some g => strip g
    | None =>
    match search_group "Greater " (prefix " Area") snippet with
    | Some g => strip g
    | None =>
    match search_group EmptyString (prefix " Area") snippet with
    | Some g => strip g
    | None =>
    match search_group EmptyString state_suffix snippet with
    | Some g => strip g
    | None => EmptyString
    end end end end.

(** *** [format_display_company] *)

(** The UTF-8 bytes of the horizontal ellipsis U+2026. *)
Definition ellipsis : string :=
  String (ascii_of_nat 226) (String (ascii_of_nat 128) (String (ascii_of_nat 166) EmptyString)).

(** [None] arguments are empty strings. *)
Definition format_display_company (parsed raw base : string) : string :=
  let clean c := strip (replace ellipsis EmptyString (replace "..." EmptyString c)) in
  if TitleParser.nonempty parsed && TitleParser.nonempty (clean parsed) then clean parsed
  else if TitleParser.nonempty raw && TitleParser.nonempty (clean raw) then clean raw
  else if TitleParser.nonempty base && TitleParser.nonempty (clean base) then clean base
  else strip (if TitleParser.nonempty raw then raw else base).

(** *** [canonicalize_search_keyword] *)

(** [r"\bfixing\s+income\b"] (case-insensitive) at the start of [s]: the
    length of the match.  [\s+] takes the whole run of whitespace, since
    [income] does not start with whitespace. *)
Definition fixing_match (prev : option ascii) (s : string) : option nat :=
  if prefix "fixing" (lower s) && boundary prev (String.get 0 s) then
    let rest := substring 6 (String.length s) s in
    let after := lstrip_by is_space rest in
    let w := (String.length rest - String.length after)%nat in
    if (1 <=? w)%nat && prefix "income" (lower after)
       && boundary (String.get 5 after) (String.get 6 after)
    then Some (6 + w + 6)%nat else None
  else None.

Fixpoint sub_fixing (prev : option ascii) (skip : nat) (s : string) : string :=
  match s with
  | EmptyString => EmptyString
  | String c s' =>
      match skip with
      | S k => sub_fixing (Some c) k s'
      | O =>
          match fixing_match prev s with
          | Some n => "fixed income" ++ sub_fixing (Some c) (pred n) s'
          | None => String c (sub_fixing (Some c) O s')
          end
      end
  end.

Definition canonicalize_search_keyword (keyword : string) : string :=
  let value := strip keyword in
  if String.eqb value EmptyString then value else sub_fixing None O value.

(** *** [keyword_variants] and [final_keywords] *)

Definition GENERIC_KEYWORD_VARIANTS : list string :=
  ["analyst"; "associate"; "vice president"; "vp"; "director"; "executive director";
   "managing director"; "md"].

Definition SHORT_DESK_TOKENS : list string := ["fx"; "fi"; "dcm"; "ecm"; "fig"; "tmt"; "ma"; "mna"].

Definition LEVEL_WORDS : list (string * bool) :=
  words ["analyst"; "associate"; "vice president"; "vp"; "director"; "executive director";
         "managing director"; "md"].

(** The final de-duplication of [keyword_variants]; [seen] holds the
    lower-cased variants kept so far. *)
Fixpoint dedup_variants (seen : list string) (out : list string) : list string :=
  match out with
  | [] => []
  | item :: rest =>
      let v := strip item in
      if String.eqb v EmptyString then dedup_variants seen rest
      else if mem (Matching.normalize_lookup_text v)
                  (map Matching.normalize_lookup_text GENERIC_KEYWORD_VARIANTS)
      then dedup_variants seen rest
      else if mem (lower v) seen then dedup_variants seen rest
      else v :: dedup_variants (lower v :: seen) rest
  end.

(** [[p.strip() for p in re.split(r"[...]", raw) if p.strip()]] *)
Definition stripped_parts (p : ascii -> bool) (raw : string) : list string :=
  map strip (filter (fun x => TitleParser.nonempty (strip x)) (split_chars p EmptyString raw)).

Definition keyword_variants (value : string) : list string :=
  let raw := strip value in
  if String.eqb raw EmptyString then []
  else
    let out := [canonicalize_search_keyword raw] in
    let parts := stripped_parts (one_of ";,") raw in
    let out := app out (map canonicalize_search_keyword parts) in
    let slash_parts := stripped_parts (one_of "/") raw in
    let out := app out (map canonicalize_search_keyword slash_parts) in
    let no_level := sub_alts LEVEL_WORDS " " None O raw in
    let no_level := strip_by (one_of " ,-/") (Matching.collapse_ws false no_level) in
    let out :=
      if TitleParser.nonempty no_level && negb (String.eqb (lower no_level) (lower raw))
      then app out [canonicalize_search_keyword no_level] else out in
    let out :=
      app out
        (map canonicalize_search_keyword
           (filter (fun t => negb ((String.length t <? 3)%nat && negb (mem (lower t) SHORT_DESK_TOKENS))
                             && negb (mem (lower t) ["analyst"; "associate"; "vp"; "director"]))
                   (map strip (split_chars (one_of "/,-") EmptyString raw)))) in
    let out :=
      app out
        (map (fun tok => if String.eqb tok "ma" then "M&A" else upper tok)
             (filter (fun tok => mem tok SHORT_DESK_TOKENS)
                     (Matching.split_ws (Matching.normalize_lookup_text raw)))) in
    dedup_variants [] out.

(** The merge loop of [final_keywords]: each item's variants, skipping the
    lower-cased variants already [seen]. *)
Fixpoint merge_variants (seen : list string) (items : list string) : list string :=
  match items with
  | [] => []
  | item :: rest =>
      let value := strip item in
      if String.eqb value EmptyString then merge_variants seen rest
      else
        let fix add (seen : list string) (vs : list string) : list string * list string :=
          match vs with
          | [] => ([], seen)
          | v :: vs' =>
              if mem (lower v) seen then add seen vs'
              else let '(kept, seen') := add (lower v :: seen) vs' in (v :: kept, seen')
          end in
        let '(kept, seen') := add seen (keyword_variants value) in
        app kept (merge_variants seen' rest)
  end.

(** The sort key's first component, negated. *)
Definition specific_token_count (v : string) : nat :=
  List.length (filter (fun t => negb (mem t Matching.GROUP_MATCH_STOPWORDS))
                      (Matching.split_ws (Matching.normalize_lookup_text v))).

(** Key [(-count, -len(v))] of [a] at most that of [b]. *)
Definition keyword_key_le (a b : string) : bool :=
  (specific_token_count b <? specific_token_count a)%nat
  || ((specific_token_count a =? specific_token_count b)%nat
      && (String.length b <=? String.length a)%nat).

(** [filters.get(key) or []] *)
Definition list_or_empty (o : option (list string)) : list string :=
  match o with Some l => l | None => [] end.

Definition final_keywords (filters : Filters) (job_context : JobContext) : list string :=
  let combined := app (list_or_empty (f_custom_keywords filters))
                      (app (list_or_empty (f_front_office_keywords filters))
                           (list_or_empty (f_hr_keywords filters))) in
  let combined := match combined with
                  | [] => extracted_keywords job_context
                  | _ => combined
                  end in
  sort_by keyword_key_le (merge_variants [] combined).

(** *** The engine's helpers as the source defines them *)

(** [Env] with the helpers of the source, the current-role check and the
    seniority check in the ["search"] mode [generate_contacts] uses, and a
    given HTTP transport of the search API. *)
Definition source_env (http_get : string -> string -> Z -> Response) : Env :=
  mkEnv Matching.companies_likely_match
        text_tokens
        SeniorityText.title_has_intern_or_nonfulltime_markers
        clean_full_name
        SeniorityText.detect_seniority_level
        (fun role target snippet =>
           let '(ok, company, reasons) :=
             looks_like_current_role_at_target role target snippet "search" in
           (ok, opt_str company, reasons))
        (fun detected targets title =>
           SeniorityText.seniority_match_for_mode detected targets title "search")
        (fun keywords title =>
           let '(hit, score, _) := Matching.best_keyword_match keywords title in (hit, score))
        resolve_domain
        extract_city
        Matching.normalize_lookup_text
        format_display_company
        canonicalize_search_keyword
        final_keywords
        http_get.

End Collaborators.

(* ------------------------------------------------------------------ *)
(** ** A concrete run

    The engine with the source's helpers and a search API that returns
    the same LinkedIn profile, without snippet, for every query.  The
    company is in no entry of the domain directory, so no email is
    predicted. *)

Module Scenario.

Import Engine Collaborators.

(** A rejected key gets HTTP 401, any other key the one profile. *)
Definition demo_http_get (q api_key : string) (num : Z) : Response :=
  if String.eqb api_key "rejected-key" then mkResponse 401 []
  else mkResponse 200
         [mkItem "https://www.linkedin.com/in/pat-kim"
                 "Pat Kim - Analyst at Zorblax | LinkedIn" EmptyString].

Definition demo_env : Env := source_env demo_http_get.

Definition demo_job : JobContext :=
  mkJobContext "Analyst" "Zorblax" "New York" EmptyString [].

(** Two spellings of the target company, one city, the Analyst level, two
    rows per company. *)
Definition demo_filters : Filters :=
  mkFilters (Some ["Zorblax"; "Zorblax Inc"]) (Some ["New York, NY"]) None
            (Some ["Analyst"]) None (Some 2%Z) None None.

(** One company and no seniority level selected. *)
Definition demo_filters_no_levels : Filters :=
  mkFilters (Some ["Zorblax"]) (Some ["New York, NY"]) None None None (Some 2%Z) None None.

(** The result of the run with [demo_filters]. *)
Definition demo_result : ContactGenResult :=
  match generate_contacts demo_env demo_job demo_filters "demo-key" return ContactGenResult with
  | inr res => res
  | inl _ => mkContactGenResult [] 0
  end.

(** The result of the run with [demo_filters_no_levels]. *)
Definition demo_result_no_levels : ContactGenResult :=
  match generate_contacts demo_env demo_job demo_filters_no_levels "demo-key" return ContactGenResult with
  | inr res => res
  | inl _ => mkContactGenResult [] 0
  end.

End Scenario.

(* ------------------------------------------------------------------ *)
(** ** The [POST /api/contacts/generate] route

    Models [backend/app/routers/contacts.py], [generate]: the payload's
    comma-separated fields become the engine's filters and job context, the
    engine runs, and the rows are filtered against previously sent emails
    and cut to [target_count].  The database reads and writes are left out:
    [sent_emails] is the set of emails of the user's sent drafts, and the
    result is the list of rows saved as contacts. *)

Module Router.

Import Rows Engine Seniority.

Local Open Scope Z_scope.

(** [GenerateContactsPayload], without the [regenerate] flag that only
    reaches the database. *)
Record Payload := mkPayload {
  p_campaign_id : option Z;
  p_name : string;
  p_company_list : string;
  p_title_keywords : string;
  p_location_list : string;
  p_target_schools : string;
  p_seniority_levels : string;
  p_target_count : Z;
  p_avoid_duplicates : bool
}.

(** [[c.strip() for c in s.split(",") if c.strip()]] *)
Definition split_csv (s : string) : list string :=
  map strip (filter (fun c => TitleParser.nonempty (strip c)) (split "," s)).

Definition router_levels (p : Payload) : list string :=
  match split_csv (p_seniority_levels p) with
  | [] => ["Analyst"; "Associate"]
  | l => l
  end.

(** [max(1, payload.target_count // n_companies)]; [//] is floor division,
    as [Z.div]. *)
Definition router_max_per_company (p : Payload) : Z :=
  let n_companies := Z.max 1 (Z.of_nat (List.length (split_csv (p_company_list p)))) in
  Z.max 1 (p_target_count p / n_companies).

(** The [filters] dict, with empty front-office and HR keyword lists. *)
Definition router_filters (p : Payload) : Filters :=
  mkFilters (Some (split_csv (p_company_list p)))
            (Some (split_csv (p_location_list p)))
            (Some (split_csv (p_target_schools p)))
            (Some (router_levels p))
            (Some (split_csv (p_title_keywords p)))
            (Some (router_max_per_company p + 2))
            (Some []) (Some []).

Definition router_job (p : Payload) : JobContext :=
  mkJobContext (p_name p)
               (match split_csv (p_company_list p) with c :: _ => c | [] => EmptyString end)
               (match split_csv (p_location_list p) with c :: _ => c | [] => "New York" end)
               EmptyString
               (split_csv (p_title_keywords p)).

(** [l[:t]] *)
Definition py_slice_to {A : Type} (l : list A) (t : Z) : list A :=
  if 0 <=? t then firstn (Z.to_nat t) l
  else firstn (List.length l - Z.to_nat (- t)) l.

(** [_require_user(request)]: the session's [user_id] ([None] when the key
    is absent); [if not user_id] also rejects the id 0. *)
Definition require_user (session_user_id : option Z) : M Z :=
  match session_user_id with
  | Some user_id => if user_id =? 0 then inl (HTTPException 401 "Not authenticated")
                    else ret user_id
  | None => inl (HTTPException 401 "Not authenticated")
  end.

(** [if payload.campaign_id:]: a non-zero id must name a campaign of the
    user, [campaigns] being the [(id, user_id)] pairs of the [Campaign]
    table; otherwise a new campaign is created.  The database writes and
    commits of the route are not modelled: they are taken to succeed. *)
Definition check_campaign (campaigns : list (Z * Z)) (user_id : Z) (p : Payload) : M unit :=
  match p_campaign_id p with
  | Some cid =>
      if cid =? 0 then ret tt
      else if existsb (fun c => (fst c =? cid) && (snd c =? user_id)) campaigns then ret tt
      else inl (HTTPException 404 "Campaign not found")
  | None => ret tt
  end.

(** The rows saved by [generate]; [sent_emails] are the emails of the
    user's sent drafts.  An exception of [generate_contacts] is not caught
    by the route. *)
Definition router_generate (env : Env) (serpapi_key : string)
    (session_user_id : option Z) (campaigns : list (Z * Z)) (p : Payload)
    (sent_emails : list string) : M (list Row) :=
  user_id <- require_user session_user_id ;;
  _ <- check_campaign campaigns user_id p ;;
  result <- generate_contacts env (router_job p) (router_filters p) serpapi_key ;;
  let raw_contacts := rows result in
  let raw_contacts :=
    if p_avoid_duplicates p
    then filter (fun c => negb (mem (email c) sent_emails)) raw_contacts
    else raw_contacts in
  ret (py_slice_to raw_contacts (p_target_count p)).

End Router.

(* ------------------------------------------------------------------ *)
(** ** Character classes used to state properties of cleaned strings *)

Module CharClass.

(** Every character of [s] satisfies [p]. *)
Fixpoint all_chars (p : ascii -> bool) (s : string) : bool :=
  match s with
  | EmptyString => true
  | String c s' => p c && all_chars p s'
  end.

(** A lower-case ASCII letter, a digit or a hyphen. *)
Definition email_out_char (c : ascii) : bool :=
  let n := nat_of_ascii c in
  ((97 <=? n) && (n <=? 122))%nat || ((48 <=? n) && (n <=? 57))%nat || (n =? 45)%nat.

End CharClass.

(* ================================================================== *)
(** * Properties *)

Module StrFacts.

Lemma slen_app (a b : string) : String.length (a ++ b) = (String.length a + String.length b)%nat.
Proof. induction a as [|c a IH]; simpl; auto. Qed.

Lemma str_app_assoc (a b c : string) : (a ++ b) ++ c = a ++ (b ++ c).
Proof. induction a as [|x a IH]; simpl; congruence. Qed.

Lemma str_app_nil_r (a : string) : a ++ EmptyString = a.
Proof. induction a as [|x a IH]; simpl; congruence. Qed.

Lemma nonempty_len (s : string) : s <> EmptyString -> (1 <= String.length s)%nat.
Proof. destruct s; simpl; [congruence | lia]. Qed.

End StrFacts.

Import StrFacts.

Module EmailProofs.

Import Email.

Lemma address_not_na (a b d : string) :
  a <> EmptyString -> b <> EmptyString -> a ++ "." ++ b ++ "@" ++ d <> "N/A".
Proof.
  intros Ha Hb Heq.
  apply (f_equal String.length) in Heq.
  rewrite !slen_app in Heq. simpl in Heq.
  apply nonempty_len in Ha. apply nonempty_len in Hb. lia.
Qed.

(** C10: [generate_email] returns "N/A" exactly when the domain is missing
    (absent or empty) or one of the cleaned name parts is empty; otherwise it
    returns [first_clean.last_clean@domain] with the domain lower-cased. *)
Theorem generate_email_na_exactly (first last : string) (domain : option string) :
  (generate_email first last domain = "N/A" <->
     domain_missing domain = true
     \/ clean_email_part first = EmptyString
     \/ clean_email_part last = EmptyString)
  /\ (forall d, domain = Some d -> d <> EmptyString ->
        clean_email_part first <> EmptyString -> clean_email_part last <> EmptyString ->
        generate_email first last domain
        = clean_email_part first ++ "." ++ clean_email_part last ++ "@" ++ lower d).
Proof.
  split.
  - destruct domain as [d|]; simpl.
    + destruct (String.eqb_spec d EmptyString) as [Hd|Hd].
      * split; auto.
      * destruct (String.eqb_spec (clean_email_part first) EmptyString) as [H1|H1];
        destruct (String.eqb_spec (clean_email_part last) EmptyString) as [H2|H2];
        simpl; split; auto.
        intros H. exfalso. exact (address_not_na _ _ _ H1 H2 H).
        intros [H|[H|H]]; congruence.
    + split; auto.
  - intros d -> Hd H1 H2. simpl.
    apply String.eqb_neq in Hd, H1, H2. rewrite Hd, H1, H2. reflexivity.
Qed.

End EmailProofs.

Module CompanyProofs.

Import Company.

(** C6 (code_bug): a name ending in both "corporation" and the longer known
    suffix "investment corporation" has only "corporation" stripped, because
    [DIVISION_PATTERNS] lists "corporation$" before
    "investment corporation$" and the first matching pattern wins; stripping
    the longest matching suffix would give "Ares". *)
Theorem normalize_company_name_first_pattern_wins :
  normalize_company_name "Ares Investment Corporation" = "Ares Investment"
  /\ normalize_company_name_longest_first "Ares Investment Corporation" = "Ares"
  /\ find (fun p => ends_with p "ares investment corporation") DIVISION_PATTERNS
     = Some "corporation".
Proof. split; [|split]; reflexivity. Qed.

End CompanyProofs.

Module TitleProofs.

Import TitleParser.

Lemma ascii_eqb_false (c d : ascii) : Ascii.eqb c d = false -> c <> d.
Proof. intros H ->. rewrite Ascii.eqb_refl in H. discriminate. Qed.

Lemma no_char_app (ch : ascii) (a b : string) :
  no_char ch (a ++ b) = no_char ch a && no_char ch b.
Proof.
  induction a as [|c a IH]; simpl; [reflexivity|].
  rewrite IH. apply andb_assoc.
Qed.

Lemma no_char_join (ch : ascii) (sep : string) (l : list string) :
  no_char ch sep = true -> forallb (no_char ch) l = true -> no_char ch (join sep l) = true.
Proof.
  intros Hs. induction l as [|x l IH]; simpl; [reflexivity|].
  intros Hl. apply andb_prop in Hl as [Hx Hl].
  destruct l as [|y l']; [exact Hx|].
  rewrite !no_char_app, Hx, Hs, IH; auto.
Qed.

Lemma prefix_cons (a c : ascii) (p s : string) :
  prefix (String a p) (String c s) = if ascii_dec a c then prefix p s else false.
Proof. reflexivity. Qed.

Lemma prefix_cons_neq (a c : ascii) (p s : string) :
  a <> c -> prefix (String a p) (String c s) = false.
Proof. intros H. rewrite prefix_cons. destruct (ascii_dec a c); congruence. Qed.

Lemma replace_aux_step (pat rep : string) (c : ascii) (s : string) :
  replace_aux pat rep O (String c s)
  = if prefix pat (String c s)
    then rep ++ replace_aux pat rep (pred (String.length pat)) s
    else String c (replace_aux pat rep O s).
Proof. reflexivity. Qed.

Lemma split_aux_step (sep cur : string) (c : ascii) (s : string) :
  split_aux sep O cur (String c s)
  = if prefix sep (String c s)
    then cur :: split_aux sep (pred (String.length sep)) EmptyString s
    else split_aux sep O (cur ++ String c EmptyString) s.
Proof. reflexivity. Qed.

(** Removing "| LinkedIn" leaves a prefix without '|' untouched. *)
Lemma replace_no_bar (s t : string) :
  no_char "|" s = true ->
  replace_aux "| LinkedIn" EmptyString O (s ++ t)
  = s ++ replace_aux "| LinkedIn" EmptyString O t.
Proof.
  induction s as [|c s IH]; [reflexivity|].
  intros H. simpl in H. apply andb_prop in H as [Hc Hs].
  apply negb_true_iff, ascii_eqb_false in Hc.
  change (String c s ++ t) with (String c (s ++ t)).
  rewrite replace_aux_step, prefix_cons_neq by congruence.
  rewrite IH by exact Hs. reflexivity.
Qed.

Lemma lstrip_first_nonspace (s : string) :
  first_nonspace s = true -> lstrip_by is_space s = s.
Proof.
  destruct s as [|c s]; simpl; [discriminate|].
  intros H. apply negb_true_iff in H. rewrite H. reflexivity.
Qed.

Lemma last_nonspace_nonempty (s : string) : last_nonspace s = true -> s <> EmptyString.
Proof. destruct s; simpl; congruence. Qed.

Lemma rstrip_step (p : ascii -> bool) (c : ascii) (s : string) :
  rstrip_by p (String c s)
  = if (rstrip_by p s =? EmptyString) && p c then EmptyString else String c (rstrip_by p s).
Proof. reflexivity. Qed.

Lemma rstrip_last_nonspace (s : string) :
  last_nonspace s = true -> rstrip_by is_space s = s.
Proof.
  induction s as [|c s IH]; [discriminate|].
  intros H. destruct s as [|d s'].
  - simpl in *. apply negb_true_iff in H. rewrite H. reflexivity.
  - change (last_nonspace (String d s') = true) in H.
    rewrite rstrip_step, (IH H). reflexivity.
Qed.

Lemma rstrip_trailing_space (s : string) :
  last_nonspace s = true -> rstrip_by is_space (s ++ " ") = s.
Proof.
  induction s as [|c s IH]; [discriminate|].
  intros H. destruct s as [|d s'].
  - simpl in *. apply negb_true_iff in H. rewrite H. reflexivity.
  - change (last_nonspace (String d s') = true) in H.
    change (String c (String d s') ++ " ") with (String c (String d s' ++ " ")).
    rewrite rstrip_step, (IH H). reflexivity.
Qed.

Lemma first_nonspace_app (a b : string) :
  first_nonspace a = true -> first_nonspace (a ++ b) = true.
Proof. destruct a; simpl; [discriminate | auto]. Qed.

Lemma last_nonspace_app (a b : string) :
  last_nonspace b = true -> last_nonspace (a ++ b) = true.
Proof.
  intros Hb. induction a as [|c a IH]; simpl; [exact Hb|].
  destruct (a ++ b) eqn:E.
  - apply last_nonspace_nonempty in Hb. destruct a, b; simpl in E; congruence.
  - exact IH.
Qed.

Lemma clean_segment_spec (s : string) :
  clean_segment s = true ->
  no_char "-" s = true /\ no_char "|" s = true /\ first_nonspace s = true /\ last_nonspace s = true.
Proof.
  unfold clean_segment. intros H.
  repeat match goal with
         | H : _ && _ = true |- _ => apply andb_prop in H as [? ?]
         end.
  auto.
Qed.

Lemma strip_clean (s : string) : clean_segment s = true -> strip s = s.
Proof.
  intros H. apply clean_segment_spec in H as (_ & _ & H1 & H2).
  unfold strip, strip_by. rewrite lstrip_first_nonspace by exact H1.
  apply rstrip_last_nonspace, H2.
Qed.

(** No " - " starts inside a segment free of '-' when what follows does not
    start with '-'. *)
Lemma split_no_dash (x t cur : string) :
  no_char "-" x = true -> (forall t', t <> String "-" t') ->
  split_aux " - " O cur (x ++ t) = split_aux " - " O (cur ++ x) t.
Proof.
  revert cur. induction x as [|c x IH]; intros cur Hx Ht.
  - simpl. rewrite str_app_nil_r. reflexivity.
  - simpl in Hx. apply andb_prop in Hx as [Hc Hx].
    apply negb_true_iff, ascii_eqb_false in Hc.
    assert (Hp : prefix " - " (String c (x ++ t)) = false).
    { rewrite prefix_cons. destruct (ascii_dec " " c) as [E|E]; [|reflexivity].
      destruct x as [|d x'].
      - destruct t as [|d t']; [reflexivity|].
        change (EmptyString ++ String d t') with (String d t').
        rewrite prefix_cons. destruct (ascii_dec "-" d) as [E'|E']; [|reflexivity].
        subst d. exfalso. exact (Ht t' eq_refl).
      - simpl in Hx. apply andb_prop in Hx as [Hd _].
        apply negb_true_iff, ascii_eqb_false in Hd.
        change (String d x' ++ t) with (String d (x' ++ t)).
        apply prefix_cons_neq. congruence. }
    change (String c x ++ t) with (String c (x ++ t)).
    rewrite split_aux_step, Hp. rewrite IH by assumption.
    rewrite str_app_assoc. reflexivity.
Qed.

Lemma split_at_sep (cur r : string) :
  split_aux " - " O cur (" - " ++ r) = cur :: split_aux " - " O EmptyString r.
Proof. destruct r; reflexivity. Qed.

Lemma split_join (x : string) (l : list string) :
  forallb (no_char "-") (x :: l) = true ->
  split " - " (join " - " (x :: l)) = x :: l.
Proof.
  unfold split. revert x. induction l as [|y l IH]; intros x H.
  - simpl in H. rewrite andb_true_r in H. simpl.
    rewrite <- (str_app_nil_r x) at 1.
    rewrite split_no_dash by (auto; intros t' E; discriminate).
    reflexivity.
  - simpl in H. apply andb_prop in H as [Hx H].
    change (join " - " (x :: y :: l)) with (x ++ " - " ++ join " - " (y :: l)).
    rewrite split_no_dash by (auto; intros t' E; discriminate).
    rewrite split_at_sep. simpl (EmptyString ++ x). f_equal. apply IH. exact H.
Qed.

Lemma join_first_nonspace (x : string) (l : list string) :
  first_nonspace x = true -> first_nonspace (join " - " (x :: l)) = true.
Proof. destruct l; simpl; [auto | apply first_nonspace_app]. Qed.

Lemma join_last_nonspace (x : string) (l : list string) :
  forallb last_nonspace (x :: l) = true -> last_nonspace (join " - " (x :: l)) = true.
Proof.
  revert x. induction l as [|y l IH]; intros x H; simpl in H.
  - rewrite andb_true_r in H. exact H.
  - apply andb_prop in H as [_ H].
    change (join " - " (x :: y :: l)) with (x ++ " - " ++ join " - " (y :: l)).
    apply last_nonspace_app, last_nonspace_app, IH, H.
Qed.

Lemma forallb_clean_split (l : list string) :
  forallb clean_segment l = true ->
  forallb (no_char "-") l = true /\ forallb (no_char "|") l = true
  /\ forallb last_nonspace l = true /\ map strip l = l /\ filter nonempty l = l.
Proof.
  induction l as [|x l IH]; simpl; [auto|].
  intros H. apply andb_prop in H as [Hx Hl].
  destruct (IH Hl) as (H1 & H2 & H3 & H4 & H5).
  pose proof (strip_clean x Hx) as Hs.
  apply clean_segment_spec in Hx as (Hx1 & Hx2 & _ & Hx4).
  rewrite Hx1, Hx2, Hx4, H1, H2, H3, H4, H5, Hs.
  unfold nonempty. apply last_nonspace_nonempty, String.eqb_neq in Hx4. rewrite Hx4.
  repeat split.
Qed.

Lemma brand_suffix_removed (j : string) :
  no_char "|" j = true ->
  replace "| LinkedIn" EmptyString (j ++ " | LinkedIn") = j ++ " ".
Proof. intros H. unfold replace. rewrite replace_no_bar by exact H. reflexivity. Qed.

Lemma strip_trailing_space (j : string) :
  first_nonspace j = true -> last_nonspace j = true -> strip (j ++ " ") = j.
Proof.
  intros H1 H2. unfold strip, strip_by.
  rewrite lstrip_first_nonspace by (apply first_nonspace_app, H1).
  apply rstrip_trailing_space, H2.
Qed.

(** C8 (corrected): [parse_title] deletes "| LinkedIn", trims, splits on
    " - ", trims every segment and drops the empty ones; the first segment is
    the name and all the others, joined back with " - ", are the role/company
    text.  On a title [seg1 - seg2 - ... - segn | LinkedIn] whose segments are
    trimmed, non-empty and free of '-' and '|', the name is [seg1] and the
    role/company text is [seg2 - ... - segn]: no later segment is dropped. *)
Theorem parse_title_keeps_all_segments (name : string) (rest : list string) :
  forallb clean_segment (name :: rest) = true ->
  parse_title (join " - " (name :: rest) ++ " | LinkedIn") = (name, join " - " rest).
Proof.
  intros H.
  destruct (forallb_clean_split _ H) as (Hdash & Hbar & Hlast & Hmap & Hfilt).
  assert (Hfirst : first_nonspace name = true).
  { simpl in H. apply andb_prop in H as [Hn _].
    apply clean_segment_spec in Hn as (_ & _ & Hn & _). exact Hn. }
  unfold parse_title.
  assert (Hne : (join " - " (name :: rest) ++ " | LinkedIn" =? EmptyString) = false).
  { destruct (join " - " (name :: rest)); reflexivity. }
  rewrite Hne.
  rewrite brand_suffix_removed by (apply no_char_join; [reflexivity | exact Hbar]).
  rewrite strip_trailing_space
    by (apply join_first_nonspace, Hfirst || apply join_last_nonspace, Hlast).
  rewrite split_join by exact Hdash.
  rewrite Hmap, Hfilt.
  destruct rest as [|r rest']; reflexivity.
Qed.

(** Witness: the title of the spec's example. *)
Lemma parse_title_keeps_all_segments_witness :
  forallb clean_segment ["Jane Doe"; "Campus Recruiter"; "Goldman Sachs"] = true
  /\ parse_title "Jane Doe - Campus Recruiter - Goldman Sachs | LinkedIn"
     = ("Jane Doe", "Campus Recruiter - Goldman Sachs").
Proof.
  split; [reflexivity|].
  exact (parse_title_keeps_all_segments "Jane Doe" ["Campus Recruiter"; "Goldman Sachs"]
           eq_refl).
Defined.

(** Counterexample to C8 read literally: the segments of the split are not
    all kept, the empty one between two separators is dropped, so the
    role/company text is "Analyst" and not the remaining split segments
    joined back, " - Analyst". *)
Lemma parse_title_drops_empty_segment :
  let t := "Jane Doe -  - Analyst | LinkedIn" in
  let segments := split " - " (strip (replace "| LinkedIn" EmptyString t)) in
  segments = ["Jane Doe"; EmptyString; "Analyst"]
  /\ parse_title t = ("Jane Doe", "Analyst")
  /\ snd (parse_title t) <> join " - " (tl segments).
Proof.
  vm_compute. split; [reflexivity|]. split; [reflexivity|]. discriminate.
Qed.

End TitleProofs.

Module QuotaProofs.

Import Seniority.
Local Open Scope Z_scope.

Lemma mem_In (x : string) (l : list string) : mem x l = true <-> In x l.
Proof.
  unfold mem. rewrite existsb_exists. split.
  - intros (y & Hy & E). apply String.eqb_eq in E. subst. exact Hy.
  - intros H. exists x. split; [exact H | apply String.eqb_refl].
Qed.

(** Both accumulators of [ordered_selected_seniority_levels] stay equal and
    duplicate-free. *)
Lemma add_level_fold_inv (L : list string) (b : bool) (xs u : list string) :
  NoDup u ->
  exists u', fold_left (add_level L b) xs (u, u) = (u', u') /\ NoDup u'
             /\ incl u u'.
Proof.
  revert u. induction xs as [|x xs IH]; intros u Hu; simpl.
  - exists u. split; [reflexivity|]. split; [exact Hu | apply incl_refl].
  - destruct ((if b then mem x L else true) && negb (mem x u)) eqn:E.
    + apply andb_prop in E as [_ E]. apply negb_true_iff in E.
      assert (Hx : ~ In x u) by (intros Hin; apply mem_In in Hin; congruence).
      assert (Hu' : NoDup (u ++ [x])%list).
      { apply NoDup_app; auto using NoDup_cons, NoDup_nil.
        - intros y Hy1 Hy2. destruct Hy2 as [<-|[]]. contradiction. }
      destruct (IH _ Hu') as (u' & E' & Hn & Hi).
      exists u'. split; [exact E'|]. split; [exact Hn|].
      intros y Hy. apply Hi, in_or_app. left. exact Hy.
    + exact (IH u Hu).
Qed.

Lemma second_pass_covers (L xs u : list string) (x : string) :
  In x xs -> NoDup u ->
  In x (fst (fold_left (add_level L false) xs (u, u))).
Proof.
  revert u. induction xs as [|y xs IH]; intros u Hin Hu; [destruct Hin|].
  simpl. destruct Hin as [->|Hin].
  - destruct (negb (mem x u)) eqn:E; simpl.
    + apply negb_true_iff in E.
      assert (Hx : ~ In x u) by (intros H; apply mem_In in H; congruence).
      assert (Hu' : NoDup (u ++ [x])%list).
      { apply NoDup_app; auto using NoDup_cons, NoDup_nil.
        intros z Hz1 Hz2. destruct Hz2 as [<-|[]]. contradiction. }
      destruct (add_level_fold_inv L false xs _ Hu') as (u' & E' & _ & Hi).
      rewrite E'. simpl. apply Hi, in_or_app. right. left. reflexivity.
    + apply negb_false_iff, mem_In in E.
      destruct (add_level_fold_inv L false xs _ Hu) as (u' & E' & _ & Hi).
      rewrite E'. simpl. apply Hi, E.
  - destruct (negb (mem y u)) eqn:E; simpl.
    + apply IH; [exact Hin|].
      apply negb_true_iff in E.
      apply NoDup_app; auto using NoDup_cons, NoDup_nil.
      intros z Hz1 Hz2. destruct Hz2 as [<-|[]]. apply mem_In in Hz1. congruence.
    + apply IH; assumption.
Qed.

Lemma ordered_selected_nodup (L : list string) :
  NoDup (ordered_selected_seniority_levels L).
Proof.
  unfold ordered_selected_seniority_levels.
  destruct (add_level_fold_inv L true SENIORITY_UI_ORDER [] (NoDup_nil _)) as (u & E & Hu & _).
  rewrite E.
  destruct (add_level_fold_inv L false L u Hu) as (u' & E' & Hu' & _).
  rewrite E'. exact Hu'.
Qed.

Lemma ordered_selected_incl (L : list string) (x : string) :
  In x L -> In x (ordered_selected_seniority_levels L).
Proof.
  intros Hx. unfold ordered_selected_seniority_levels.
  destruct (add_level_fold_inv L true SENIORITY_UI_ORDER [] (NoDup_nil _)) as (u & E & Hu & _).
  rewrite E. apply second_pass_covers; assumption.
Qed.

Lemma ordered_selected_nonempty (L : list string) :
  L <> [] -> ordered_selected_seniority_levels L <> [].
Proof.
  destruct L as [|x L]; [congruence|]. intros _ E.
  pose proof (ordered_selected_incl (x :: L) x (or_introl eq_refl)) as H.
  rewrite E in H. destruct H.
Qed.

Lemma weight_ge_1 (level : string) :
  1 <= assoc_get level SENIORITY_DISTRIBUTION_WEIGHTS 1.
Proof.
  unfold SENIORITY_DISTRIBUTION_WEIGHTS. simpl.
  repeat match goal with |- context [if ?b then _ else _] => destruct b end; lia.
Qed.

Lemma sumZ_ge_length (ws : list Z) :
  Forall (fun w => 1 <= w) ws -> Z.of_nat (List.length ws) <= sumZ ws.
Proof.
  induction 1; simpl; lia.
Qed.

Lemma incr_at_length (i : nat) (q : list Z) : List.length (incr_at i q) = List.length q.
Proof.
  revert i. induction q as [|x q IH]; intros [|i]; simpl; auto.
Qed.

Lemma distribute_length (t : Z) (order : list nat) (q : list Z) (a : Z) :
  List.length (distribute t order q a) = List.length q.
Proof.
  revert q a. induction order as [|i order IH]; intros q a; simpl; [reflexivity|].
  destruct (t <=? a); [reflexivity|]. rewrite IH. apply incr_at_length.
Qed.

Lemma insert_by_perm {A : Type} (le : A -> A -> bool) (x : A) (l : list A) :
  Permutation (insert_by le x l) (x :: l).
Proof.
  induction l as [|y l IH]; simpl; [reflexivity|].
  destruct (le x y); [reflexivity|].
  rewrite IH. apply perm_swap.
Qed.

Lemma sort_by_perm {A : Type} (le : A -> A -> bool) (l : list A) :
  Permutation (sort_by le l) l.
Proof.
  unfold sort_by. induction l as [|x l IH]; simpl; [reflexivity|].
  rewrite insert_by_perm. apply perm_skip, IH.
Qed.

Lemma map_snd_combine {A B : Type} (a : list A) (b : list B) :
  List.length a = List.length b -> map snd (combine a b) = b.
Proof.
  revert b. induction a as [|x a IH]; intros [|y b] H; simpl in *; try lia; auto.
  f_equal. apply IH. lia.
Qed.

Lemma map_fst_combine {A B : Type} (a : list A) (b : list B) :
  List.length a = List.length b -> map fst (combine a b) = a.
Proof.
  revert b. induction a as [|x a IH]; intros [|y b] H; simpl in *; try lia; auto.
  f_equal. apply IH. lia.
Qed.

Lemma weight_sum_pos (selected : list string) :
  selected <> [] ->
  0 < sumZ (map (fun level => assoc_get level SENIORITY_DISTRIBUTION_WEIGHTS 1) selected).
Proof.
  intros Hsel.
  pose proof (sumZ_ge_length
    (map (fun level => assoc_get level SENIORITY_DISTRIBUTION_WEIGHTS 1) selected)) as H.
  rewrite length_map in H.
  assert (H0 : 1 <= Z.of_nat (List.length selected)).
  { destruct selected; [contradiction | simpl; lia]. }
  assert (H1 : Forall (fun w => 1 <= w)
            (map (fun level => assoc_get level SENIORITY_DISTRIBUTION_WEIGHTS 1) selected)).
  { apply Forall_map, Forall_forall. intros x _. apply weight_ge_1. }
  specialize (H H1). lia.
Qed.

Lemma ret_inr {A : Type} (a b : A) : @ret A a = inr b -> b = a.
Proof. intros H. injection H. auto. Qed.

(** A list comprehension that does not raise applies its body to every
    element. *)
Lemma mapM_inr {A B : Type} (f : A -> M B) (l : list A) (l' : list B) :
  mapM f l = inr l' -> Forall2 (fun x y => f x = inr y) l l'.
Proof.
  revert l'. induction l as [|x l IH]; intros l' H; cbn [mapM] in H.
  - cbv [ret] in H. injection H as <-. constructor.
  - unfold bind in H. destruct (f x) as [e|y] eqn:Ef; [discriminate|].
    destruct (mapM f l) as [e|ys] eqn:Em; [discriminate|].
    cbv [ret] in H. injection H as <-. constructor; [exact Ef | apply IH; reflexivity].
Qed.

Lemma Forall2_nth_lt {A B : Type} (P : A -> B -> Prop) (l : list A) (l' : list B)
    (da : A) (db : B) (i : nat) :
  Forall2 P l l' -> (i < List.length l)%nat -> P (nth i l da) (nth i l' db).
Proof.
  intros H. revert i. induction H as [|x y l l' Hxy H IH]; intros i Hi; simpl in Hi; [lia|].
  destruct i as [|i]; simpl; [exact Hxy | apply IH; lia].
Qed.

(** C3 (refuted): [allocate_seniority_quotas] works on floats, and for a
    budget beyond 2^53 the rounded shares no longer add up.  With the single
    level Analyst and a budget of 2^55 + 7 the share [float(2^55 + 7) * 1.0]
    rounds to 2^55 + 8, [int] keeps it, and no remainder step runs
    ([assigned >= total_slots]): the level receives 2^55 + 8.  With Analyst
    and Associate the truncated shares are 24019198012642648 and
    12009599006321324, which sum to 2^55 + 4; the remainder loop adds at
    most one slot per level, so the quotas sum to 2^55 + 6.
    For a budget of 2^1024 the conversion to float raises [OverflowError]. *)
Theorem allocate_quotas_miss_total :
  allocate_seniority_quotas ["Analyst"] (2 ^ 55 + 7) = inr [("Analyst", 2 ^ 55 + 8)]
  /\ allocate_seniority_quotas ["Analyst"; "Associate"] (2 ^ 55 + 7)
     = inr [("Analyst", 24019198012642649); ("Associate", 12009599006321325)]
  /\ 24019198012642649 + 12009599006321325 = 2 ^ 55 + 6
  /\ allocate_seniority_quotas ["Analyst"] (2 ^ 1024)
     = inl (OverflowError "int too large to convert to float").
Proof.
  split; [vm_compute; reflexivity|].
  split; [vm_compute; reflexivity|].
  split; [vm_compute; reflexivity|].
  vm_compute. reflexivity.
Qed.

(** C9: with a non-positive budget, or when no level is left after ordering
    and deduplication, [allocate_seniority_quotas] returns the empty mapping
    (and raises nothing). *)
Theorem allocate_quotas_degenerate (target_levels : list string) (total_slots : Z) :
  total_slots <= 0 \/ ordered_selected_seniority_levels target_levels = [] ->
  allocate_seniority_quotas target_levels total_slots = inr [].
Proof.
  intros H. unfold allocate_seniority_quotas.
  destruct H as [H|H].
  - apply Z.leb_le in H. rewrite H. reflexivity.
  - rewrite H. simpl. rewrite orb_true_r. reflexivity.
Qed.

Lemma allocate_quotas_degenerate_witness :
  allocate_seniority_quotas ["Analyst"] 0 = inr [] /\ allocate_seniority_quotas [] 5 = inr [].
Proof.
  split.
  - apply allocate_quotas_degenerate. left. lia.
  - apply allocate_quotas_degenerate. right. reflexivity.
Defined.

End QuotaProofs.

(* ------------------------------------------------------------------ *)
(** ** Selection of a company's rows *)

Module PrioritizeProofs.

Import Seniority Rows QuotaProofs.

Local Open Scope Z_scope.

Lemma in_firstn {A : Type} (n : nat) (l : list A) (x : A) : In x (firstn n l) -> In x l.
Proof.
  intros H. rewrite <- (firstn_skipn n l). apply in_or_app. left. exact H.
Qed.

Lemma take_with_quota_incl (pool : list Row) (m q : Z) (rs : list Row) (st : Picked) :
  incl rs pool -> incl (fst st) pool -> incl (fst (take_with_quota m q rs st)) pool.
Proof.
  revert q st. induction rs as [|r rs IH]; intros q [picked ids] Hrs Hst; simpl; [exact Hst|].
  destruct ((m <=? Z.of_nat (List.length picked)) || (q <=? 0)); [exact Hst|].
  destruct (mem (candidate_row_identity r) ids).
  - apply IH; [intros x Hx; apply Hrs; right; exact Hx | exact Hst].
  - apply IH; [intros x Hx; apply Hrs; right; exact Hx|].
    simpl. intros x Hx. apply in_app_or in Hx. destruct Hx as [Hx|[<-|[]]].
    + apply Hst, Hx.
    + apply Hrs. left. reflexivity.
Qed.

Lemma backfill_incl (pool : list Row) (m : Z) (rs : list Row) (st : Picked) :
  incl rs pool -> incl (fst st) pool -> incl (fst (backfill m rs st)) pool.
Proof.
  revert st. induction rs as [|r rs IH]; intros [picked ids] Hrs Hst; simpl; [exact Hst|].
  destruct (m <=? Z.of_nat (List.length picked)); [exact Hst|].
  destruct (mem (candidate_row_identity r) ids).
  - apply IH; [intros x Hx; apply Hrs; right; exact Hx | exact Hst].
  - apply IH; [intros x Hx; apply Hrs; right; exact Hx|].
    simpl. intros x Hx. apply in_app_or in Hx. destruct Hx as [Hx|[<-|[]]].
    + apply Hst, Hx.
    + apply Hrs. left. reflexivity.
Qed.

Lemma quota_pass_incl (pool : list Row) (m : Z) (grouped : string -> list Row)
    (quotas : list (string * Z)) (levels : list string) (st : Picked) :
  (forall level, incl (grouped level) pool) -> incl (fst st) pool ->
  incl (fst (quota_pass m grouped quotas levels st)) pool.
Proof.
  revert st. induction levels as [|l levels IH]; intros st Hg Hst; simpl; [exact Hst|].
  destruct (assoc_get l quotas 0 <=? 0).
  - apply IH; assumption.
  - apply IH; [exact Hg|]. apply take_with_quota_incl; [apply Hg | exact Hst].
Qed.

Lemma backfill_pass_incl (pool : list Row) (m : Z) (grouped : string -> list Row)
    (levels : list string) (st : Picked) :
  (forall level, incl (grouped level) pool) -> incl (fst st) pool ->
  incl (fst (backfill_pass m grouped levels st)) pool.
Proof.
  revert st. induction levels as [|l levels IH]; intros st Hg Hst; simpl; [exact Hst|].
  assert (H := backfill_incl pool m (grouped l) st (Hg l) Hst).
  destruct (is_full m (backfill m (grouped l) st)); [exact H|].
  apply IH; assumption.
Qed.

Lemma sort_filter_incl (le : Row -> Row -> bool) (p : Row -> bool) (pool : list Row) :
  incl (sort_by le (filter p pool)) pool.
Proof.
  intros x Hx. apply (Permutation_in _ (sort_by_perm le _)) in Hx.
  apply filter_In in Hx. apply Hx.
Qed.

(** The three passes of [prioritize_company_rows] pick rows of the pool. *)
Lemma passes_incl (pool : list Row) (m : Z) (grouped : string -> list Row)
    (quotas : list (string * Z)) (levels : list string) (extra : list Row) :
  (forall level, incl (grouped level) pool) -> incl extra pool ->
  incl (fst
    (if is_full m (if is_full m (quota_pass m grouped quotas levels ([], []))
                   then quota_pass m grouped quotas levels ([], [])
                   else backfill_pass m grouped levels (quota_pass m grouped quotas levels ([], [])))
     then (if is_full m (quota_pass m grouped quotas levels ([], []))
           then quota_pass m grouped quotas levels ([], [])
           else backfill_pass m grouped levels (quota_pass m grouped quotas levels ([], [])))
     else backfill m extra
            (if is_full m (quota_pass m grouped quotas levels ([], []))
             then quota_pass m grouped quotas levels ([], [])
             else backfill_pass m grouped levels (quota_pass m grouped quotas levels ([], []))))) pool.
Proof.
  intros Hg He.
  assert (H1 : incl (fst (quota_pass m grouped quotas levels ([], []))) pool)
    by (apply quota_pass_incl; [exact Hg | intros x []]).
  set (st1 := quota_pass m grouped quotas levels ([], [])) in *.
  assert (H2 : incl (fst (if is_full m st1 then st1 else backfill_pass m grouped levels st1)) pool)
    by (destruct (is_full m st1); [exact H1 | apply backfill_pass_incl; assumption]).
  set (st2 := if is_full m st1 then st1 else _) in *.
  destruct (is_full m st2); [exact H2 | apply backfill_incl; assumption].
Qed.

(** Every row [prioritize_company_rows] returns is a row of its pool. *)
Lemma prioritize_incl (pool : list Row) (target_levels : list string) (m : Z)
    (out : list Row) :
  prioritize_company_rows pool target_levels m = inr out -> incl out pool.
Proof.
  unfold prioritize_company_rows.
  destruct ((m <=? 0) || (List.length pool =? 0)%nat).
  { intros H. apply ret_inr in H. subst out. intros x []. }
  destruct (ordered_selected_seniority_levels target_levels) as [|l ls].
  - intros H. apply ret_inr in H. subst out.
    intros x Hx. apply in_firstn in Hx.
    apply (Permutation_in _ (sort_by_perm _ _)) in Hx. exact Hx.
  - unfold bind. destruct (allocate_seniority_quotas (l :: ls) m) as [e|quotas]; [discriminate|].
    intros H. apply ret_inr in H. subst out.
    intros x Hx. apply in_firstn in Hx.
    apply (Permutation_in _ (sort_by_perm _ _)) in Hx. revert x Hx.
    exact (passes_incl pool m _ _ _ _ (fun level => sort_filter_incl _ _ pool)
             (fun x Hx => match in_app_or _ _ x Hx with
                          | or_introl H => sort_filter_incl _ _ pool x H
                          | or_intror H => sort_filter_incl _ _ pool x H
                          end)).
Qed.




End PrioritizeProofs.

(* ------------------------------------------------------------------ *)
(** ** Scores of the rows of a run *)

Module PipelineProofs.

Import Seniority Rows Email Engine QuotaProofs PrioritizeProofs.

Local Open Scope Z_scope.

Definition score_in_range (r : Row) : Prop := 0 <= fit_score r <= 100.

Lemma compute_fit_score_range (env : Env) (fi : FitInput) (f : Z) (rs : list string) :
  compute_fit_score env fi = (f, rs) -> 0 <= f <= 100.
Proof.
  unfold compute_fit_score. destruct (fit_steps env fi) as [s r].
  intros H. injection H as <- _. lia.
Qed.

Ltac split_lets :=
  repeat match goal with
  | H : context [match ?e with pair _ _ => _ end] |- _ => destruct e eqn:?
  | H : context [if ?b then _ else _] |- _ => destruct b eqn:?
  end.

Lemma process_result_range env job filters a b c d e f result row key :
  process_result env job filters a b c d e f result = Some (row, key) ->
  score_in_range row.
Proof.
  intros H. unfold process_result in H.
  split_lets; try discriminate;
    injection H as <- _; unfold score_in_range; simpl;
    eapply compute_fit_score_range; eassumption.
Qed.

Definition candidates_in_range (st : LoopState) : Prop :=
  Forall score_in_range (company_candidates st).

Lemma run_results_range env job filters a b c d e f results st :
  candidates_in_range st ->
  candidates_in_range (run_results env job filters a b c d e f results st).
Proof.
  revert st. induction results as [|r results IH]; intros st Hst; simpl; [exact Hst|].
  destruct (_ <=? gathered_count st); [exact Hst|].
  destruct (process_result env job filters a b c d e f r) as [[row key]|] eqn:Hp;
    [|apply IH, Hst].
  destruct (mem key (seen_people st)); [apply IH, Hst|].
  apply IH. unfold candidates_in_range. simpl. apply Forall_app. split; [exact Hst|].
  constructor; [|constructor]. eapply process_result_range. exact Hp.
Qed.

Lemma run_levels_range env job filters key a b c d lfs st st' :
  run_levels env job filters key a b c d lfs st = inr st' ->
  candidates_in_range st -> candidates_in_range st'.
Proof.
  revert st. induction lfs as [|lf lfs IH]; intros st H Hst; simpl in H.
  - injection H as <-. exact Hst.
  - destruct (_ <=? gathered_count st); [injection H as <-; exact Hst|].
    unfold bind in H. destruct (google_search env _ key 8) as [exn|results]; [discriminate|].
    apply IH in H; [exact H|]. apply run_results_range. exact Hst.
Qed.

Lemma run_keywords_range env job filters key a b c kws st st' :
  run_keywords env job filters key a b c kws st = inr st' ->
  candidates_in_range st -> candidates_in_range st'.
Proof.
  revert st. induction kws as [|kw kws IH]; intros st H Hst; simpl in H.
  - injection H as <-. exact Hst.
  - destruct (_ <=? gathered_count st); [injection H as <-; exact Hst|].
    unfold bind in H.
    destruct (run_levels env job filters key a b c kw _ st) as [exn|st1] eqn:Hl; [discriminate|].
    apply IH in H; [exact H|]. eapply run_levels_range; eassumption.
Qed.

Lemma run_cities_range env job filters key a b cities st st' :
  run_cities env job filters key a b cities st = inr st' ->
  candidates_in_range st -> candidates_in_range st'.
Proof.
  revert st. induction cities as [|c cities IH]; intros st H Hst; simpl in H.
  - injection H as <-. exact Hst.
  - destruct (_ <=? gathered_count st); [injection H as <-; exact Hst|].
    unfold bind in H.
    destruct (run_keywords env job filters key a b c _ st) as [exn|st1] eqn:Hk; [discriminate|].
    apply IH in H; [exact H|]. eapply run_keywords_range; eassumption.
Qed.

Lemma run_companies_range env job filters key companies rows seen qc rows' qc' :
  run_companies env job filters key companies rows seen qc = inr (rows', qc') ->
  Forall score_in_range rows -> Forall score_in_range rows'.
Proof.
  revert rows seen qc. induction companies as [|c companies IH];
    intros rows seen qc H Hrows; simpl in H.
  - injection H as <- _. exact Hrows.
  - unfold bind in H.
    destruct (run_cities env job filters key c _ _ _) as [exn|st] eqn:Hc; [discriminate|].
    destruct (prioritize_company_rows _ _ _) as [exn|picked] eqn:Hp; [discriminate|].
    apply IH in H; [exact H|]. apply Forall_app. split; [exact Hrows|].
    apply Forall_forall. intros x Hx. apply (prioritize_incl _ _ _ _ Hp) in Hx.
    assert (Hst : candidates_in_range st)
      by (eapply run_cities_range; [exact Hc | constructor]).
    unfold candidates_in_range in Hst. rewrite Forall_forall in Hst. apply Hst, Hx.
Qed.

(** C1: whatever its inputs, [compute_fit_score] returns a score in
    [[0, 100]]; consequently every row of a result returned by
    [generate_contacts] has [0 <= fit_score <= 100], for every choice of the
    collaborators, the job, the filters and the key. *)
Theorem fit_scores_in_range :
  (forall (env : Env) (fi : FitInput), 0 <= fst (compute_fit_score env fi) <= 100)
  /\ (forall (env : Env) (job : JobContext) (filters : Filters) (key : string)
             (res : ContactGenResult),
        generate_contacts env job filters key = inr res ->
        Forall (fun r => 0 <= fit_score r <= 100) (rows res)).
Proof.
  split.
  - intros env fi. destruct (compute_fit_score env fi) as [f rs] eqn:E. simpl.
    eapply compute_fit_score_range. exact E.
  - intros env job filters key res H. unfold generate_contacts, bind in H.
    destruct (run_companies env job filters key _ [] [] 0) as [exn|[rs qc]] eqn:Hr;
      [discriminate|].
    injection H as <-. simpl.
    assert (Hrs : Forall score_in_range rs)
      by (eapply run_companies_range; [exact Hr | constructor]).
    rewrite Forall_forall in *. intros x Hx.
    apply (Permutation_in _ (sort_by_perm _ _)) in Hx. apply Hrs, Hx.
Qed.

Lemma fit_scores_in_range_witness :
  generate_contacts Scenario.demo_env Scenario.demo_job Scenario.demo_filters "demo-key"
    = inr Scenario.demo_result
  /\ map fit_score (rows Scenario.demo_result) = [79; 79]
  /\ Forall (fun r => 0 <= fit_score r <= 100) (rows Scenario.demo_result).
Proof.
  split; [vm_compute; reflexivity|]. split; [vm_compute; reflexivity|].
  apply (proj2 fit_scores_in_range Scenario.demo_env Scenario.demo_job Scenario.demo_filters
           "demo-key" Scenario.demo_result).
  vm_compute. reflexivity.
Defined.

End PipelineProofs.

(* ------------------------------------------------------------------ *)
(** ** Runs of [generate_contacts] *)

Module RunProofs.

Import Seniority Rows Email Engine.

Local Open Scope Z_scope.

Lemma companies_of_nonempty (f : Filters) (job : JobContext) : companies_of f job <> [].
Proof. unfold companies_of. destruct (map strip _); discriminate. Qed.

Lemma cities_of_nonempty (f : Filters) (job : JobContext) : cities_of f job <> [].
Proof.
  unfold cities_of. destruct (filter _ _); [destruct (String.eqb _ _)|]; discriminate.
Qed.

Lemma keywords_of_nonempty (env : Env) (f : Filters) (job : JobContext) :
  keywords_of env f job <> [].
Proof. unfold keywords_of. destruct (final_keywords env f job); discriminate. Qed.

Lemma level_filters_of_nonempty (f : Filters) : level_filters_of f <> [].
Proof. unfold level_filters_of. destruct (levels_of f); discriminate. Qed.

(** When the search call raises for every query, a run that issues a query
    (its gather limit is positive) raises the same exception. *)
Lemma generate_contacts_search_error (env : Env) (job : JobContext) (filters : Filters)
    (key : string) (e : Exc) :
  0 < max_per_company_of filters ->
  (forall q, google_search env q key 8 = inl e) ->
  generate_contacts env job filters key = inl e.
Proof.
  intros Hm Hs.
  assert (Hg : forall st, gathered_count st = 0 -> (max_per_company_of filters * 6 <=? gathered_count st) = false)
    by (intros st H0; rewrite H0; apply Z.leb_gt; lia).
  unfold generate_contacts.
  destruct (companies_of filters job) as [|c cs] eqn:Ec; [now apply companies_of_nonempty in Ec|].
  cbn [run_companies].
  destruct (cities_of filters job) as [|city cities] eqn:Eci; [now apply cities_of_nonempty in Eci|].
  cbn [run_cities]. rewrite Hg by reflexivity.
  destruct (keywords_of env filters job) as [|kw kws] eqn:Ek; [now apply keywords_of_nonempty in Ek|].
  cbn [run_keywords]. rewrite Hg by reflexivity.
  destruct (level_filters_of filters) as [|lf lfs] eqn:El; [now apply level_filters_of_nonempty in El|].
  cbn [run_levels]. rewrite Hg by reflexivity.
  rewrite Hs. reflexivity.
Qed.

(** C2: the identity keys of the rows of a result are not always pairwise
    distinct.  The [seen_people] key of a row without a predicted email
    embeds the raw company name, and the rows are never deduplicated by
    [candidate_row_identity]: the same profile found under the targets
    "Zorblax" and "Zorblax Inc" is returned twice, with the same identity
    key. *)
Theorem generate_contacts_repeats_identity :
  generate_contacts Scenario.demo_env Scenario.demo_job Scenario.demo_filters "demo-key"
    = inr Scenario.demo_result
  /\ map candidate_row_identity (rows Scenario.demo_result)
     = ["url:https://www.linkedin.com/in/pat-kim"; "url:https://www.linkedin.com/in/pat-kim"]
  /\ map email (rows Scenario.demo_result) = ["N/A"; "N/A"]
  /\ map query (rows Scenario.demo_result)
     = ["site:linkedin.com/in Analyst Analyst Zorblax " ++ dq ++ "New York" ++ dq;
        "site:linkedin.com/in Analyst Analyst Zorblax Inc " ++ dq ++ "New York" ++ dq]
  /\ ~ NoDup (map candidate_row_identity (rows Scenario.demo_result)).
Proof.
  split; [vm_compute; reflexivity|]. split; [vm_compute; reflexivity|].
  split; [vm_compute; reflexivity|]. split; [vm_compute; reflexivity|].
  assert (E : map candidate_row_identity (rows Scenario.demo_result)
              = ["url:https://www.linkedin.com/in/pat-kim"; "url:https://www.linkedin.com/in/pat-kim"])
    by (vm_compute; reflexivity).
  rewrite E. intros H. inversion H as [|x l Hx _]. apply Hx. left. reflexivity.
Qed.

(** C5 (amended): the search call does not fail closed.  With an empty key
    [google_search] raises [ValueError] before any request; when the API
    answers with an error status (4xx or 5xx, as for a rejected key) it
    raises [HTTPError].  [generate_contacts] catches neither, so every run
    whose per-company cap is positive issues a query and aborts with that
    exception instead of returning zero candidates. *)
Theorem search_errors_abort_run :
  (forall (env : Env) (q : string) (n : Z),
     google_search env q EmptyString n = inl (ValueError "SERPAPI_KEY is not configured"))
  /\ (forall (env : Env) (q key : string) (n : Z),
        key <> EmptyString -> 400 <= status (http_get env q key n) < 600 ->
        google_search env q key n = inl (HTTPError (status (http_get env q key n))))
  /\ (forall (env : Env) (job : JobContext) (filters : Filters),
        0 < max_per_company_of filters ->
        generate_contacts env job filters EmptyString
          = inl (ValueError "SERPAPI_KEY is not configured"))
  /\ (forall (env : Env) (job : JobContext) (filters : Filters) (key : string) (code : Z),
        key <> EmptyString -> 400 <= code < 600 ->
        (forall q n, status (http_get env q key n) = code) ->
        0 < max_per_company_of filters ->
        generate_contacts env job filters key = inl (HTTPError code)).
Proof.
  assert (Herr : forall env q key n, key <> EmptyString -> 400 <= status (http_get env q key n) < 600 ->
            google_search env q key n = inl (HTTPError (status (http_get env q key n)))).
  { intros env q key n Hk Hs. unfold google_search.
    apply String.eqb_neq in Hk. rewrite Hk.
    destruct Hs as [H1 H2]. apply Z.leb_le in H1. apply Z.ltb_lt in H2.
    rewrite H1, H2. reflexivity. }
  split; [reflexivity|]. split; [exact Herr|]. split.
  - intros env job filters Hm. apply RunProofs.generate_contacts_search_error; [exact Hm|].
    intros q. reflexivity.
  - intros env job filters key code Hk Hc Hs Hm.
    apply RunProofs.generate_contacts_search_error; [exact Hm|].
    intros q. rewrite <- (Hs q 8). apply Herr; [exact Hk|]. rewrite Hs. exact Hc.
Qed.

Lemma search_errors_abort_run_witness :
  generate_contacts Scenario.demo_env Scenario.demo_job Scenario.demo_filters EmptyString
    = inl (ValueError "SERPAPI_KEY is not configured")
  /\ generate_contacts Scenario.demo_env Scenario.demo_job Scenario.demo_filters "rejected-key"
       = inl (HTTPError 401).
Proof.
  split.
  - apply (proj1 (proj2 (proj2 search_errors_abort_run))). vm_compute. reflexivity.
  - apply (proj2 (proj2 (proj2 search_errors_abort_run))); [discriminate | lia | |].
    + intros q n. reflexivity.
    + vm_compute. reflexivity.
Defined.

(** C5: a missing or rejected key makes the run raise, with the search
    call raising first. *)
Lemma missing_key_raises :
  google_search Scenario.demo_env "site:linkedin.com/in Analyst" EmptyString 8
    = inl (ValueError "SERPAPI_KEY is not configured")
  /\ generate_contacts Scenario.demo_env Scenario.demo_job Scenario.demo_filters EmptyString
       = inl (ValueError "SERPAPI_KEY is not configured")
  /\ generate_contacts Scenario.demo_env Scenario.demo_job Scenario.demo_filters "rejected-key"
       = inl (HTTPError 401).
Proof.
  split; [|split]; vm_compute; reflexivity.
Qed.

(** C7 (amended): when no seniority level is selected (the key is missing
    or the list is empty), [generate_contacts] defaults the levels to
    ["Analyst"; "Associate"], not to the empty level; the level filters it
    loops over are these two, so every query it builds carries the level
    clause " Analyst" or " Associate". *)
Theorem no_levels_default_analyst_associate (filters : Filters) :
  f_seniority_levels filters = None \/ f_seniority_levels filters = Some [] ->
  level_filters_of filters = ["Analyst"; "Associate"]
  /\ target_levels_of filters = ["Analyst"; "Associate"]
  /\ (forall (env : Env) (company city keyword level_filter : string),
        In level_filter (level_filters_of filters) ->
        query_for env company city keyword level_filter
        = "site:linkedin.com/in " ++ canonicalize_search_keyword env keyword ++ " "
          ++ level_filter ++ " " ++ company ++ " " ++ dq ++ city_short city ++ dq).
Proof.
  intros H.
  assert (E : level_filters_of filters = ["Analyst"; "Associate"])
    by (unfold level_filters_of, levels_of; destruct H as [H|H]; rewrite H; reflexivity).
  split; [exact E|]. split.
  - unfold target_levels_of, levels_of. destruct H as [H|H]; rewrite H; reflexivity.
  - intros env company city keyword lf Hin. rewrite E in Hin.
    destruct Hin as [<-|[<-|[]]]; reflexivity.
Qed.

Lemma no_levels_default_analyst_associate_witness :
  level_filters_of Scenario.demo_filters_no_levels = ["Analyst"; "Associate"]
  /\ query_for Scenario.demo_env "Zorblax" "New York, NY" "Analyst" "Associate"
     = "site:linkedin.com/in Analyst Associate Zorblax " ++ dq ++ "New York" ++ dq.
Proof.
  assert (H : f_seniority_levels Scenario.demo_filters_no_levels = None
              \/ f_seniority_levels Scenario.demo_filters_no_levels = Some [])
    by (left; reflexivity).
  split.
  - apply (no_levels_default_analyst_associate _ H).
  - refine (eq_trans (proj2 (proj2 (no_levels_default_analyst_associate _ H))
                        Scenario.demo_env "Zorblax" "New York, NY" "Analyst" "Associate" _) _).
    + vm_compute. right. left. reflexivity.
    + vm_compute. reflexivity.
Defined.

(** C7: with no level selected the level filters are not the empty level,
    and the queries of the run carry a level clause: the run issues six
    queries (three fallback keywords, two levels), and the row it returns
    was found by the first one, with the clause " Analyst". *)
Lemma no_levels_query_has_level_clause :
  level_filters_of Scenario.demo_filters_no_levels <> [EmptyString]
  /\ generate_contacts Scenario.demo_env Scenario.demo_job Scenario.demo_filters_no_levels "demo-key"
     = inr Scenario.demo_result_no_levels
  /\ result_query_count Scenario.demo_result_no_levels = 6
  /\ map query (rows Scenario.demo_result_no_levels)
     = ["site:linkedin.com/in Analyst Analyst Zorblax " ++ dq ++ "New York" ++ dq].
Proof.
  split; [vm_compute; discriminate|].
  split; [|split]; vm_compute; reflexivity.
Qed.

End RunProofs.

(* ------------------------------------------------------------------ *)
(** ** Further invariants of a run *)

Module RunFacts.

Import Seniority Rows Email Engine QuotaProofs PrioritizeProofs.

Local Open Scope Z_scope.

Ltac split_lets :=
  repeat match goal with
  | H : context [match ?e with pair _ _ => _ end] |- _ => destruct e eqn:?
  | H : context [if ?b then _ else _] |- _ => destruct b eqn:?
  end.

Section Invariant.

(** [P] holds of every row built from a search result satisfying [Q], and
    every result [google_search] returns satisfies [Q]. *)
Variable P : Row -> Prop.
Variable Q : RawResult -> Prop.
Hypothesis HP : forall env job filters a b c d e f result row key,
  Q result -> process_result env job filters a b c d e f result = Some (row, key) -> P row.
Hypothesis HQ : forall env q key n results,
  google_search env q key n = inr results -> Forall Q results.

Definition pool_ok (st : LoopState) : Prop := Forall P (company_candidates st).

Lemma run_results_inv env job filters a b c d e f results st :
  Forall Q results -> pool_ok st ->
  pool_ok (run_results env job filters a b c d e f results st).
Proof.
  revert st. induction results as [|r results IH]; intros st HQs Hst; simpl; [exact Hst|].
  inversion HQs as [|? ? Hr HQs']; subst.
  destruct (_ <=? gathered_count st); [exact Hst|].
  destruct (process_result env job filters a b c d e f r) as [[row key]|] eqn:Hp;
    [|apply IH; assumption].
  destruct (mem key (seen_people st)); [apply IH; assumption|].
  apply IH; [exact HQs'|]. unfold pool_ok. simpl. apply Forall_app. split; [exact Hst|].
  constructor; [|constructor]. eapply HP; eassumption.
Qed.

Lemma run_levels_inv env job filters key a b c d lfs st st' :
  run_levels env job filters key a b c d lfs st = inr st' -> pool_ok st -> pool_ok st'.
Proof.
  revert st. induction lfs as [|lf lfs IH]; intros st H Hst; simpl in H.
  - injection H as <-. exact Hst.
  - destruct (_ <=? gathered_count st); [injection H as <-; exact Hst|].
    unfold bind in H. destruct (google_search env _ key 8) as [exn|results] eqn:Hs;
      [discriminate|].
    apply IH in H; [exact H|]. apply run_results_inv; [eapply HQ; exact Hs | exact Hst].
Qed.

Lemma run_keywords_inv env job filters key a b c kws st st' :
  run_keywords env job filters key a b c kws st = inr st' -> pool_ok st -> pool_ok st'.
Proof.
  revert st. induction kws as [|kw kws IH]; intros st H Hst; simpl in H.
  - injection H as <-. exact Hst.
  - destruct (_ <=? gathered_count st); [injection H as <-; exact Hst|].
    unfold bind in H.
    destruct (run_levels env job filters key a b c kw _ st) as [exn|st1] eqn:Hl; [discriminate|].
    apply IH in H; [exact H|]. eapply run_levels_inv; eassumption.
Qed.

Lemma run_cities_inv env job filters key a b cities st st' :
  run_cities env job filters key a b cities st = inr st' -> pool_ok st -> pool_ok st'.
Proof.
  revert st. induction cities as [|c cities IH]; intros st H Hst; simpl in H.
  - injection H as <-. exact Hst.
  - destruct (_ <=? gathered_count st); [injection H as <-; exact Hst|].
    unfold bind in H.
    destruct (run_keywords env job filters key a b c _ st) as [exn|st1] eqn:Hk; [discriminate|].
    apply IH in H; [exact H|]. eapply run_keywords_inv; eassumption.
Qed.

Lemma run_companies_inv env job filters key companies rows seen qc rows' qc' :
  run_companies env job filters key companies rows seen qc = inr (rows', qc') ->
  Forall P rows -> Forall P rows'.
Proof.
  revert rows seen qc. induction companies as [|c companies IH];
    intros rows seen qc H Hrows; simpl in H.
  - injection H as <- _. exact Hrows.
  - unfold bind in H.
    destruct (run_cities env job filters key c _ _ _) as [exn|st] eqn:Hc; [discriminate|].
    destruct (prioritize_company_rows _ _ _) as [exn|picked] eqn:Hp; [discriminate|].
    apply IH in H; [exact H|]. apply Forall_app. split; [exact Hrows|].
    apply Forall_forall. intros x Hx. apply (prioritize_incl _ _ _ _ Hp) in Hx.
    assert (Hst : pool_ok st) by (eapply run_cities_inv; [exact Hc | constructor]).
    unfold pool_ok in Hst. rewrite Forall_forall in Hst. apply Hst, Hx.
Qed.

Lemma generate_contacts_inv env job filters key res :
  generate_contacts env job filters key = inr res -> Forall P (rows res).
Proof.
  intros H. unfold generate_contacts, bind in H.
  destruct (run_companies env job filters key _ [] [] 0) as [exn|[rs qc]] eqn:Hr;
    [discriminate|].
  injection H as <-. simpl.
  assert (Hrs : Forall P rs) by (eapply run_companies_inv; [exact Hr | constructor]).
  rewrite Forall_forall in *. intros x Hx.
  apply (Permutation_in _ (sort_by_perm _ _)) in Hx. apply Hrs, Hx.
Qed.

End Invariant.

Lemma google_search_profiles env q key n results :
  google_search env q key n = inr results ->
  Forall (fun r => contains "linkedin.com/in" (r_url r) = true) results.
Proof.
  unfold google_search. destruct (String.eqb key EmptyString); [discriminate|].
  destruct (_ && _); [discriminate|]. intros H. injection H as <-.
  apply Forall_forall. intros r Hr. apply in_map_iff in Hr.
  destruct Hr as [it [<- Hit]]. apply filter_In in Hit. apply Hit.
Qed.

Lemma process_result_url env job filters a b c d e f result row key :
  process_result env job filters a b c d e f result = Some (row, key) ->
  linkedin_url row = r_url result.
Proof.
  intros H. unfold process_result in H.
  split_lets; try discriminate; injection H as <- _; reflexivity.
Qed.

(** Every row of a result of [generate_contacts] links to a LinkedIn
    profile: its [linkedin_url] is the url of a search result, and
    [google_search] keeps only the results whose link contains
    ["linkedin.com/in"]. *)
Theorem generate_contacts_rows_are_profiles (env : Env) (job : JobContext) (filters : Filters)
    (key : string) (res : ContactGenResult) :
  generate_contacts env job filters key = inr res ->
  Forall (fun r => contains "linkedin.com/in" (linkedin_url r) = true) (rows res).
Proof.
  apply (generate_contacts_inv _ (fun r => contains "linkedin.com/in" (r_url r) = true)).
  - intros env' job' filters' a b c d e f result row k Hq Hp.
    apply process_result_url in Hp. rewrite Hp. exact Hq.
  - intros env' q k n results. apply google_search_profiles.
Qed.

Lemma generate_contacts_rows_are_profiles_witness :
  Forall (fun r => contains "linkedin.com/in" (linkedin_url r) = true) (rows Scenario.demo_result).
Proof.
  apply (generate_contacts_rows_are_profiles Scenario.demo_env Scenario.demo_job
           Scenario.demo_filters "demo-key").
  vm_compute. reflexivity.
Defined.

Lemma prioritize_length (pool : list Row) (target_levels : list string) (m : Z)
    (out : list Row) :
  prioritize_company_rows pool target_levels m = inr out ->
  Z.of_nat (List.length out) <= Z.max 0 m.
Proof.
  unfold prioritize_company_rows.
  destruct ((m <=? 0) || (List.length pool =? 0)%nat) eqn:E.
  { intros H. apply ret_inr in H. subst out. simpl. lia. }
  apply orb_false_iff in E. destruct E as [E _]. apply Z.leb_gt in E.
  destruct (ordered_selected_seniority_levels target_levels) as [|l ls].
  - intros H. apply ret_inr in H. subst out. rewrite length_firstn. lia.
  - unfold bind. destruct (allocate_seniority_quotas (l :: ls) m) as [e|quotas]; [discriminate|].
    intros H. apply ret_inr in H. subst out. rewrite length_firstn. lia.
Qed.

Lemma run_companies_length env job filters key companies rows seen qc rows' qc' :
  run_companies env job filters key companies rows seen qc = inr (rows', qc') ->
  Z.of_nat (List.length rows') <= Z.of_nat (List.length rows)
    + Z.of_nat (List.length companies) * Z.max 0 (max_per_company_of filters).
Proof.
  revert rows seen qc. induction companies as [|c companies IH];
    intros rows seen qc H; simpl in H.
  - injection H as <- _. simpl. lia.
  - unfold bind in H.
    destruct (run_cities env job filters key c _ _ _) as [exn|st] eqn:Hc; [discriminate|].
    destruct (prioritize_company_rows _ _ _) as [exn|picked] eqn:Hp; [discriminate|].
    apply IH in H. rewrite length_app in H.
    pose proof (prioritize_length _ _ _ _ Hp).
    simpl List.length. lia.
Qed.

(** A run returns at most [max(0, max_per_company)] rows per target
    company. *)
Theorem generate_contacts_total_rows (env : Env) (job : JobContext) (filters : Filters)
    (key : string) (res : ContactGenResult) :
  generate_contacts env job filters key = inr res ->
  Z.of_nat (List.length (rows res))
    <= Z.of_nat (List.length (companies_of filters job)) * Z.max 0 (max_per_company_of filters).
Proof.
  intros H. unfold generate_contacts, bind in H.
  destruct (run_companies env job filters key _ [] [] 0) as [exn|[rs qc]] eqn:Hr;
    [discriminate|].
  injection H as <-. simpl.
  rewrite (Permutation_length (sort_by_perm _ _)).
  apply run_companies_length in Hr. simpl in Hr. lia.
Qed.

Lemma generate_contacts_total_rows_witness :
  (Z.of_nat (List.length (rows Scenario.demo_result)) <= 2 * 2)%Z.
Proof.
  exact (generate_contacts_total_rows Scenario.demo_env Scenario.demo_job Scenario.demo_filters
           "demo-key" Scenario.demo_result ltac:(vm_compute; reflexivity)).
Defined.

Lemma run_companies_no_gather env job filters key companies seen qc :
  max_per_company_of filters <= 0 ->
  run_companies env job filters key companies [] seen qc = inr ([], qc).
Proof.
  intros Hm. revert seen.
  assert (Hg : (max_per_company_of filters * 6 <=? 0) = true) by (apply Z.leb_le; lia).
  induction companies as [|c companies IH]; intros seen; [reflexivity|].
  cbn [run_companies].
  destruct (cities_of filters job) as [|city cities] eqn:Eci;
    [now apply RunProofs.cities_of_nonempty in Eci|].
  cbn [run_cities gathered_count]. rewrite Hg. cbn [bind ret company_candidates seen_people query_count].
  unfold prioritize_company_rows. simpl List.length.
  rewrite orb_true_r. apply IH.
Qed.

(** A non-positive per-company cap (only a negative [max_per_company] gives
    one: a zero or missing value means 10) makes [generate_contacts] issue no
    search at all: it returns no row and a query count of 0, and raises
    nothing even with an empty key. *)
Theorem generate_contacts_nonpositive_cap (env : Env) (job : JobContext) (filters : Filters)
    (key : string) :
  max_per_company_of filters <= 0 ->
  generate_contacts env job filters key = inr (mkContactGenResult [] 0).
Proof.
  intros Hm. unfold generate_contacts.
  rewrite run_companies_no_gather by exact Hm. reflexivity.
Qed.

Lemma generate_contacts_nonpositive_cap_witness :
  generate_contacts Scenario.demo_env Scenario.demo_job
    (mkFilters (Some ["Goldman Sachs"]) None None None None (Some (-1)) None None) EmptyString
  = inr (mkContactGenResult [] 0).
Proof.
  apply generate_contacts_nonpositive_cap. vm_compute. discriminate.
Defined.

Lemma run_results_query_count env job filters a b c d e f results st :
  query_count (run_results env job filters a b c d e f results st) = query_count st.
Proof.
  revert st. induction results as [|r results IH]; intros st; simpl; [reflexivity|].
  destruct (_ <=? gathered_count st); [reflexivity|].
  destruct (process_result env job filters a b c d e f r) as [[row k]|]; [|apply IH].
  destruct (mem k (seen_people st)); rewrite IH; reflexivity.
Qed.

Lemma run_levels_query_count env job filters key a b c d lfs st st' :
  run_levels env job filters key a b c d lfs st = inr st' ->
  query_count st' <= query_count st + Z.of_nat (List.length lfs).
Proof.
  revert st. induction lfs as [|lf lfs IH]; intros st H; simpl in H.
  - injection H as <-. simpl. lia.
  - destruct (_ <=? gathered_count st); [injection H as <-; simpl List.length; lia|].
    unfold bind in H. destruct (google_search env _ key 8) as [exn|results]; [discriminate|].
    apply IH in H. rewrite run_results_query_count in H. simpl in H.
    simpl List.length. lia.
Qed.

Lemma run_keywords_query_count env job filters key a b c kws st st' :
  run_keywords env job filters key a b c kws st = inr st' ->
  query_count st' <= query_count st
    + Z.of_nat (List.length kws) * Z.of_nat (List.length (level_filters_of filters)).
Proof.
  revert st. induction kws as [|kw kws IH]; intros st H; simpl in H.
  - injection H as <-. simpl. lia.
  - destruct (_ <=? gathered_count st); [injection H as <-; simpl List.length; lia|].
    unfold bind in H.
    destruct (run_levels env job filters key a b c kw _ st) as [exn|st1] eqn:Hl; [discriminate|].
    apply IH in H. apply run_levels_query_count in Hl. simpl List.length. lia.
Qed.

Lemma run_cities_query_count env job filters key a b cities st st' :
  run_cities env job filters key a b cities st = inr st' ->
  query_count st' <= query_count st
    + Z.of_nat (List.length cities) * (Z.of_nat (List.length (keywords_of env filters job))
                                    * Z.of_nat (List.length (level_filters_of filters))).
Proof.
  revert st. induction cities as [|c cities IH]; intros st H; simpl in H.
  - injection H as <-. simpl. lia.
  - destruct (_ <=? gathered_count st); [injection H as <-; simpl List.length; nia|].
    unfold bind in H.
    destruct (run_keywords env job filters key a b c _ st) as [exn|st1] eqn:Hk; [discriminate|].
    apply IH in H. apply run_keywords_query_count in Hk. simpl List.length. nia.
Qed.

Lemma run_companies_query_count env job filters key companies rows seen qc rows' qc' :
  run_companies env job filters key companies rows seen qc = inr (rows', qc') ->
  qc' <= qc + Z.of_nat (List.length companies)
              * (Z.of_nat (List.length (cities_of filters job))
                 * (Z.of_nat (List.length (keywords_of env filters job))
                    * Z.of_nat (List.length (level_filters_of filters)))).
Proof.
  revert rows seen qc. induction companies as [|c companies IH];
    intros rows seen qc H; simpl in H.
  - injection H as _ <-. simpl. lia.
  - unfold bind in H.
    destruct (run_cities env job filters key c _ _ _) as [exn|st] eqn:Hc; [discriminate|].
    destruct (prioritize_company_rows _ _ _) as [exn|picked]; [discriminate|].
    apply IH in H. apply run_cities_query_count in Hc. simpl in Hc.
    simpl List.length. nia.
Qed.

(** The query count of a run is at most the number of (company, city,
    keyword, level) combinations, with at most eight keywords: the loops
    issue at most one search per combination and stop early once the
    company's gather limit is reached. *)
Theorem generate_contacts_query_count_bound (env : Env) (job : JobContext) (filters : Filters)
    (key : string) (res : ContactGenResult) :
  generate_contacts env job filters key = inr res ->
  result_query_count res
    <= Z.of_nat (List.length (companies_of filters job))
       * Z.of_nat (List.length (cities_of filters job))
       * Z.of_nat (List.length (keywords_of env filters job))
       * Z.of_nat (List.length (level_filters_of filters))
  /\ (List.length (keywords_of env filters job) <= 8)%nat.
Proof.
  intros H. split.
  - unfold generate_contacts, bind in H.
    destruct (run_companies env job filters key _ [] [] 0) as [exn|[rs qc]] eqn:Hr;
      [discriminate|].
    injection H as <-. simpl. apply run_companies_query_count in Hr. lia.
  - unfold keywords_of. rewrite length_firstn. lia.
Qed.

Lemma generate_contacts_query_count_bound_witness :
  result_query_count Scenario.demo_result <= 2 * 1 * 3 * 1.
Proof.
  eapply Z.le_trans;
    [exact (proj1 (generate_contacts_query_count_bound Scenario.demo_env Scenario.demo_job
              Scenario.demo_filters "demo-key" Scenario.demo_result ltac:(vm_compute; reflexivity)))
    | vm_compute; intros H; discriminate].
Defined.

(** The accumulators of the selection passes: [picked_ids] is the set of
    the identities of [picked], which are pairwise distinct. *)
Definition picked_ok (st : Picked) : Prop :=
  snd st = map candidate_row_identity (fst st) /\ NoDup (snd st).

Lemma picked_ok_add (picked : list Row) (ids : list string) (row : Row) :
  picked_ok (picked, ids) -> mem (candidate_row_identity row) ids = false ->
  picked_ok ((picked ++ [row])%list, (ids ++ [candidate_row_identity row])%list).
Proof.
  intros [Hm Hn] Hk. split; simpl in *.
  - rewrite map_app, Hm. reflexivity.
  - apply NoDup_app; [exact Hn | constructor; [intros []|constructor] |].
    intros x Hx [<-|[]]. apply (proj2 (QuotaProofs.mem_In _ _)) in Hx.
    rewrite Hx in Hk. discriminate.
Qed.

Lemma take_with_quota_ok (m q : Z) (rs : list Row) (st : Picked) :
  picked_ok st -> picked_ok (take_with_quota m q rs st).
Proof.
  revert q st. induction rs as [|r rs IH]; intros q [picked ids] Hst; simpl; [exact Hst|].
  destruct (_ || _); [exact Hst|].
  destruct (mem (candidate_row_identity r) ids) eqn:Hk; [apply IH, Hst|].
  apply IH, picked_ok_add; assumption.
Qed.

Lemma backfill_ok (m : Z) (rs : list Row) (st : Picked) :
  picked_ok st -> picked_ok (backfill m rs st).
Proof.
  revert st. induction rs as [|r rs IH]; intros [picked ids] Hst; simpl; [exact Hst|].
  destruct (_ <=? _); [exact Hst|].
  destruct (mem (candidate_row_identity r) ids) eqn:Hk; [apply IH, Hst|].
  apply IH, picked_ok_add; assumption.
Qed.

Lemma quota_pass_ok m grouped quotas levels st :
  picked_ok st -> picked_ok (quota_pass m grouped quotas levels st).
Proof.
  revert st. induction levels as [|l levels IH]; intros st Hst; simpl; [exact Hst|].
  destruct (_ <=? 0); apply IH; [exact Hst | apply take_with_quota_ok, Hst].
Qed.

Lemma backfill_pass_ok m grouped levels st :
  picked_ok st -> picked_ok (backfill_pass m grouped levels st).
Proof.
  revert st. induction levels as [|l levels IH]; intros st Hst; simpl; [exact Hst|].
  destruct (is_full m _); [apply backfill_ok, Hst | apply IH, backfill_ok, Hst].
Qed.

Lemma nodup_firstn {A : Type} (n : nat) (l : list A) : NoDup l -> NoDup (firstn n l).
Proof.
  intros H. rewrite <- (firstn_skipn n l) in H. apply NoDup_app_remove_r in H. exact H.
Qed.

(** Once at least one seniority level is selected, [prioritize_company_rows]
    never returns two rows with the same [candidate_row_identity]: every
    pass skips the rows whose identity is already picked.  (With no level
    selected it returns the best rows of the pool without this test.) *)
Theorem prioritize_distinct_identities (pool : list Row) (target_levels : list string) (m : Z)
    (out : list Row) :
  ordered_selected_seniority_levels target_levels <> [] ->
  prioritize_company_rows pool target_levels m = inr out ->
  NoDup (map candidate_row_identity out).
Proof.
  intros Hsel. unfold prioritize_company_rows.
  destruct ((m <=? 0) || (List.length pool =? 0)%nat).
  { intros H. apply ret_inr in H. subst out. constructor. }
  destruct (ordered_selected_seniority_levels target_levels) as [|l ls]; [congruence|].
  unfold bind. destruct (allocate_seniority_quotas (l :: ls) m) as [e|quotas]; [discriminate|].
  intros H. apply ret_inr in H. subst out.
  rewrite <- firstn_map. apply nodup_firstn.
  match goal with |- NoDup (map _ (sort_by _ (fst ?st))) =>
    assert (Hst : picked_ok st) end.
  { assert (H0 : picked_ok ([], [])) by (split; [reflexivity | constructor]).
    apply (quota_pass_ok m (fun level => sort_by by_fit_then_name
             (filter (fun r => String.eqb (detected_of r) level) pool))
             quotas (l :: ls)) in H0.
    set (st1 := quota_pass _ _ _ _ _) in *.
    assert (H2 : picked_ok (if is_full m st1 then st1 else backfill_pass m (fun level =>
               sort_by by_fit_then_name
                 (filter (fun r => String.eqb (detected_of r) level) pool)) (l :: ls) st1))
      by (destruct (is_full m st1); [exact H0 | apply backfill_pass_ok, H0]).
    set (st2 := if is_full m st1 then st1 else _) in *.
    destruct (is_full m st2); [exact H2 | apply backfill_ok, H2]. }
  destruct Hst as [Hm Hn]. rewrite Hm in Hn.
  eapply Permutation_NoDup; [|exact Hn].
  apply Permutation_map. symmetry. apply sort_by_perm.
Qed.

Lemma prioritize_distinct_identities_witness :
  match prioritize_company_rows (rows Scenario.demo_result) ["Analyst"] 3 return Prop with
  | inr out => NoDup (map candidate_row_identity out)
  | inl _ => False
  end.
Proof.
  assert (E : prioritize_company_rows (rows Scenario.demo_result) ["Analyst"] 3
              = inr (match prioritize_company_rows (rows Scenario.demo_result) ["Analyst"] 3
                     return list Row with inr o => o | inl _ => [] end))
    by (vm_compute; reflexivity).
  rewrite E. cbv beta iota.
  apply (prioritize_distinct_identities (rows Scenario.demo_result) ["Analyst"] 3);
    [vm_compute; discriminate | exact E].
Defined.

End RunFacts.

(* ------------------------------------------------------------------ *)
(** ** Seniority detection and filtering *)

Module SeniorityTextProofs.

Import Regex Seniority SeniorityText QuotaProofs.

Local Open Scope Z_scope.

Lemma search_from_mono (alts1 alts2 : list (string * bool)) (prev : option ascii) (t : string) :
  (forall a, In a alts1 -> In a alts2) ->
  search_from alts1 prev t = true -> search_from alts2 prev t = true.
Proof.
  intros Hinc. revert prev. induction t as [|c t IH]; intros prev H; simpl in *;
    apply orb_true_iff in H; apply orb_true_iff;
    (destruct H as [H|H]; [left; apply existsb_exists in H; destruct H as [a [Ha Hm]];
                           apply existsb_exists; exists a; auto | right]); auto.
Qed.

Lemma search_from_nonempty (alts : list (string * bool)) (prev : option ascii) (t : string) :
  (forall a, In a alts -> fst a <> EmptyString) ->
  search_from alts prev t = true -> t <> EmptyString.
Proof.
  intros Hne H ->. simpl in H. rewrite orb_false_r in H.
  apply existsb_exists in H. destruct H as [[w b] [Ha Hm]].
  apply (Hne _ Ha). simpl. destruct w; [reflexivity|]. discriminate.
Qed.

Ltac nonempty_alts := intros [w b] Ha; simpl in Ha;
  repeat (destruct Ha as [Ha|Ha]; [injection Ha as <- <-; discriminate|]); destruct Ha.

Ltac mentions_from t H :=
  let Hne := fresh in
  assert (Hne : lower t <> EmptyString)
    by (eapply search_from_nonempty; [|exact H]; nonempty_alts);
  apply String.eqb_neq in Hne;
  unfold title_mentions_selected_seniority; rewrite Hne;
  cbn -[search_from lower]; rewrite orb_false_r;
  eapply search_from_mono; [|exact H]; simpl; tauto.

(** [detect_seniority_level] returns one of the six levels of the UI or
    ["Unknown"], and a detected level is always confirmed by that level's
    label pattern: [title_mentions_selected_seniority title [level]] holds. *)
Theorem detect_seniority_consistent (title : string) :
  In (detect_seniority_level title) (SENIORITY_UI_ORDER ++ ["Unknown"])
  /\ (detect_seniority_level title <> "Unknown" ->
      title_mentions_selected_seniority title [detect_seniority_level title] = true).
Proof.
  unfold detect_seniority_level.
  destruct (re_search (words ["managing director"; "md"]) (lower title)) eqn:H1;
    [split; [simpl; tauto | intros _; mentions_from title H1]|].
  destruct (re_search (words ["executive director"]) (lower title)) eqn:H2;
    [split; [simpl; tauto | intros _; mentions_from title H2]|].
  destruct (re_search (words ["vice president"; "vp"]) (lower title)) eqn:H3;
    [split; [simpl; tauto | intros _; mentions_from title H3]|].
  destruct (re_search (words ["principal"]) (lower title)) eqn:H4;
    [split; [simpl; tauto | intros _; mentions_from title H4]|].
  destruct (re_search (words ["director"]) (lower title)) eqn:H5;
    [split; [simpl; tauto | intros _; mentions_from title H5]|].
  destruct (re_search (words ["associate"]) (lower title)) eqn:H6;
    [split; [simpl; tauto | intros _; mentions_from title H6]|].
  destruct (re_search (words ["analyst"]) (lower title)) eqn:H7;
    [split; [simpl; tauto | intros _; mentions_from title H7]|].
  split; [simpl; tauto | intros []; reflexivity].
Qed.

(** For a detected level other than ["Unknown"] (and non-empty),
    [seniority_match_for_mode] accepts exactly when no target level is given
    or the level is one of the targets, in every precision mode: the branch
    that lets ["Unknown"] through in search mode is never reached. *)
Theorem seniority_match_known_level (detected : string) (target_levels : list string)
    (title_text precision_mode : string) :
  detected <> EmptyString -> detected <> "Unknown" ->
  (fst (seniority_match_for_mode detected target_levels title_text precision_mode) = true
   <-> filter TitleParser.nonempty target_levels = [] \/ In detected target_levels).
Proof.
  intros Hd1 Hd2. unfold seniority_match_for_mode.
  destruct (filter TitleParser.nonempty target_levels) as [|t ts] eqn:Ef.
  - simpl. tauto.
  - rewrite (proj2 (String.eqb_neq _ _) Hd1), (proj2 (String.eqb_neq _ _) Hd2). simpl orb.
    assert (Hin : In detected target_levels <-> In detected (t :: ts)).
    { rewrite <- Ef, filter_In. unfold TitleParser.nonempty.
      rewrite (proj2 (String.eqb_neq _ _) Hd1). simpl. tauto. }
    destruct (mem detected (t :: ts)) eqn:Em.
    + simpl. split; [intros _; right; apply Hin, mem_In, Em | reflexivity].
    + assert (Hn : ~ In detected target_levels)
        by (rewrite Hin, <- mem_In, Em; discriminate).
      destruct (forallb _ _); [simpl; split; [discriminate | intros [H|H]; [discriminate | contradiction]]|].
      rewrite andb_false_r. simpl.
      split; [discriminate | intros [H|H]; [discriminate | contradiction]].
Qed.

Lemma seniority_match_known_level_witness :
  fst (seniority_match_for_mode "VP" ["Analyst"; "Associate"] "Vice President" "search") = false.
Proof.
  destruct (fst (seniority_match_for_mode "VP" ["Analyst"; "Associate"] "Vice President" "search"))
    eqn:E; [|reflexivity].
  apply (seniority_match_known_level "VP" ["Analyst"; "Associate"] "Vice President" "search")
    in E; [|discriminate|discriminate].
  exfalso. destruct E as [E|[E|[E|[]]]]; discriminate.
Defined.

Lemma unique_first_incl (seen l : list string) (x : string) :
  In x (unique_first seen l) -> In x l.
Proof.
  revert seen. induction l as [|y l IH]; intros seen H; simpl in H; [exact H|].
  destruct (mem y seen); [right; eapply IH; exact H|].
  destruct H as [H|H]; [left; exact H | right; eapply IH; exact H].
Qed.

Lemma fold_max_ge (f : string -> Z) (l : list string) (x : string) :
  In x l -> f x <= fold_right Z.max (-1) (map f l).
Proof.
  induction l as [|y l IH]; intros H; [destruct H|].
  destruct H as [<-|H]; simpl; [lia|]. specialize (IH H). lia.
Qed.

Definition negatives_table : list (string * string) :=
  flat_map (fun l => map (fun t => (l, t)) (SENIORITY_QUERY_NEGATIVES_BY_LEVEL l))
           SENIORITY_UI_ORDER.

Lemma negatives_in_table (l term : string) :
  In term (SENIORITY_QUERY_NEGATIVES_BY_LEVEL l) -> In (l, term) negatives_table.
Proof.
  intros H. unfold negatives_table. apply in_flat_map.
  exists l. split; [|apply in_map_iff; exists term; split; [reflexivity | exact H]].
  unfold SENIORITY_QUERY_NEGATIVES_BY_LEVEL in H.
  repeat match type of H with
  | context [if String.eqb l ?k then _ else _] =>
      let E := fresh "E" in
      destruct (String.eqb l k) eqn:E; [apply String.eqb_eq in E; subst l; simpl; tauto|]
  end.
  destruct H.
Qed.

(** The negative terms of two levels are disjoint: a term belongs to one
    level only. *)
Lemma negatives_level (l l' term : string) :
  In term (SENIORITY_QUERY_NEGATIVES_BY_LEVEL l) ->
  In term (SENIORITY_QUERY_NEGATIVES_BY_LEVEL l') -> order_index l = order_index l'.
Proof.
  intros H H'. apply negatives_in_table in H, H'.
  assert (Hc : forallb (fun p => forallb (fun p' =>
                 negb (String.eqb (snd p) (snd p')) || (order_index (fst p) =? order_index (fst p')))
                 negatives_table) negatives_table = true) by (vm_compute; reflexivity).
  rewrite forallb_forall in Hc. specialize (Hc _ H). rewrite forallb_forall in Hc.
  specialize (Hc _ H'). simpl in Hc. rewrite String.eqb_refl in Hc. simpl in Hc.
  apply Z.eqb_eq, Hc.
Qed.

Lemma skipn_ui_index (n : nat) (x : string) :
  In x (skipn n SENIORITY_UI_ORDER) -> Z.of_nat n <= order_index x.
Proof.
  intros H.
  do 6 (destruct n as [|n]; [simpl in H;
    repeat (destruct H as [H|H]; [subst x; vm_compute; discriminate|]); destruct H|]).
  destruct n; destruct H.
Qed.

(** [build_seniority_exclusion_query] never excludes a selected level: no
    negative term of a level selected in [target_levels] is among the terms
    the query negates (only levels above the highest selected one are
    excluded, and ["Principal"] only when no director level is selected). *)
Theorem exclusion_spares_selected_levels (target_levels : list string) (level term : string)
    (terms : list string) :
  In level (filter TitleParser.nonempty target_levels) ->
  In term (SENIORITY_QUERY_NEGATIVES_BY_LEVEL level) ->
  exclusion_terms target_levels = Some terms ->
  ~ In term terms.
Proof.
  intros Hl Ht He Hin. unfold exclusion_terms in He.
  assert (Hsel : In level (ordered_selected_seniority_levels
                             (filter TitleParser.nonempty target_levels)))
    by (apply ordered_selected_incl; exact Hl).
  set (levels := ordered_selected_seniority_levels _) in *.
  destruct levels as [|l0 ls] eqn:El; [destruct Hsel|].
  rewrite <- El in *.
  set (h := fold_right Z.max (-1) (map order_index levels)) in *.
  destruct (h <? 0) eqn:Hh; [discriminate|]. apply Z.ltb_ge in Hh.
  injection He as <-. apply unique_first_incl in Hin.
  assert (Hle : order_index level <= h) by (apply fold_max_ge; exact Hsel).
  assert (Hfrom : forall t, In t (flat_map SENIORITY_QUERY_NEGATIVES_BY_LEVEL
                                   (skipn (Z.to_nat (h + 1)) SENIORITY_UI_ORDER)) ->
                  In t (SENIORITY_QUERY_NEGATIVES_BY_LEVEL level) -> False).
  { intros t Hf Hlv. apply in_flat_map in Hf. destruct Hf as [l' [Hs Hl']].
    apply skipn_ui_index in Hs. rewrite Z2Nat.id in Hs by lia.
    pose proof (negatives_level _ _ _ Hlv Hl'). lia. }
  destruct (existsb _ levels) eqn:Ex; [exact (Hfrom _ Hin Ht)|].
  apply in_app_or in Hin. destruct Hin as [Hin|[<-|[]]]; [exact (Hfrom _ Hin Ht)|].
  apply negatives_in_table in Ht. simpl in Ht.
  assert (Hdir : level = "Director").
  { repeat (destruct Ht as [Ht|Ht]; [injection Ht; intros; (discriminate || congruence)|]).
    destruct Ht. }
  subst level.
  (* the selected level is Director *)
  apply Bool.not_true_iff_false in Ex. apply Ex.
  apply existsb_exists. exists "Director". split; [exact Hsel | reflexivity].
Qed.

Lemma exclusion_spares_selected_levels_witness :
  exclusion_terms ["Analyst"; "VP"] = Some [dq ++ "Director" ++ dq; dq ++ "Principal" ++ dq;
     dq ++ "Executive Director" ++ dq; "ED"; dq ++ "Managing Director" ++ dq; "MD"]
  /\ ~ In "VP" [dq ++ "Director" ++ dq; dq ++ "Principal" ++ dq;
     dq ++ "Executive Director" ++ dq; "ED"; dq ++ "Managing Director" ++ dq; "MD"].
Proof.
  split; [vm_compute; reflexivity|].
  apply (exclusion_spares_selected_levels ["Analyst"; "VP"] "VP" "VP").
  - simpl. tauto.
  - simpl. tauto.
  - vm_compute. reflexivity.
Defined.

End SeniorityTextProofs.

(* ------------------------------------------------------------------ *)
(** ** Text normalisation, keyword scoring and company matching *)

Module MatchingProofs.

Import Seniority Matching TitleParser QuotaProofs.

Local Open Scope Z_scope.

(** *** Shape of [normalize_lookup_text] *)

Fixpoint all_chars (p : ascii -> bool) (s : string) : bool :=
  match s with
  | EmptyString => true
  | String c s' => p c && all_chars p s'
  end.

(** No two adjacent spaces. *)
Fixpoint no_double_space (s : string) : bool :=
  match s with
  | String c ((String d _) as s') =>
      negb (Ascii.eqb c " " && Ascii.eqb d " ") && no_double_space s'
  | _ => true
  end.

Definition head_not_space (s : string) : bool :=
  match s with
  | EmptyString => true
  | String c _ => negb (Ascii.eqb c " ")
  end.

Definition alnum_or_ws (c : ascii) : bool := is_lower_alnum c || is_space c.
Definition alnum_or_sp (c : ascii) : bool := is_lower_alnum c || Ascii.eqb c " ".

Lemma all_chars_get (p : ascii -> bool) (s : string) (n : nat) (c : ascii) :
  all_chars p s = true -> String.get n s = Some c -> p c = true.
Proof.
  revert n. induction s as [|d s IH]; intros n H Hg; [destruct n; discriminate|].
  simpl in H. apply andb_prop in H as [Hd Hs].
  destruct n as [|n]; simpl in Hg; [congruence|]. exact (IH n Hs Hg).
Qed.

Lemma all_chars_app (p : ascii -> bool) (a b : string) :
  all_chars p (a ++ b) = all_chars p a && all_chars p b.
Proof. induction a as [|c a IH]; simpl; [reflexivity|]. rewrite IH. apply andb_assoc. Qed.

Lemma no_double_space_app_l (a b : string) :
  no_double_space (a ++ b) = true -> no_double_space a = true.
Proof.
  induction a as [|c a IH]; [reflexivity|].
  destruct a as [|d a]; [reflexivity|].
  change (String c (String d a) ++ b) with (String c (String d a ++ b)).
  cbn [no_double_space]. change (String d a ++ b) with (String d (a ++ b)).
  intros H. apply andb_prop in H as [H1 H2]. rewrite H1. apply IH. exact H2.
Qed.

Lemma no_double_space_app_r (a b : string) :
  no_double_space (a ++ b) = true -> no_double_space b = true.
Proof.
  induction a as [|c a IH]; [tauto|].
  intros H. apply IH. change (String c a ++ b) with (String c (a ++ b)) in H.
  revert H. destruct (a ++ b) as [|d r]; [reflexivity|].
  cbn [no_double_space]. intros H. apply andb_prop in H as [_ H]. exact H.
Qed.

Lemma lstrip_suffix (p : ascii -> bool) (s : string) : exists t, s = t ++ lstrip_by p s.
Proof.
  induction s as [|c s IH]; [exists EmptyString; reflexivity|].
  simpl. destruct (p c).
  - destruct IH as [t Ht]. exists (String c t). simpl. congruence.
  - exists EmptyString. reflexivity.
Qed.

Lemma rstrip_prefix (p : ascii -> bool) (s : string) : exists t, s = rstrip_by p s ++ t.
Proof.
  induction s as [|c s IH]; [exists EmptyString; reflexivity|].
  destruct IH as [t Ht]. rewrite TitleProofs.rstrip_step.
  destruct (String.eqb (rstrip_by p s) EmptyString && p c) eqn:E.
  - apply andb_prop in E as [E _]. apply String.eqb_eq in E. rewrite E in Ht. simpl in Ht.
    exists (String c t). simpl. congruence.
  - exists t. simpl. congruence.
Qed.

Lemma lstrip_first (s : string) :
  lstrip_by is_space s = EmptyString \/ first_nonspace (lstrip_by is_space s) = true.
Proof.
  induction s as [|c s IH]; [left; reflexivity|].
  simpl. destruct (is_space c) eqn:E; [exact IH|]. right. simpl. rewrite E. reflexivity.
Qed.

Lemma rstrip_keeps_first (s : string) :
  first_nonspace s = true -> first_nonspace (rstrip_by is_space s) = true.
Proof.
  destruct s as [|c s]; [discriminate|]. simpl. intros H.
  apply negb_true_iff in H. rewrite H, andb_false_r. simpl. rewrite H. reflexivity.
Qed.

Lemma rstrip_last (s : string) :
  rstrip_by is_space s = EmptyString \/ last_nonspace (rstrip_by is_space s) = true.
Proof.
  induction s as [|c s IH]; [left; reflexivity|].
  rewrite TitleProofs.rstrip_step.
  destruct (String.eqb_spec (rstrip_by is_space s) EmptyString) as [E|E].
  - rewrite E. simpl. destruct (is_space c) eqn:Ec; [left; reflexivity|].
    right. simpl. rewrite Ec. reflexivity.
  - simpl. right. destruct IH as [IH|IH]; [contradiction|].
    destruct (rstrip_by is_space s) as [|d r]; [contradiction|]. exact IH.
Qed.

Lemma strip_ends (s : string) :
  strip s = EmptyString \/ (first_nonspace (strip s) = true /\ last_nonspace (strip s) = true).
Proof.
  unfold strip, strip_by.
  destruct (lstrip_first s) as [E|E].
  - left. rewrite E. reflexivity.
  - destruct (rstrip_last (lstrip_by is_space s)) as [F|F]; [left; exact F|].
    right. split; [apply rstrip_keeps_first, E | exact F].
Qed.

Lemma sub_non_alnum_chars (s : string) : all_chars alnum_or_ws (sub_non_alnum s) = true.
Proof.
  induction s as [|c s IH]; [reflexivity|]. simpl. rewrite IH, andb_true_r.
  unfold alnum_or_ws. destruct (is_lower_alnum c || is_space c) eqn:E; [exact E|reflexivity].
Qed.

Lemma space_is_space : is_space " "%char = true.
Proof. reflexivity. Qed.

Lemma collapse_ws_chars (b : bool) (s : string) :
  all_chars alnum_or_ws s = true -> all_chars alnum_or_sp (collapse_ws b s) = true.
Proof.
  revert b. induction s as [|c s IH]; intros b H; [reflexivity|].
  simpl in H. apply andb_prop in H as [Hc Hs]. simpl.
  destruct (is_space c) eqn:E.
  - destruct b; [apply IH, Hs|]. simpl. apply IH, Hs.
  - simpl. rewrite (IH _ Hs), andb_true_r. unfold alnum_or_ws in Hc. rewrite E, orb_false_r in Hc.
    unfold alnum_or_sp. rewrite Hc. reflexivity.
Qed.

Lemma nonspace_not_blank (c : ascii) : is_space c = false -> Ascii.eqb c " " = false.
Proof. intros H. destruct (Ascii.eqb_spec c " "); [subst; discriminate | reflexivity]. Qed.

Lemma no_double_space_step (c d : ascii) (r : string) :
  no_double_space (String c (String d r))
  = negb (Ascii.eqb c " " && Ascii.eqb d " ") && no_double_space (String d r).
Proof. reflexivity. Qed.

Lemma collapse_ws_shape (b : bool) (s : string) :
  no_double_space (collapse_ws b s) = true
  /\ (b = true -> head_not_space (collapse_ws b s) = true).
Proof.
  revert b. induction s as [|c s IH]; intros b; [split; reflexivity|]. simpl.
  destruct (is_space c) eqn:E.
  - destruct b.
    + apply IH.
    + split; [|discriminate].
      destruct (IH true) as [H1 H2]. specialize (H2 eq_refl).
      destruct (collapse_ws true s) as [|d r] eqn:Ec; [reflexivity|].
      rewrite no_double_space_step, H1, andb_true_r. simpl in H2.
      apply negb_true_iff in H2. rewrite H2, andb_false_r. reflexivity.
  - split; [|intros _; simpl; rewrite nonspace_not_blank by exact E; reflexivity].
    destruct (IH false) as [H1 _].
    destruct (collapse_ws false s) as [|d r] eqn:Ec; [reflexivity|].
    rewrite no_double_space_step, H1, nonspace_not_blank by exact E. reflexivity.
Qed.

Lemma contains_step (sub : string) (c : ascii) (s : string) :
  contains sub (String c s) = prefix sub (String c s) || contains sub s.
Proof. reflexivity. Qed.

Lemma contains_double_space (s : string) :
  no_double_space s = true -> contains "  " s = false.
Proof.
  induction s as [|c s IH]; [reflexivity|].
  intros H. rewrite contains_step.
  destruct s as [|d r].
  - rewrite TitleProofs.prefix_cons. destruct (ascii_dec " " c); reflexivity.
  - rewrite no_double_space_step in H. apply andb_prop in H as [H Hr].
    rewrite (IH Hr), orb_false_r, !TitleProofs.prefix_cons.
    destruct (ascii_dec " " c) as [<-|]; [|reflexivity].
    destruct (ascii_dec " " d) as [<-|]; [vm_compute in H; discriminate|reflexivity].
Qed.

Lemma strip_inherits (s : string) :
  all_chars alnum_or_sp s = true -> no_double_space s = true ->
  all_chars alnum_or_sp (strip s) = true /\ no_double_space (strip s) = true.
Proof.
  intros H1 H2. unfold strip, strip_by.
  destruct (lstrip_suffix is_space s) as [t Ht].
  destruct (rstrip_prefix is_space (lstrip_by is_space s)) as [u Hu].
  rewrite Ht, Hu in H1, H2.
  rewrite all_chars_app, all_chars_app in H1.
  apply andb_prop in H1 as [_ H1]. apply andb_prop in H1 as [H1 _].
  apply no_double_space_app_r, no_double_space_app_l in H2.
  split; assumption.
Qed.

(** [normalize_lookup_text] always returns a canonical token string: only
    lower-case ASCII letters, digits and single spaces, with no space at
    either end. *)
Theorem normalize_lookup_text_shape (value : string) :
  let s := normalize_lookup_text value in
  (forall n c, String.get n s = Some c -> is_lower_alnum c = true \/ c = " "%char)
  /\ contains "  " s = false
  /\ (s = EmptyString \/ (first_nonspace s = true /\ last_nonspace s = true)).
Proof.
  cbv zeta. unfold normalize_lookup_text.
  match goal with |- context [strip (collapse_ws false ?x)] => set (y := collapse_ws false x) end.
  assert (Hc : all_chars alnum_or_sp y = true)
    by (apply collapse_ws_chars, sub_non_alnum_chars).
  destruct (collapse_ws_shape false
              (sub_non_alnum (replace "&" " and " (replace "investment banking" " investment banking ibd "
               (replace "investment banking division" " investment banking ibd "
               (replace "mergers and acquisitions" " mergers acquisitions ma "
               (replace "mergers & acquisitions" " mergers acquisitions ma "
               (replace "m & a" " ma " (replace "m&a" " ma "
               (replace "fixing income" "fixed income" (lower (strip value)))))))))))) as [Hd _].
  fold y in Hd.
  destruct (strip_inherits y Hc Hd) as [H1 H2].
  split; [|split].
  - intros n c Hg. pose proof (all_chars_get _ _ _ _ H1 Hg) as Hp.
    unfold alnum_or_sp in Hp. apply orb_prop in Hp as [Hp|Hp]; [left; exact Hp|].
    right. apply Ascii.eqb_eq, Hp.
  - apply contains_double_space, H2.
  - apply strip_ends.
Qed.

(** *** [keyword_phrase_match_score] *)

Lemma keyword_score_cases (kw title : string) :
  let s := kw_score kw title in
  let o := kw_overlap kw title in
  ((s = 0 /\ o = 0) \/ (s = 100 /\ 1 <= o) \/ ((s = 65 \/ s = 80 \/ s = 85) /\ 1 <= o))
  /\ (s = 100 <-> normalize_lookup_text kw <> EmptyString
                  /\ normalize_lookup_text title <> EmptyString
                  /\ contains (normalize_lookup_text kw) (normalize_lookup_text title) = true).
Proof.
  cbv zeta. unfold kw_score, kw_overlap, keyword_phrase_match_score.
  set (kn := normalize_lookup_text kw). set (tn := normalize_lookup_text title).
  destruct (String.eqb_spec kn EmptyString) as [Ek|Ek];
  [simpl; split; [left; lia | split; [discriminate | tauto]]|].
  destruct (String.eqb_spec tn EmptyString) as [Et|Et];
  [simpl; split; [left; lia | split; [discriminate | tauto]]|].
  cbn [orb]. destruct (contains kn tn) eqn:Ec.
  - cbn [fst snd]. split; [|tauto]. right; left. split; [reflexivity|].
    destruct (Z.of_nat _ =? 0) eqn:E0; [lia|]. apply Z.eqb_neq in E0. lia.
  - match goal with |- context [match ?l with [] => _ | _ :: _ => _ end] =>
      destruct l as [|t0 ts] end.
    + simpl. split; [left; lia | split; [discriminate | intros [_ [_ H]]; discriminate]].
    + match goal with |- context [match ?l with [] => _ | _ :: _ => _ end] =>
        destruct l as [|o0 os] end.
      * simpl. split; [left; lia | split; [discriminate | intros [_ [_ H]]; discriminate]].
      * cbn [fst snd List.length].
        split; [right; right; lia | split; [lia | intros [_ [_ H]]; discriminate]].
Qed.

(** [keyword_phrase_match_score] returns one of five scores: 0 with no
    overlap, 100 with a positive overlap count exactly when the normalised
    keyword occurs in the normalised title (both non-empty), and otherwise
    65, 80 or 85 with a positive overlap count. *)
Theorem keyword_phrase_match_score_values (kw title : string) :
  let s := kw_score kw title in
  let o := kw_overlap kw title in
  ((s = 0 /\ o = 0) \/ (s = 100 /\ 1 <= o) \/ ((s = 65 \/ s = 80 \/ s = 85) /\ 1 <= o))
  /\ (s = 100 <-> normalize_lookup_text kw <> EmptyString
                  /\ normalize_lookup_text title <> EmptyString
                  /\ contains (normalize_lookup_text kw) (normalize_lookup_text title) = true).
Proof. exact (keyword_score_cases kw title). Qed.

(** *** [best_keyword_match] *)

Definition best_inv (title : string) (seen : list string) (st : option string * Z * Z) : Prop :=
  let '(bk, bs, bo) := st in
  0 <= bs
  /\ (bk = None -> bs = 0 /\ bo = 0 /\ forall kw, In kw seen -> kw_score kw title = 0)
  /\ (forall k, bk = Some k -> 0 < bs /\ In k seen /\ kw_score k title = bs
                               /\ kw_overlap k title = bo)
  /\ (forall kw, In kw seen -> kw_score kw title <= bs).

Lemma best_step_inv (title : string) (seen : list string) (st : option string * Z * Z) (kw : string) :
  best_inv title seen st -> best_inv title (seen ++ [kw]) (best_step title st kw).
Proof.
  destruct st as [[bk bs] bo]. intros [H0 [HN [HS HM]]].
  destruct (keyword_score_cases kw title) as [Hc _].
  unfold best_step. unfold kw_score, kw_overlap in Hc.
  destruct (keyword_phrase_match_score kw title) as [[s o] ms] eqn:E. cbn [fst snd] in Hc.
  assert (Hs : kw_score kw title = s) by (unfold kw_score; rewrite E; reflexivity).
  assert (Ho : kw_overlap kw title = o) by (unfold kw_overlap; rewrite E; reflexivity).
  destruct ((bs <? s) || ((s =? bs) && (bo <? o))) eqn:Eu.
  - apply orb_true_iff in Eu. rewrite andb_true_iff, Z.ltb_lt, Z.eqb_eq, Z.ltb_lt in Eu.
    assert (Hpos : 0 < s).
    { destruct Eu as [Eu|[Eu1 Eu2]]; [lia|].
      destruct bk as [k|].
      - destruct (HS k eq_refl) as [Hk _]. lia.
      - destruct (HN eq_refl) as [_ [Hbo _]]. lia. }
    split; [lia|]. split; [discriminate|]. split.
    + intros k Hk. injection Hk as <-. split; [exact Hpos|].
      split; [apply in_or_app; right; left; reflexivity | split; assumption].
    + intros kw' Hin. apply in_app_or in Hin. destruct Hin as [Hin|[<-|[]]]; [|lia].
      specialize (HM _ Hin). destruct Eu as [Eu|[Eu1 Eu2]]; lia.
  - apply orb_false_iff in Eu. destruct Eu as [Eu1 Eu2]. apply Z.ltb_ge in Eu1.
    split; [exact H0|]. split; [|split].
    + intros Hb. destruct (HN Hb) as [Hbs [Hbo Hall]]. split; [exact Hbs|]. split; [exact Hbo|].
      intros kw' Hin. apply in_app_or in Hin. destruct Hin as [Hin|[<-|[]]]; [apply Hall, Hin|].
      rewrite Hs. subst bs bo.
      destruct Hc as [[Hc1 Hc2]|[[Hc1 Hc2]|[Hc1 Hc2]]]; [exact Hc1| |]; lia.
    + intros k Hk. destruct (HS k Hk) as [A [B [C D]]]. split; [exact A|].
      split; [apply in_or_app; left; exact B | split; assumption].
    + intros kw' Hin. apply in_app_or in Hin. destruct Hin as [Hin|[<-|[]]]; [apply HM, Hin|].
      lia.
Qed.

Lemma best_fold_inv (title : string) (l seen : list string) (st : option string * Z * Z) :
  best_inv title seen st -> best_inv title (seen ++ l) (fold_left (best_step title) l st).
Proof.
  revert seen st. induction l as [|kw l IH]; intros seen st H; simpl.
  - rewrite app_nil_r. exact H.
  - replace (app seen (kw :: l)) with (app (app seen [kw]) l) by (rewrite <- app_assoc; reflexivity).
    apply IH, best_step_inv, H.
Qed.

Lemma best_keyword_match_inv (keywords : list string) (title : string) :
  best_inv title keywords (best_keyword_match keywords title).
Proof.
  change keywords with (app [] keywords) at 1. apply best_fold_inv.
  simpl. split; [lia|]. split; [|split].
  - intros _. split; [reflexivity | split; [reflexivity | intros _ []]].
  - discriminate.
  - intros _ [].
Qed.

(** [best_keyword_match] finds nothing exactly when every keyword scores 0
    against the title (then the score and overlap are 0); otherwise the
    keyword it returns is one of the given keywords, the score and overlap
    it returns are that keyword's, and no keyword scores higher. *)
Theorem best_keyword_match_spec (keywords : list string) (title : string) :
  let '(best, best_score, best_overlap) := best_keyword_match keywords title in
  (best = None <-> forall kw, In kw keywords -> kw_score kw title = 0)
  /\ (best = None -> best_score = 0 /\ best_overlap = 0)
  /\ (forall k, best = Some k -> In k keywords /\ kw_score k title = best_score
                                 /\ kw_overlap k title = best_overlap)
  /\ (forall kw, In kw keywords -> kw_score kw title <= best_score).
Proof.
  pose proof (best_keyword_match_inv keywords title) as H.
  destruct (best_keyword_match keywords title) as [[bk bs] bo].
  destruct H as [H0 [HN [HS HM]]].
  split; [|split; [|split]].
  - split; [intros Hb; apply (HN Hb)|].
    intros Hall. destruct bk as [k|]; [|reflexivity].
    destruct (HS k eq_refl) as [Hp [Hk [Hsk _]]]. specialize (Hall _ Hk). lia.
  - intros Hb. destruct (HN Hb) as [A [B _]]. split; assumption.
  - intros k Hk. destruct (HS k Hk) as [_ [A [B C]]]. split; [|split]; assumption.
  - exact HM.
Qed.

(** *** [custom_keyword_precision_match] *)

Lemma in_not_blank (k : string) (ks : list string) :
  In k (filter (fun k => TitleParser.nonempty (strip k)) ks) <-> In k ks /\ strip k <> EmptyString.
Proof.
  rewrite filter_In. unfold TitleParser.nonempty.
  rewrite negb_true_iff, String.eqb_neq. tauto.
Qed.

Lemma best_some_facts (ks : list string) (title bk : string) (bs bo : Z) :
  best_keyword_match (filter (fun k => TitleParser.nonempty (strip k)) ks) title = (Some bk, bs, bo) ->
  In bk ks /\ strip bk <> EmptyString /\ bk <> EmptyString
  /\ kw_score bk title = bs /\ kw_overlap bk title = bo /\ 65 <= bs
  /\ (forall k, In k ks -> strip k <> EmptyString -> kw_score k title <= bs).
Proof.
  intros E. pose proof (best_keyword_match_inv (filter (fun k => TitleParser.nonempty (strip k)) ks) title) as H.
  rewrite E in H. destruct H as [H0 [_ [HS HM]]].
  destruct (HS bk eq_refl) as [Hp [Hin [Hs Ho]]].
  apply in_not_blank in Hin as [Hin Hb].
  split; [exact Hin|]. split; [exact Hb|]. split; [intros ->; apply Hb; reflexivity|].
  split; [exact Hs|]. split; [exact Ho|]. split.
  - destruct (keyword_score_cases bk title) as [Hc _]. cbv zeta in Hc. lia.
  - intros k Hk Hkb. apply HM, in_not_blank. split; assumption.
Qed.

Lemma best_none_facts (ks : list string) (title : string) (bs bo : Z) :
  best_keyword_match (filter (fun k => TitleParser.nonempty (strip k)) ks) title = (None, bs, bo) ->
  bs = 0 /\ bo = 0 /\ (forall k, In k ks -> strip k <> EmptyString -> kw_score k title = 0).
Proof.
  intros E. pose proof (best_keyword_match_inv (filter (fun k => TitleParser.nonempty (strip k)) ks) title) as H.
  rewrite E in H. destruct H as [_ [HN _]]. destruct (HN eq_refl) as [A [B C]].
  split; [exact A|]. split; [exact B|]. intros k Hk Hb. apply C, in_not_blank. split; assumption.
Qed.

Lemma filter_nil_blank (ks : list string) :
  filter (fun k => TitleParser.nonempty (strip k)) ks = [] <-> (forall k, In k ks -> strip k = EmptyString).
Proof.
  split.
  - intros E k Hk. destruct (String.eqb_spec (strip k) EmptyString) as [H|H]; [exact H|].
    assert (Hin : In k (filter (fun k => TitleParser.nonempty (strip k)) ks))
      by (apply in_not_blank; split; assumption).
    rewrite E in Hin. destruct Hin.
  - intros H. destruct (filter (fun k => TitleParser.nonempty (strip k)) ks) as [|k r] eqn:E;
    [reflexivity|]. exfalso.
    assert (Hin : In k (filter (fun k => TitleParser.nonempty (strip k)) ks)) by (rewrite E; left; reflexivity).
    apply in_not_blank in Hin as [Hin Hb]. exact (Hb (H k Hin)).
Qed.

Ltac custom_cases ks title :=
  unfold custom_keyword_precision_match;
  destruct (filter (fun k => TitleParser.nonempty (strip k)) ks) as [|k0 ks0] eqn:Ef;
  [| rewrite <- Ef;
     destruct (best_keyword_match (filter (fun k => TitleParser.nonempty (strip k)) ks) title)
       as [[[bk|] bs] bo] eqn:Eb].

(** [custom_keyword_precision_match] returns the neutral verdict
    [(True, None, 0)] exactly when no custom keyword is left after dropping
    blank ones; any non-blank keyword makes it name a keyword or reject. *)
Theorem custom_keyword_neutral_iff_blank (custom_keywords : list string) (title precision_mode : string) :
  custom_keyword_precision_match custom_keywords title precision_mode = (true, None, 0)
  <-> (forall k, In k custom_keywords -> strip k = EmptyString).
Proof.
  split.
  - intros H. apply filter_nil_blank. revert H. custom_cases custom_keywords title.
    + reflexivity.
    + intros H. exfalso. destruct (best_some_facts _ _ _ _ _ Eb) as [_ [_ [Hne _]]].
      apply String.eqb_neq in Hne. rewrite Hne in H.
      destruct (String.eqb precision_mode "search"); [|destruct (String.eqb precision_mode "balanced")];
      repeat match goal with H : context [if ?b then _ else _] |- _ => destruct b end;
      discriminate.
    + cbn. discriminate.
  - intros H. apply filter_nil_blank in H. unfold custom_keyword_precision_match.
    rewrite H. reflexivity.
Qed.

(** The three precision modes are nested: a title the strict mode accepts
    is accepted by the balanced mode, and one the balanced mode accepts is
    accepted by the search mode. *)
Theorem custom_keyword_modes_nested (custom_keywords : list string) (title : string) :
  (fst (fst (custom_keyword_precision_match custom_keywords title "strict")) = true ->
   fst (fst (custom_keyword_precision_match custom_keywords title "balanced")) = true)
  /\ (fst (fst (custom_keyword_precision_match custom_keywords title "balanced")) = true ->
      fst (fst (custom_keyword_precision_match custom_keywords title "search")) = true).
Proof.
  custom_cases custom_keywords title; [split; reflexivity | | split; discriminate].
  destruct (best_some_facts _ _ _ _ _ Eb) as [_ [_ [Hne [_ [_ [H65 _]]]]]].
  apply String.eqb_neq in Hne. rewrite Hne. cbn -[Z.leb].
  assert (H50 : (50 <=? bs) = true) by (apply Z.leb_le; lia).
  rewrite H50. split; reflexivity.
Qed.

(** In search mode a title is accepted exactly when every custom keyword is
    blank or some non-blank keyword scores above 0 against it. *)
Theorem custom_keyword_search_mode (custom_keywords : list string) (title : string) :
  fst (fst (custom_keyword_precision_match custom_keywords title "search")) = true
  <-> (forall k, In k custom_keywords -> strip k = EmptyString)
      \/ (exists k, In k custom_keywords /\ strip k <> EmptyString /\ 0 < kw_score k title).
Proof.
  pose proof (filter_nil_blank custom_keywords) as Hnil.
  custom_cases custom_keywords title.
  - split; [intros _; left; apply Hnil; reflexivity | reflexivity].
  - destruct (best_some_facts _ _ _ _ _ Eb) as [Hin [Hb [Hne [Hs [_ [H65 _]]]]]].
    apply String.eqb_neq in Hne. rewrite Hne. cbn -[Z.leb].
    assert (H50 : (50 <=? bs) = true) by (apply Z.leb_le; lia).
    rewrite H50. split; [intros _; right; exists bk; split; [exact Hin|split; [exact Hb|lia]] | reflexivity].
  - destruct (best_none_facts _ _ _ _ Eb) as [_ [_ Hz]]. cbn.
    split; [discriminate|]. intros [Hall|[k [Hk [Hkb Hpos]]]].
    + apply Hnil in Hall. rewrite Hall in Ef. discriminate.
    + specialize (Hz k Hk Hkb). lia.
Qed.

(** Whatever the mode, a keyword named in the verdict is one of the
    non-blank custom keywords, the score returned is that keyword's phrase
    score, at least 65, and no non-blank keyword scores higher. *)
Theorem custom_keyword_named_is_best (custom_keywords : list string) (title precision_mode : string)
    (accepted : bool) (k : string) (score : Z) :
  custom_keyword_precision_match custom_keywords title precision_mode = (accepted, Some k, score) ->
  In k custom_keywords /\ strip k <> EmptyString /\ kw_score k title = score /\ 65 <= score
  /\ (forall k', In k' custom_keywords -> strip k' <> EmptyString -> kw_score k' title <= score).
Proof.
  custom_cases custom_keywords title; [discriminate| |].
  - destruct (best_some_facts _ _ _ _ _ Eb) as [Hin [Hb [Hne [Hs [_ [H65 HM]]]]]].
    apply String.eqb_neq in Hne. rewrite Hne.
    intros H.
    assert (E : bk = k /\ bs = score).
    { destruct (String.eqb precision_mode "search"); [|destruct (String.eqb precision_mode "balanced")];
      repeat match goal with H : context [if ?b then _ else _] |- _ => destruct b end;
      injection H as _ <- <-; split; reflexivity. }
    destruct E as [<- <-]. split; [exact Hin|]. split; [exact Hb|]. split; [exact Hs|].
    split; [exact H65 | exact HM].
  - cbn. discriminate.
Qed.

Lemma custom_keyword_named_is_best_witness :
  custom_keyword_precision_match ["Leveraged Finance Markets"] "Leveraged Finance Analyst" "balanced"
  = (true, Some "Leveraged Finance Markets", 65)
  /\ (In "Leveraged Finance Markets" ["Leveraged Finance Markets"]
      /\ strip "Leveraged Finance Markets" <> EmptyString
      /\ kw_score "Leveraged Finance Markets" "Leveraged Finance Analyst" = 65 /\ 65 <= 65
      /\ (forall k', In k' ["Leveraged Finance Markets"] -> strip k' <> EmptyString ->
                     kw_score k' "Leveraged Finance Analyst" <= 65)).
Proof.
  split; [vm_compute; reflexivity|].
  apply (custom_keyword_named_is_best ["Leveraged Finance Markets"] "Leveraged Finance Analyst"
           "balanced" true "Leveraged Finance Markets" 65).
  vm_compute. reflexivity.
Defined.

(** *** [companies_likely_match] *)

Lemma dedup_In (x : string) (l : list string) : In x (Engine.dedup l) <-> In x l.
Proof.
  induction l as [|y l IH]; simpl; [tauto|].
  destruct (mem y l) eqn:E.
  - apply mem_In in E. rewrite IH. split; [tauto|]. intros [<-|H]; assumption.
  - simpl. rewrite IH. tauto.
Qed.

Lemma dedup_NoDup (l : list string) : NoDup (Engine.dedup l).
Proof.
  induction l as [|y l IH]; simpl; [constructor|].
  destruct (mem y l) eqn:E; [exact IH|].
  constructor; [|exact IH]. rewrite dedup_In. intros H. apply mem_In in H. congruence.
Qed.

Lemma inter_size_sym (a b : list string) : Engine.inter_size a b = Engine.inter_size b a.
Proof.
  unfold Engine.inter_size. f_equal. apply Permutation_length, NoDup_Permutation.
  - apply NoDup_filter, dedup_NoDup.
  - apply NoDup_filter, dedup_NoDup.
  - intros x. rewrite !filter_In, !dedup_In, !mem_In. tauto.
Qed.

Lemma subset_single (x y : string) : Engine.inter_size [x] [y] <> 0 -> x = y.
Proof.
  unfold Engine.inter_size. simpl. destruct (String.eqb_spec x y) as [E|E]; [auto|].
  simpl. intros H. exfalso. apply H. reflexivity.
Qed.

(** [companies_likely_match] is symmetric: whether two company names are
    judged to denote the same company does not depend on their order. *)
Theorem companies_likely_match_sym (a b : string) :
  companies_likely_match a b = companies_likely_match b a.
Proof.
  unfold companies_likely_match. cbv zeta.
  set (A := normalize_lookup_text a). set (B := normalize_lookup_text b).
  set (ca := company_acronym a). set (cb := company_acronym b).
  set (aa := Engine.dedup (split_ws A)). set (ba := Engine.dedup (split_ws B)).
  set (ta := meaningful_company_tokens a). set (tb := meaningful_company_tokens b).
  rewrite (orb_comm (String.eqb B EmptyString)).
  destruct (String.eqb A EmptyString || String.eqb B EmptyString); [reflexivity|].
  rewrite (String.eqb_sym B A).
  destruct (String.eqb A B) eqn:EAB; [reflexivity|].
  assert (Hac : TitleParser.nonempty ca && String.eqb ca cb = TitleParser.nonempty cb && String.eqb cb ca).
  { destruct (String.eqb_spec ca cb) as [E|E]; [rewrite E, !String.eqb_refl; reflexivity|].
    rewrite (proj2 (String.eqb_neq cb ca)) by congruence. rewrite !andb_false_r. reflexivity. }
  rewrite Hac. destruct (TitleParser.nonempty cb && String.eqb cb ca); [reflexivity|].
  rewrite (inter_size_sym tb ta).
  destruct ta as [|x ta'] eqn:Ea; destruct tb as [|y tb'] eqn:Eb; try reflexivity.
  destruct (Engine.inter_size (x :: ta') (y :: tb') =? 0) eqn:E0; [reflexivity|].
  apply Z.eqb_neq in E0.
  rewrite (Nat.min_comm (List.length (y :: tb'))).
  rewrite (Z.min_comm (Z.of_nat (List.length (y :: tb')))).
  rewrite (orb_comm (subset (y :: tb') (x :: ta'))).
  set (ea := filter (fun t => negb (mem t ba) && negb (mem t GENERIC_COMPANY_TOKENS)) aa).
  set (eb := filter (fun t => negb (mem t aa) && negb (mem t GENERIC_COMPANY_TOKENS)) ba).
  assert (Hx : match ea, eb with [], [] => false | _, _ => true end
               = match eb, ea with [], [] => false | _, _ => true end)
    by (destruct ea, eb; reflexivity).
  rewrite Hx.
  destruct ta' as [|x2 ta'']; destruct tb' as [|y2 tb'']; try reflexivity.
  cbn [List.length Nat.min Nat.eqb]. rewrite (subset_single x y E0). reflexivity.
Qed.

(** *** [lookup_domain] *)

Lemma lookup_loop_domains (P : string -> Prop) (cn : string) (ct : list string)
    (entries : list (string * string)) (best : option string * Z) :
  (forall k d, In (k, d) entries -> P d) ->
  (forall d, fst best = Some d -> P d) ->
  match lookup_loop cn ct entries best with
  | inl o => forall d, o = Some d -> P d
  | inr (bd, _) => forall d, bd = Some d -> P d
  end.
Proof.
  revert best. induction entries as [|[k dom] rest IH]; intros best He Hb; simpl.
  - destruct best as [bd bs]. exact Hb.
  - assert (He' : forall k d, In (k, d) rest -> P d) by (intros k' d' H; apply (He k' d'); right; exact H).
    destruct (String.eqb (normalize_lookup_text k) EmptyString); [apply IH; assumption|].
    destruct (String.eqb cn (normalize_lookup_text k)).
    + intros d Hd. injection Hd as <-. apply (He k). left. reflexivity.
    + apply IH; [exact He'|].
      destruct (snd best <? domain_key_score cn ct k); [|exact Hb].
      intros d Hd. injection Hd as <-. apply (He k). left. reflexivity.
Qed.

(** [lookup_domain] never invents a domain: whatever it returns is one of
    the domains of [COMPANY_DOMAINS]. *)
Theorem lookup_domain_from_directory (company_name d : string) :
  lookup_domain company_name = Some d -> In d (map snd COMPANY_DOMAINS).
Proof.
  unfold lookup_domain.
  destruct (String.eqb (normalize_lookup_text company_name) EmptyString); [discriminate|].
  pose proof (lookup_loop_domains (fun d => In d (map snd COMPANY_DOMAINS))
                (normalize_lookup_text company_name) (meaningful_company_tokens company_name)
                COMPANY_DOMAINS (None, 0)) as H.
  destruct (lookup_loop _ _ _ _) as [o|[bd bs]].
  - apply H; [intros k d' Hk; apply (in_map snd) in Hk; exact Hk | discriminate].
  - destruct (120 <=? bs); [|discriminate].
    apply H; [intros k d' Hk; apply (in_map snd) in Hk; exact Hk | discriminate].
Qed.

Lemma lookup_domain_from_directory_witness :
  lookup_domain "Goldman Sachs Group" = Some "gs.com" /\ In "gs.com" (map snd COMPANY_DOMAINS).
Proof.
  split; [vm_compute; reflexivity|].
  apply (lookup_domain_from_directory "Goldman Sachs Group"). vm_compute. reflexivity.
Defined.

Lemma lookup_loop_exact (cn : string) (ct : list string) (entries : list (string * string))
    (best : option string * Z) (k d : string) :
  cn <> EmptyString ->
  find (fun e => String.eqb (normalize_lookup_text (fst e)) cn) entries = Some (k, d) ->
  lookup_loop cn ct entries best = inl (Some d).
Proof.
  intros Hcn. revert best. induction entries as [|[k' d'] rest IH]; intros best Hf; [discriminate|].
  simpl in Hf |- *.
  destruct (String.eqb_spec (normalize_lookup_text k') cn) as [E|E].
  - injection Hf as <- <-. rewrite E.
    destruct (String.eqb_spec cn EmptyString) as [|_]; [contradiction|].
    rewrite String.eqb_refl. reflexivity.
  - destruct (String.eqb (normalize_lookup_text k') EmptyString); [apply IH, Hf|].
    rewrite (proj2 (String.eqb_neq cn (normalize_lookup_text k'))) by congruence.
    apply IH, Hf.
Qed.

(** An exact match wins: when the normalised company name equals the
    normalised form of a key of [COMPANY_DOMAINS], [lookup_domain] returns
    the domain of the first such key, whatever the fuzzy scores of the keys
    before it. *)
Theorem lookup_domain_exact_match (company_name key d : string) :
  normalize_lookup_text company_name <> EmptyString ->
  find (fun e => String.eqb (normalize_lookup_text (fst e)) (normalize_lookup_text company_name))
       COMPANY_DOMAINS = Some (key, d) ->
  lookup_domain company_name = Some d.
Proof.
  intros Hn Hf. unfold lookup_domain.
  rewrite (proj2 (String.eqb_neq _ _) Hn).
  rewrite (lookup_loop_exact _ _ _ _ _ _ Hn Hf). reflexivity.
Qed.

Lemma lookup_domain_exact_match_witness :
  normalize_lookup_text " J.P. Morgan " <> EmptyString
  /\ find (fun e => String.eqb (normalize_lookup_text (fst e)) (normalize_lookup_text " J.P. Morgan "))
          COMPANY_DOMAINS = Some ("j.p. morgan", "jpmorgan.com")
  /\ lookup_domain " J.P. Morgan " = Some "jpmorgan.com".
Proof.
  split; [vm_compute; discriminate|]. split; [vm_compute; reflexivity|].
  apply (lookup_domain_exact_match " J.P. Morgan " "j.p. morgan" "jpmorgan.com").
  - vm_compute. discriminate.
  - vm_compute. reflexivity.
Defined.

End MatchingProofs.

(* ------------------------------------------------------------------ *)
(** ** The generate route *)

Module RouterProofs.

Import Rows Engine Seniority Router.

Local Open Scope Z_scope.

Lemma strip_idem (s : string) : strip (strip s) = strip s.
Proof.
  destruct (MatchingProofs.strip_ends s) as [E|[H1 H2]]; [rewrite E; reflexivity|].
  unfold strip at 1, strip_by.
  rewrite (TitleProofs.lstrip_first_nonspace _ H1). apply TitleProofs.rstrip_last_nonspace, H2.
Qed.

Lemma split_csv_clean (s c : string) : In c (split_csv s) -> strip c = c /\ c <> EmptyString.
Proof.
  unfold split_csv. rewrite in_map_iff. intros [x [<- Hx]].
  apply filter_In in Hx as [_ Hx]. unfold TitleParser.nonempty in Hx.
  apply negb_true_iff, String.eqb_neq in Hx. split; [apply strip_idem | exact Hx].
Qed.

Lemma clean_filter_map (l : list string) :
  (forall c, In c l -> strip c = c /\ c <> EmptyString) ->
  map strip (filter (fun c => negb (String.eqb (strip c) EmptyString)) l) = l
  /\ filter (fun c => negb (String.eqb c EmptyString)) l = l.
Proof.
  induction l as [|c l IH]; intros H; [split; reflexivity|].
  destruct (H c (or_introl eq_refl)) as [Hs Hn].
  destruct IH as [IH1 IH2]; [intros x Hx; apply H; right; exact Hx|].
  simpl. rewrite Hs. rewrite (proj2 (String.eqb_neq _ _) Hn). simpl. rewrite Hs, IH1, IH2.
  split; reflexivity.
Qed.

Lemma router_cap (p : Payload) : 3 <= max_per_company_of (router_filters p).
Proof.
  unfold max_per_company_of, router_filters, router_max_per_company. cbn [f_max_per_company].
  destruct (Z.max 1 _ + 2 =? 0) eqn:E; [lia|].
  lia.
Qed.

(** The route hands the engine exactly the parsed comma-separated lists:
    the listed companies (a single empty company name when the list is
    blank), the listed cities (["New York"] when blank), the listed
    seniority levels (Analyst and Associate when blank), and a per-company
    cap of at least 3. *)
Theorem route_engine_inputs (p : Payload) :
  companies_of (router_filters p) (router_job p)
    = match split_csv (p_company_list p) with [] => [EmptyString] | l => l end
  /\ cities_of (router_filters p) (router_job p)
    = match split_csv (p_location_list p) with [] => ["New York"] | l => l end
  /\ level_filters_of (router_filters p)
    = match split_csv (p_seniority_levels p) with [] => ["Analyst"; "Associate"] | l => l end
  /\ 3 <= max_per_company_of (router_filters p).
Proof.
  split; [|split; [|split]].
  - unfold companies_of, router_filters, router_job. cbn [f_companies job_company].
    pose proof (split_csv_clean (p_company_list p)) as Hc.
    destruct (split_csv (p_company_list p)) as [|c cs] eqn:E; [reflexivity|].
    destruct (clean_filter_map (c :: cs) Hc) as [H1 _]. rewrite H1. reflexivity.
  - unfold cities_of, router_filters, router_job. cbn [f_selected_cities job_city].
    pose proof (split_csv_clean (p_location_list p)) as Hc.
    destruct (split_csv (p_location_list p)) as [|c cs] eqn:E; [reflexivity|].
    destruct (clean_filter_map (c :: cs) Hc) as [_ H2]. rewrite H2. reflexivity.
  - unfold level_filters_of, levels_of, router_filters, router_levels. cbn [f_seniority_levels].
    destruct (split_csv (p_seniority_levels p)); reflexivity.
  - apply router_cap.
Qed.

(** With [avoid_duplicates], no saved contact has an email among the
    previously sent ones. *)
Theorem route_avoids_sent_emails (env : Env) (key : string) (session_user_id : option Z)
    (campaigns : list (Z * Z)) (p : Payload) (sent_emails : list string) (saved : list Row) :
  p_avoid_duplicates p = true ->
  router_generate env key session_user_id campaigns p sent_emails = inr saved ->
  forall r, In r saved -> ~ In (email r) sent_emails.
Proof.
  intros Ha Hr. unfold router_generate in Hr. rewrite Ha in Hr.
  unfold bind at 1 in Hr. destruct (require_user session_user_id) as [e|uid]; [discriminate|].
  unfold bind at 1 in Hr. destruct (check_campaign campaigns uid p) as [e|[]]; [discriminate|].
  unfold bind in Hr.
  destruct (generate_contacts env (router_job p) (router_filters p) key) as [e|res]; [discriminate|].
  injection Hr as <-. intros r Hin Hs.
  unfold py_slice_to in Hin.
  destruct (0 <=? p_target_count p); apply PrioritizeProofs.in_firstn in Hin;
  apply filter_In in Hin as [_ Hin]; apply negb_true_iff in Hin;
  apply QuotaProofs.mem_In in Hs; congruence.
Qed.

Lemma route_avoids_sent_emails_witness :
  exists saved,
    router_generate Scenario.demo_env "demo-key" (Some 1) []
      (mkPayload None "Campaign" "Zorblax" EmptyString "New York" EmptyString "Analyst" 5 true)
      ["pat.kim@zorblax.com"] = inr saved
    /\ saved <> []
    /\ forall r, In r saved -> ~ In (email r) ["pat.kim@zorblax.com"].
Proof.
  exists (match router_generate Scenario.demo_env "demo-key" (Some 1) []
             (mkPayload None "Campaign" "Zorblax" EmptyString "New York" EmptyString "Analyst" 5 true)
             ["pat.kim@zorblax.com"] with inr l => l | inl _ => [] end).
  split; [vm_compute; reflexivity|]. split; [vm_compute; discriminate|].
  apply (route_avoids_sent_emails Scenario.demo_env "demo-key" (Some 1) []
           (mkPayload None "Campaign" "Zorblax" EmptyString "New York" EmptyString "Analyst" 5 true)
           ["pat.kim@zorblax.com"]); [reflexivity | vm_compute; reflexivity].
Defined.

Lemma slice_prefix_length {A : Type} (l : list A) (t : Z) :
  (exists rest, l = app (py_slice_to l t) rest)
  /\ Z.of_nat (List.length (py_slice_to l t))
     = if 0 <=? t then Z.min t (Z.of_nat (List.length l))
       else Z.max 0 (Z.of_nat (List.length l) + t).
Proof.
  unfold py_slice_to. destruct (0 <=? t) eqn:Et.
  - split; [exists (skipn (Z.to_nat t) l); symmetry; apply firstn_skipn|].
    apply Z.leb_le in Et. rewrite length_firstn. lia.
  - split; [exists (skipn (List.length l - Z.to_nat (- t)) l); symmetry; apply firstn_skipn|].
    apply Z.leb_gt in Et. rewrite length_firstn. lia.
Qed.

(** The saved contacts are the first rows of the engine's result, in its
    order, after dropping previously sent emails (with [avoid_duplicates]);
    their number follows Python's slice [[:target_count]]: at most
    [target_count] rows for a non-negative count, and for a negative count
    every row but the last [-target_count]. *)
Theorem route_saved_rows (env : Env) (key : string) (session_user_id : option Z)
    (campaigns : list (Z * Z)) (p : Payload) (sent_emails : list string) (saved : list Row) :
  router_generate env key session_user_id campaigns p sent_emails = inr saved ->
  exists res,
    generate_contacts env (router_job p) (router_filters p) key = inr res
    /\ (exists rest,
          (if p_avoid_duplicates p
           then filter (fun c => negb (mem (email c) sent_emails)) (rows res)
           else rows res) = app saved rest)
    /\ Z.of_nat (List.length saved)
       = (let n := Z.of_nat (List.length
                     (if p_avoid_duplicates p
                      then filter (fun c => negb (mem (email c) sent_emails)) (rows res)
                      else rows res)) in
          if 0 <=? p_target_count p then Z.min (p_target_count p) n
          else Z.max 0 (n + p_target_count p)).
Proof.
  unfold router_generate. intros Hr.
  unfold bind at 1 in Hr. destruct (require_user session_user_id) as [e|uid]; [discriminate|].
  unfold bind at 1 in Hr. destruct (check_campaign campaigns uid p) as [e|[]]; [discriminate|].
  unfold bind in Hr.
  destruct (generate_contacts env (router_job p) (router_filters p) key) as [e|res]; [discriminate|].
  injection Hr as <-. exists res. split; [reflexivity|].
  apply slice_prefix_length.
Qed.

Lemma route_saved_rows_witness :
  exists saved,
    router_generate Scenario.demo_env "demo-key" (Some 1) []
      (mkPayload None "Campaign" "Zorblax" EmptyString "New York" EmptyString "Analyst" (-1) false)
      [] = inr saved
    /\ saved = []
    /\ exists res,
         generate_contacts Scenario.demo_env
           (router_job (mkPayload None "Campaign" "Zorblax" EmptyString "New York" EmptyString
                          "Analyst" (-1) false))
           (router_filters (mkPayload None "Campaign" "Zorblax" EmptyString "New York" EmptyString
                              "Analyst" (-1) false)) "demo-key" = inr res
         /\ (exists rest, rows res = app saved rest)
         /\ Z.of_nat (List.length saved)
            = Z.max 0 (Z.of_nat (List.length (rows res)) + (-1)).
Proof.
  exists [].
  split; [vm_compute; reflexivity|]. split; [reflexivity|].
  exact (route_saved_rows Scenario.demo_env "demo-key" (Some 1) []
           (mkPayload None "Campaign" "Zorblax" EmptyString "New York" EmptyString "Analyst" (-1) false)
           [] [] ltac:(vm_compute; reflexivity)).
Defined.

(** The route catches no search failure: once the request is
    authenticated and its campaign, if one is named, is found, when every
    search call raises (an empty key raises [ValueError], a rejected
    request [HTTPError]), the route raises the same exception and saves
    nothing. *)
Theorem route_propagates_search_errors (env : Env) (key : string) (user_id : Z)
    (campaigns : list (Z * Z)) (p : Payload) (sent_emails : list string) (e : Exc) :
  user_id <> 0 ->
  match p_campaign_id p with
  | Some cid => cid = 0 \/ In (cid, user_id) campaigns
  | None => True
  end ->
  (forall q, google_search env q key 8 = inl e) ->
  router_generate env key (Some user_id) campaigns p sent_emails = inl e.
Proof.
  intros Hu Hc Hs. unfold router_generate, require_user.
  rewrite (proj2 (Z.eqb_neq _ _) Hu). cbn [bind ret].
  unfold check_campaign.
  destruct (p_campaign_id p) as [cid|].
  - destruct (cid =? 0) eqn:E0.
    + cbn [bind ret].
      rewrite (RunProofs.generate_contacts_search_error env (router_job p) (router_filters p) key e);
        [reflexivity | pose proof (router_cap p); lia | exact Hs].
    + destruct Hc as [Hc|Hc]; [apply Z.eqb_neq in E0; contradiction|].
      assert (Hx : existsb (fun c => (fst c =? cid) && (snd c =? user_id)) campaigns = true).
      { apply existsb_exists. exists (cid, user_id). split; [exact Hc|].
        cbn [fst snd]. rewrite !Z.eqb_refl. reflexivity. }
      rewrite Hx. cbn [bind ret].
      rewrite (RunProofs.generate_contacts_search_error env (router_job p) (router_filters p) key e);
        [reflexivity | pose proof (router_cap p); lia | exact Hs].
  - cbn [bind ret].
    rewrite (RunProofs.generate_contacts_search_error env (router_job p) (router_filters p) key e);
      [reflexivity | pose proof (router_cap p); lia | exact Hs].
Qed.

Lemma route_propagates_search_errors_witness :
  router_generate Scenario.demo_env "rejected-key" (Some 1) [(7, 1)]
    (mkPayload (Some 7) "Campaign" "Zorblax" EmptyString "New York" EmptyString "Analyst" 5 true) []
  = inl (HTTPError 401).
Proof.
  apply route_propagates_search_errors; [lia | right; left; reflexivity |].
  intros q. reflexivity.
Defined.

(** [generate] first requires a logged-in user: a session without a
    [user_id] (or with the id 0) gets [HTTPException(401)], whatever the
    payload.  A logged-in user who names a non-zero [campaign_id] that is
    not one of their campaigns gets [HTTPException(404)]; both are raised
    before any search. *)
Theorem route_requires_user_and_campaign (env : Env) (key : string)
    (session_user_id : option Z) (campaigns : list (Z * Z)) (p : Payload)
    (sent_emails : list string) :
  ((session_user_id = None \/ session_user_id = Some 0) ->
   router_generate env key session_user_id campaigns p sent_emails
   = inl (HTTPException 401 "Not authenticated"))
  /\ (forall user_id cid,
        session_user_id = Some user_id -> user_id <> 0 ->
        p_campaign_id p = Some cid -> cid <> 0 -> ~ In (cid, user_id) campaigns ->
        router_generate env key session_user_id campaigns p sent_emails
        = inl (HTTPException 404 "Campaign not found")).
Proof.
  split.
  - intros [-> | ->]; reflexivity.
  - intros user_id cid -> Hu Hp Hc Hn. unfold router_generate, require_user.
    rewrite (proj2 (Z.eqb_neq _ _) Hu). cbn [bind ret].
    unfold check_campaign. rewrite Hp, (proj2 (Z.eqb_neq _ _) Hc).
    destruct (existsb (fun c => (fst c =? cid) && (snd c =? user_id)) campaigns) eqn:Ex;
      [|reflexivity].
    exfalso. apply Hn. apply existsb_exists in Ex. destruct Ex as [[i u] [Hin Hiu]].
    cbn [fst snd] in Hiu. apply andb_prop in Hiu. destruct Hiu as [Hi Hu'].
    apply Z.eqb_eq in Hi, Hu'. subst. exact Hin.
Qed.

Lemma route_requires_user_and_campaign_witness :
  router_generate Scenario.demo_env "demo-key" None []
    (mkPayload None "Campaign" "Zorblax" EmptyString "New York" EmptyString "Analyst" 5 true) []
  = inl (HTTPException 401 "Not authenticated")
  /\ router_generate Scenario.demo_env "demo-key" (Some 1) [(7, 2)]
    (mkPayload (Some 7) "Campaign" "Zorblax" EmptyString "New York" EmptyString "Analyst" 5 true) []
  = inl (HTTPException 404 "Campaign not found").
Proof.
  split.
  - apply (route_requires_user_and_campaign Scenario.demo_env "demo-key" None []
             (mkPayload None "Campaign" "Zorblax" EmptyString "New York" EmptyString "Analyst" 5 true)
             []).
    left. reflexivity.
  - apply (route_requires_user_and_campaign Scenario.demo_env "demo-key" (Some 1) [(7, 2)]
             (mkPayload (Some 7) "Campaign" "Zorblax" EmptyString "New York" EmptyString "Analyst" 5 true)
             [] ) with (user_id := 1) (cid := 7); [reflexivity | lia | reflexivity | lia |].
    intros [H|[]]. discriminate.
Defined.

End RouterProofs.

(* ------------------------------------------------------------------ *)
(** ** Level ordering and quota allocation *)

Module SeniorityFacts.

Import Seniority SeniorityText QuotaProofs.

Local Open Scope Z_scope.

(** *** [ordered_selected_seniority_levels] *)

Lemma second_pass_unique (L xs u : list string) :
  fold_left (add_level L false) xs (u, u)
  = (app u (unique_first u xs), app u (unique_first u xs)).
Proof.
  revert u. induction xs as [|x xs IH]; intros u; simpl; [rewrite app_nil_r; reflexivity|].
  destruct (mem x u) eqn:E; simpl.
  - apply IH.
  - rewrite IH, <- app_assoc. reflexivity.
Qed.

Lemma first_pass_unique (L xs u : list string) :
  fold_left (add_level L true) xs (u, u)
  = (app u (unique_first u (filter (fun l => mem l L) xs)),
     app u (unique_first u (filter (fun l => mem l L) xs))).
Proof.
  revert u. induction xs as [|x xs IH]; intros u; simpl; [rewrite app_nil_r; reflexivity|].
  destruct (mem x L) eqn:EL; simpl.
  - destruct (mem x u) eqn:E; simpl.
    + apply IH.
    + rewrite IH, <- app_assoc. reflexivity.
  - apply IH.
Qed.

Lemma unique_first_fresh (seen l : list string) :
  NoDup l -> (forall x, In x l -> ~ In x seen) -> unique_first seen l = l.
Proof.
  revert seen. induction l as [|x l IH]; intros seen Hn Hf; [reflexivity|].
  inversion Hn as [|? ? Hx Hl]; subst. simpl.
  destruct (mem x seen) eqn:E.
  - apply mem_In in E. exfalso. exact (Hf x (or_introl eq_refl) E).
  - f_equal. apply IH; [exact Hl|].
    intros y Hy Hs. apply in_app_or in Hs. destruct Hs as [Hs|[<-|[]]].
    + exact (Hf y (or_intror Hy) Hs).
    + contradiction.
Qed.

Lemma unique_first_skip_known (S l added : list string) :
  (forall x, In x S -> In x SENIORITY_UI_ORDER) ->
  (forall x, In x l -> In x SENIORITY_UI_ORDER -> In x S) ->
  (forall x, In x added -> ~ In x SENIORITY_UI_ORDER) ->
  unique_first (app S added) l
  = unique_first added (filter (fun x => negb (mem x SENIORITY_UI_ORDER)) l).
Proof.
  intros HS. revert added. induction l as [|x l IH]; intros added Hl Ha; [reflexivity|].
  cbn [filter unique_first]. destruct (mem x SENIORITY_UI_ORDER) eqn:EU; cbn [negb].
  - apply mem_In in EU.
    assert (Hm : mem x (app S added) = true)
      by (apply mem_In, in_or_app; left; apply Hl; [left; reflexivity | exact EU]).
    rewrite Hm. apply IH; [intros y Hy; apply Hl; right; exact Hy | exact Ha].
  - assert (Hm : mem x (app S added) = mem x added).
    { destruct (mem x added) eqn:Ea.
      - apply mem_In, in_or_app. right. apply mem_In, Ea.
      - destruct (mem x (app S added)) eqn:Esa; [|reflexivity].
        apply mem_In, in_app_or in Esa. destruct Esa as [Es|Es].
        + apply HS, mem_In in Es. congruence.
        + apply mem_In in Es. congruence. }
    rewrite Hm. cbn [unique_first]. destruct (mem x added); [apply IH; [intros y Hy; apply Hl; right; exact Hy | exact Ha]|].
    f_equal. rewrite <- app_assoc. apply IH; [intros y Hy; apply Hl; right; exact Hy|].
    intros y Hy. apply in_app_or in Hy. destruct Hy as [Hy|[<-|[]]]; [apply Ha, Hy|].
    intros Hin. apply mem_In in Hin. congruence.
Qed.

(** [ordered_selected_seniority_levels] lists the known levels selected, in
    the UI order (Analyst, Associate, VP, Director, Executive Director,
    Managing Director), followed by the other selected values in the order
    of their first occurrence, each value once. *)
Theorem ordered_selected_levels_layout (levels : list string) :
  ordered_selected_seniority_levels levels
  = app (filter (fun l => mem l levels) SENIORITY_UI_ORDER)
        (unique_first [] (filter (fun l => negb (mem l SENIORITY_UI_ORDER)) levels)).
Proof.
  unfold ordered_selected_seniority_levels.
  rewrite first_pass_unique. cbn [app].
  set (S := filter (fun l => mem l levels) SENIORITY_UI_ORDER).
  assert (HS : unique_first [] S = S).
  { apply unique_first_fresh; [|intros x _ []].
    apply NoDup_filter. unfold SENIORITY_UI_ORDER.
    repeat constructor; simpl; intuition discriminate. }
  rewrite HS, second_pass_unique. cbn [fst]. f_equal.
  rewrite <- (app_nil_r S) at 1.
  apply unique_first_skip_known.
  - intros x Hx. apply filter_In in Hx. apply Hx.
  - intros x Hx Hu. apply filter_In. split; [exact Hu | apply mem_In, Hx].
  - intros x [].
Qed.

(** *** [allocate_seniority_quotas] *)

Lemma incr_at_other (i j : nat) (q : list Z) :
  i <> j -> nth i (incr_at j q) 0 = nth i q 0.
Proof.
  revert i j. induction q as [|x q IH]; intros i j H; [destruct j; reflexivity|].
  destruct j as [|j]; destruct i as [|i]; simpl; try reflexivity; [lia|].
  apply IH. lia.
Qed.

Lemma incr_at_same (i : nat) (q : list Z) :
  nth i (incr_at i q) 0 = nth i q 0 \/ nth i (incr_at i q) 0 = nth i q 0 + 1.
Proof.
  revert i. induction q as [|x q IH]; intros i; [destruct i; left; reflexivity|].
  destruct i as [|i]; simpl; [right; reflexivity | apply IH].
Qed.

Lemma distribute_untouched (t : Z) (order : list nat) (q : list Z) (a : Z) (i : nat) :
  ~ In i order -> nth i (distribute t order q a) 0 = nth i q 0.
Proof.
  revert q a. induction order as [|j order IH]; intros q a H; simpl; [reflexivity|].
  destruct (t <=? a); [reflexivity|].
  rewrite IH by (intros Hin; apply H; right; exact Hin).
  apply incr_at_other. intros ->. apply H. left. reflexivity.
Qed.

Lemma distribute_at_most_one (t : Z) (order : list nat) (q : list Z) (a : Z) (i : nat) :
  NoDup order ->
  nth i (distribute t order q a) 0 = nth i q 0 \/ nth i (distribute t order q a) 0 = nth i q 0 + 1.
Proof.
  revert q a. induction order as [|j order IH]; intros q a Hn; simpl; [left; reflexivity|].
  inversion Hn as [|? ? Hj Ho]; subst.
  destruct (t <=? a); [left; reflexivity|].
  destruct (Nat.eq_dec i j) as [->|Hij].
  - rewrite distribute_untouched by exact Hj. apply incr_at_same.
  - rewrite <- (incr_at_other i j q Hij). apply IH, Ho.
Qed.

Lemma nth_map_lt {A B : Type} (f : A -> B) (l : list A) (d : A) (d' : B) (i : nat) :
  (i < List.length l)%nat -> nth i (map f l) d' = f (nth i l d).
Proof.
  intros H. rewrite (nth_indep _ d' (f d)) by (rewrite length_map; exact H).
  apply map_nth.
Qed.

(** Largest-remainder rounding: the quota of every selected level is its
    share [total_slots * (w / W)] (a float, computed as the source does)
    truncated by [int], or that plus one, where [w] is the level's weight and
    [W] the total weight of the selected levels. *)
Theorem allocate_quotas_trunc_or_next (target_levels : list string) (total_slots : Z)
    (res : list (string * Z)) (level : string) (quota : Z) :
  allocate_seniority_quotas target_levels total_slots = inr res ->
  In (level, quota) res ->
  let W := sumZ (map (fun l => assoc_get l SENIORITY_DISTRIBUTION_WEIGHTS 1)
                     (ordered_selected_seniority_levels target_levels)) in
  exists v q, exact_share total_slots (assoc_get level SENIORITY_DISTRIBUTION_WEIGHTS 1) W = inr v
              /\ PyFloat.int_of_float v = inr q /\ (quota = q \/ quota = q + 1).
Proof.
  intros Ha Hin W.
  unfold allocate_seniority_quotas in Ha. cbv zeta in Ha.
  destruct ((total_slots <=? 0)
            || (List.length (ordered_selected_seniority_levels target_levels) =? 0)%nat) eqn:G.
  { apply ret_inr in Ha. subst res. destruct Hin. }
  apply orb_false_iff in G. destruct G as [_ G].
  assert (Hne : ordered_selected_seniority_levels target_levels <> [])
    by (intros E; rewrite E in G; discriminate).
  set (selected := ordered_selected_seniority_levels target_levels) in *.
  set (ws := map (fun level => assoc_get level SENIORITY_DISTRIBUTION_WEIGHTS 1) selected) in *.
  assert (HW : 0 < sumZ ws) by (apply weight_sum_pos, Hne).
  rewrite (proj2 (Z.eqb_neq (sumZ ws) 0) ltac:(lia)) in Ha.
  change (sumZ ws) with W in Ha.
  unfold bind at 1 in Ha.
  destruct (mapM (fun w => exact_share total_slots w W) ws) as [e|exacts] eqn:Hex; [discriminate|].
  unfold bind at 1 in Ha.
  destruct (mapM PyFloat.int_of_float exacts) as [e|quotas] eqn:Hq; [discriminate|].
  unfold bind in Ha.
  destruct (mapM _ (combine exacts quotas)) as [e|rems] eqn:Hr; [discriminate|].
  apply ret_inr in Ha. subst res.
  apply mapM_inr in Hex, Hq, Hr.
  assert (Hn : List.length ws = List.length selected) by (unfold ws; apply length_map).
  assert (Hle : List.length exacts = List.length selected)
    by (rewrite <- (Forall2_length Hex); exact Hn).
  assert (Hlq : List.length quotas = List.length selected)
    by (rewrite <- (Forall2_length Hq); exact Hle).
  assert (Hlr : List.length rems = List.length selected)
    by (rewrite <- (Forall2_length Hr), length_combine, Hle, Hlq; apply Nat.min_id).
  set (order := map snd (sort_by remainder_before (combine rems (seq 0 (List.length selected))))) in *.
  assert (Hlen : List.length (distribute total_slots order quotas (sumZ quotas))
                 = List.length selected)
    by (rewrite distribute_length; exact Hlq).
  apply (In_nth _ _ (EmptyString, 0)) in Hin. destruct Hin as [i [Hi Hnth]].
  rewrite combine_nth in Hnth by (symmetry; exact Hlen).
  injection Hnth as Hl Hquota.
  rewrite length_combine, Hlen, Nat.min_id in Hi.
  assert (Hnd : NoDup order).
  { unfold order. eapply Permutation_NoDup.
    - symmetry. apply Permutation_map, sort_by_perm.
    - rewrite map_snd_combine; [apply seq_NoDup|]. rewrite length_seq. exact Hlr. }
  exists (nth i exacts S754_nan), (nth i quotas 0).
  split; [|split].
  - pose proof (Forall2_nth_lt _ _ _ 0 S754_nan i Hex ltac:(lia)) as H. cbv beta in H.
    replace (assoc_get level SENIORITY_DISTRIBUTION_WEIGHTS 1) with (nth i ws 0); [exact H|].
    unfold ws. rewrite (nth_map_lt _ _ EmptyString) by exact Hi.
    rewrite Hl. reflexivity.
  - apply (Forall2_nth_lt (fun x y => PyFloat.int_of_float x = inr y) _ _ S754_nan 0 i Hq). lia.
  - rewrite <- Hquota. apply distribute_at_most_one, Hnd.
Qed.

Lemma allocate_quotas_trunc_or_next_witness :
  exists v q,
    exact_share 7 (assoc_get "Analyst" SENIORITY_DISTRIBUTION_WEIGHTS 1)
      (sumZ (map (fun l => assoc_get l SENIORITY_DISTRIBUTION_WEIGHTS 1)
                 (ordered_selected_seniority_levels ["Analyst"; "Associate"; "VP"]))) = inr v
    /\ PyFloat.int_of_float v = inr q /\ (4 = q \/ 4 = q + 1).
Proof.
  exact (allocate_quotas_trunc_or_next ["Analyst"; "Associate"; "VP"] 7
           [("Analyst", 4); ("Associate", 2); ("VP", 1)] "Analyst" 4
           ltac:(vm_compute; reflexivity) ltac:(left; reflexivity)).
Defined.

End SeniorityFacts.

(* ------------------------------------------------------------------ *)
(** ** Cleaned e-mail parts *)

Module EmailShape.

Import Email CharClass.

Lemma char_clean_out (c : ascii) :
  email_char_kept c && negb (is_apostrophe c) = true -> email_out_char (lower_char c) = true.
Proof. destruct c as [[] [] [] [] [] [] [] []]; vm_compute; congruence. Qed.

Lemma char_hyphen_lower (c : ascii) : is_hyphen (lower_char c) = is_hyphen c.
Proof. destruct c as [[] [] [] [] [] [] [] []]; reflexivity. Qed.

Lemma char_out_fixed (c : ascii) :
  email_out_char c = true ->
  email_char_kept c = true /\ is_apostrophe c = false /\ lower_char c = c.
Proof. destruct c as [[] [] [] [] [] [] [] []]; vm_compute; intuition congruence. Qed.

Lemma all_chars_filter (p q : ascii -> bool) (s : string) :
  all_chars p s = true -> all_chars (fun c => p c && q c) (filter_chars q s) = true.
Proof.
  induction s as [|c s IH]; simpl; [reflexivity|].
  intros H. apply andb_prop in H as [H1 H2].
  destruct (q c) eqn:E; simpl; [rewrite H1, E, IH by exact H2; reflexivity | apply IH, H2].
Qed.

Lemma all_chars_filter_self (p : ascii -> bool) (s : string) :
  all_chars p (filter_chars p s) = true.
Proof.
  induction s as [|c s IH]; simpl; [reflexivity|].
  destruct (p c) eqn:E; simpl; [rewrite E, IH; reflexivity | exact IH].
Qed.

Lemma all_chars_lstrip (p q : ascii -> bool) (s : string) :
  all_chars p s = true -> all_chars p (lstrip_by q s) = true.
Proof.
  induction s as [|c s IH]; simpl; [reflexivity|].
  intros H. destruct (q c); [apply IH; apply andb_prop in H; apply H | exact H].
Qed.

Lemma all_chars_rstrip (p q : ascii -> bool) (s : string) :
  all_chars p s = true -> all_chars p (rstrip_by q s) = true.
Proof.
  induction s as [|c s IH]; simpl; [reflexivity|].
  intros H. apply andb_prop in H as [H1 H2].
  destruct ((rstrip_by q s =? EmptyString) && q c); [reflexivity|].
  simpl. rewrite H1, IH by exact H2. reflexivity.
Qed.

Lemma all_chars_lower (p p' : ascii -> bool) (s : string) :
  (forall c, p c = true -> p' (lower_char c) = true) ->
  all_chars p s = true -> all_chars p' (lower s) = true.
Proof.
  intros Hc. induction s as [|c s IH]; simpl; [reflexivity|].
  intros H. apply andb_prop in H as [H1 H2]. rewrite Hc, IH by assumption. reflexivity.
Qed.

Lemma filter_chars_all (p : ascii -> bool) (s : string) :
  all_chars p s = true -> filter_chars p s = s.
Proof.
  induction s as [|c s IH]; simpl; [reflexivity|].
  intros H. apply andb_prop in H as [H1 H2]. rewrite H1, IH by exact H2. reflexivity.
Qed.

Lemma filter_chars_all_neg (p : ascii -> bool) (s : string) :
  all_chars (fun c => negb (p c)) s = true -> filter_chars (fun c => negb (p c)) s = s.
Proof. apply filter_chars_all. Qed.

Lemma all_chars_impl (p q : ascii -> bool) (s : string) :
  (forall c, p c = true -> q c = true) -> all_chars p s = true -> all_chars q s = true.
Proof.
  intros Hc. induction s as [|c s IH]; simpl; [reflexivity|].
  intros H. apply andb_prop in H as [H1 H2]. rewrite Hc, IH by assumption. reflexivity.
Qed.

Lemma lower_all_fixed (s : string) :
  all_chars email_out_char s = true -> lower s = s.
Proof.
  induction s as [|c s IH]; simpl; [reflexivity|].
  intros H. apply andb_prop in H as [H1 H2].
  destruct (char_out_fixed c H1) as [_ [_ ->]]. rewrite IH by exact H2. reflexivity.
Qed.

Lemma lstrip_head (p : ascii -> bool) (s t : string) (c : ascii) :
  lstrip_by p s = String c t -> p c = false.
Proof.
  induction s as [|c0 s IH]; simpl; [discriminate|].
  destruct (p c0) eqn:E; [exact IH|]. intros H. injection H as -> _. exact E.
Qed.

Lemma rstrip_keep_head (p : ascii -> bool) (c : ascii) (s : string) :
  p c = false -> rstrip_by p (String c s) = String c (rstrip_by p s).
Proof. intros H. simpl. rewrite H, andb_false_r. reflexivity. Qed.

Lemma rstrip_last_char (p : ascii -> bool) (s t : string) (c : ascii) :
  rstrip_by p s = t ++ String c EmptyString -> p c = false.
Proof.
  revert t. induction s as [|c0 s IH]; intros t; simpl.
  - destruct t; discriminate.
  - intros H. destruct ((rstrip_by p s =? EmptyString) && p c0) eqn:Ec.
    + destruct t; discriminate.
    + destruct t as [|d t]; simpl in H; injection H as Hc Hr.
      * subst c0. rewrite Hr in Ec. exact Ec.
      * exact (IH t Hr).
Qed.

Lemma strip_head (p : ascii -> bool) (s t : string) (c : ascii) :
  strip_by p s = String c t -> p c = false.
Proof.
  unfold strip_by. destruct (lstrip_by p s) as [|c0 u] eqn:E; [discriminate|].
  rewrite rstrip_keep_head by exact (lstrip_head p s u c0 E).
  intros H. injection H as -> _. exact (lstrip_head p s u c E).
Qed.

Lemma lower_head (s t : string) (d : ascii) :
  lower s = String d t -> exists c s', s = String c s' /\ lower_char c = d.
Proof.
  destruct s as [|c s']; simpl; [discriminate|].
  intros H. injection H as <- _. exists c, s'. split; reflexivity.
Qed.

Lemma lower_last (s t : string) (d : ascii) :
  lower s = t ++ String d EmptyString ->
  exists c s', s = s' ++ String c EmptyString /\ lower_char c = d.
Proof.
  revert t. induction s as [|c s IH]; intros t; simpl.
  - destruct t; discriminate.
  - intros H. destruct t as [|e t]; simpl in H; injection H as H1 H2.
    + destruct s; [|discriminate]. exists c, EmptyString. split; [reflexivity | exact H1].
    + destruct (IH t H2) as [c' [s' [-> Hc]]]. exists c', (String c s'). split; [reflexivity | exact Hc].
Qed.

Lemma strip_no_ends (p : ascii -> bool) (s : string) :
  (forall c t, s = String c t -> p c = false) ->
  (forall c t, s = t ++ String c EmptyString -> p c = false) ->
  strip_by p s = s.
Proof.
  intros Hh Hl. unfold strip_by.
  assert (Hls : lstrip_by p s = s).
  { destruct s as [|c t]; [reflexivity|]. simpl. rewrite (Hh c t eq_refl). reflexivity. }
  rewrite Hls. clear Hh Hls. induction s as [|c s IH]; [reflexivity|].
  simpl. destruct s as [|c' s'].
  - simpl. rewrite (Hl c EmptyString eq_refl). reflexivity.
  - rewrite IH by (intros c0 t Ht; apply (Hl c0 (String c t)); rewrite Ht; reflexivity).
    reflexivity.
Qed.

Lemma clean_email_part_chars (raw_part : string) :
  all_chars email_out_char (clean_email_part raw_part) = true.
Proof.
  unfold clean_email_part. apply all_chars_lower with (p := fun c => email_char_kept c && negb (is_apostrophe c)).
  - apply char_clean_out.
  - unfold strip_by. apply all_chars_rstrip, all_chars_lstrip, all_chars_filter, all_chars_filter_self.
Qed.

Lemma clean_email_part_head (raw_part t : string) :
  clean_email_part raw_part <> String "-" t.
Proof.
  unfold clean_email_part. intros H.
  destruct (lower_head _ _ _ H) as [c [s' [Hs Hc]]].
  apply strip_head in Hs. rewrite <- char_hyphen_lower, Hc in Hs. discriminate.
Qed.

Lemma clean_email_part_last (raw_part t : string) :
  clean_email_part raw_part <> t ++ String "-" EmptyString.
Proof.
  unfold clean_email_part, strip_by. intros H.
  destruct (lower_last _ _ _ H) as [c [s' [Hs Hc]]].
  apply rstrip_last_char in Hs. rewrite <- char_hyphen_lower, Hc in Hs. discriminate.
Qed.

(** [clean_email_part] returns lower-case ASCII letters, digits and hyphens
    only, and never a string that starts or ends with a hyphen. *)
Theorem clean_email_part_shape (raw_part : string) :
  all_chars email_out_char (clean_email_part raw_part) = true
  /\ (forall t, clean_email_part raw_part <> String "-" t)
  /\ (forall t, clean_email_part raw_part <> t ++ String "-" EmptyString).
Proof.
  split; [apply clean_email_part_chars|].
  split; intros t; [apply clean_email_part_head | apply clean_email_part_last].
Qed.

(** Cleaning a cleaned part changes nothing: [clean_email_part] is
    idempotent. *)
Theorem clean_email_part_idempotent (raw_part : string) :
  clean_email_part (clean_email_part raw_part) = clean_email_part raw_part.
Proof.
  set (r := clean_email_part raw_part).
  assert (Hc : all_chars email_out_char r = true) by apply clean_email_part_chars.
  unfold clean_email_part at 1.
  rewrite (filter_chars_all email_char_kept r)
    by (apply (all_chars_impl email_out_char); [intros c Hc'; apply (char_out_fixed c Hc') | exact Hc]).
  rewrite (filter_chars_all_neg is_apostrophe r)
    by (apply (all_chars_impl email_out_char);
        [intros c Hc'; destruct (char_out_fixed c Hc') as [_ [-> _]]; reflexivity | exact Hc]).
  rewrite strip_no_ends.
  - apply lower_all_fixed, Hc.
  - intros c t Ht. destruct (is_hyphen c) eqn:E; [|reflexivity]. exfalso.
    assert (c = "-"%char) by (destruct c as [[] [] [] [] [] [] [] []]; vm_compute in E; congruence).
    subst c. exact (clean_email_part_head raw_part t Ht).
  - intros c t Ht. destruct (is_hyphen c) eqn:E; [|reflexivity]. exfalso.
    assert (c = "-"%char) by (destruct c as [[] [] [] [] [] [] [] []]; vm_compute in E; congruence).
    subst c. exact (clean_email_part_last raw_part t Ht).
Qed.

End EmailShape.

(* ------------------------------------------------------------------ *)
(** ** Outputs of [parse_title] *)

Module TitleFacts.

Import TitleParser TitleProofs.

Lemma strip_fixed (s : string) :
  first_nonspace s = true -> last_nonspace s = true -> strip s = s.
Proof.
  intros H1 H2. unfold strip, strip_by. rewrite lstrip_first_nonspace by exact H1.
  apply rstrip_last_nonspace, H2.
Qed.

Lemma parts_stripped (parts : list string) :
  (forall p, In p parts -> first_nonspace p = true /\ last_nonspace p = true) ->
  strip (match parts with p :: _ => p | [] => EmptyString end)
  = match parts with p :: _ => p | [] => EmptyString end
  /\ strip (if (2 <=? List.length parts)%nat then join " - " (tl parts) else EmptyString)
     = (if (2 <=? List.length parts)%nat then join " - " (tl parts) else EmptyString).
Proof.
  intros Hp. destruct parts as [|p ps]; [split; reflexivity|].
  split; [apply strip_fixed; apply Hp; left; reflexivity|].
  destruct ps as [|y l]; [reflexivity|]. simpl.
  apply strip_fixed.
  - apply join_first_nonspace. apply Hp. right. left. reflexivity.
  - apply join_last_nonspace. apply forallb_forall.
    intros z Hz. apply Hp. right. exact Hz.
Qed.

(** Both outputs of [parse_title] are already stripped: neither the name
    nor [role_company] has leading or trailing whitespace. *)
Theorem parse_title_outputs_stripped (text : string) :
  strip (fst (parse_title text)) = fst (parse_title text)
  /\ strip (snd (parse_title text)) = snd (parse_title text).
Proof.
  unfold parse_title. destruct (text =? EmptyString); [split; reflexivity|].
  cbv zeta. cbn [fst snd]. apply parts_stripped.
  intros p Hin. apply filter_In in Hin as [Hin Hne]. apply in_map_iff in Hin as [q [<- _]].
  unfold nonempty in Hne. apply negb_true_iff, String.eqb_neq in Hne.
  destruct (MatchingProofs.strip_ends q) as [E|E]; [contradiction | exact E].
Qed.

End TitleFacts.
